(** * The document-translation pipeline of [backend/server.js]

    A shallow embedding of the rate limiter, the retry dispatcher, the text
    extractor, the sequential scheduler and the write-back step of
    [backend/server.js], of the upload handler that calls them and of the
    scoring of a quiz, together with the properties its specification
    states about them and further properties the code shows.

    Conventions.
    - A JavaScript string is the list of its UTF-16 code units.
    - Time is a logical clock in milliseconds; [setTimeout] advances it by the
      requested delay.
    - The remote translation service, [Math.random] and the HTML parser and
      serializer of cheerio are parameters of the development. *)

From Stdlib Require Import List ZArith NArith Lia Bool String Ascii.
From Stdlib Require Import Permutation Sorted.
Import ListNotations.

Set Implicit Arguments.

(** ** JavaScript strings *)

Module JsString.

Definition jsstring := list N.

(** An ASCII literal as a JavaScript string. *)
Fixpoint js (s : string) : jsstring :=
  match s with
  | EmptyString => []
  | String a s' => N_of_ascii a :: js s'
  end.

Definition jsstring_eqb (a b : jsstring) : bool :=
  if list_eq_dec N.eq_dec a b then true else false.

(** A string is truthy when it is not empty. *)
Definition truthy (s : jsstring) : bool :=
  match s with [] => false | _ => true end.

(** [WhiteSpace] and [LineTerminator] code points of ECMAScript, the ones
    [String.prototype.trim] strips. *)
Definition isWhiteSpace (c : N) : bool :=
  ((9 <=? c) && (c <=? 13) || (c =? 32) || (c =? 160) || (c =? 5760)
   || (8192 <=? c) && (c <=? 8202) || (c =? 8232) || (c =? 8233)
   || (c =? 8239) || (c =? 8287) || (c =? 12288) || (c =? 65279))%N.

Fixpoint trimStart (s : jsstring) : jsstring :=
  match s with
  | [] => []
  | c :: s' => if isWhiteSpace c then trimStart s' else s
  end.

Definition trimEnd (s : jsstring) : jsstring := rev (trimStart (rev s)).

(** [s.trim()] *)
Definition trim (s : jsstring) : jsstring := trimEnd (trimStart s).

(** The white space [trim] strips at the front and at the back. *)
Fixpoint leadingSpace (s : jsstring) : jsstring :=
  match s with
  | [] => []
  | c :: s' => if isWhiteSpace c then c :: leadingSpace s' else []
  end.

Definition trailingSpace (s : jsstring) : jsstring :=
  rev (leadingSpace (rev (trimStart s))).

(** [s.toLowerCase()] on the ASCII range.  Outside ASCII the only code
    point that lower-cases to an ASCII letter is U+212A (to [k]), a letter
    that occurs in none of the tag names the program compares with. *)
Definition lowerUnit (c : N) : N :=
  if ((65 <=? c) && (c <=? 90))%N then (c + 32)%N else c.

Definition toLowerCase (s : jsstring) : jsstring := map lowerUnit s.

Definition isDigit (c : N) : bool := ((48 <=? c) && (c <=? 57))%N.

Definition dollar : N := 36.
Definition ampersand : N := 38.
Definition backtick : N := 96.
Definition quote : N := 39.
Definition dot : N := 46.
Definition comma : N := 44.

Fixpoint startsWith (pat s : jsstring) : bool :=
  match pat, s with
  | [], _ => true
  | _ :: _, [] => false
  | p :: pat', c :: s' => (p =? c)%N && startsWith pat' s'
  end.

(** The first occurrence of [pat] in [s] (as [indexOf] finds it): the text
    before it and the text after it. [before] accumulates what was
    skipped. *)
Fixpoint splitFirst (pat s before : jsstring) : option (jsstring * jsstring) :=
  if startsWith pat s then Some (before, skipn (List.length pat) s)
  else match s with
       | [] => None
       | c :: s' => splitFirst pat s' (before ++ [c])
       end.

(** [GetSubstitution] of ECMAScript for a string pattern: there are no
    captures, so [$n] and [$<] stand for themselves and only [$$], [$&],
    [$`] and [$'] are expanded. *)
Fixpoint getSubstitution (matched before after template : jsstring) : jsstring :=
  match template with
  | [] => []
  | c :: rest =>
      if (c =? dollar)%N then
        match rest with
        | [] => [c]
        | d :: rest' =>
            if (d =? dollar)%N then dollar :: getSubstitution matched before after rest'
            else if (d =? ampersand)%N then matched ++ getSubstitution matched before after rest'
            else if (d =? backtick)%N then before ++ getSubstitution matched before after rest'
            else if (d =? quote)%N then after ++ getSubstitution matched before after rest'
            else c :: getSubstitution matched before after rest
        end
      else c :: getSubstitution matched before after rest
  end.

(** [s.replace(pat, replacement)] with a string pattern: the first
    occurrence only. *)
Definition replace (s pat replacement : jsstring) : jsstring :=
  match splitFirst pat s [] with
  | None => s
  | Some (before, after) =>
      before ++ getSubstitution pat before after replacement ++ after
  end.

(** [str.substring(0, n)] *)
Definition substring0 (n : nat) (s : jsstring) : jsstring := firstn n s.

End JsString.
Import JsString.

Arguments js : simpl never.
Arguments substring0 : simpl never.

(** [isOnlyNumbers(str)]: [/^\d+$/.test(str.replace(/[.,]/g, ''))] *)
Definition stripSeparators (str : jsstring) : jsstring :=
  filter (fun c => negb ((c =? dot) || (c =? comma))%N) str.

Definition isOnlyNumbers (str : jsstring) : bool :=
  match stripSeparators str with
  | [] => false
  | digits => forallb isDigit digits
  end.

(** ** The document tree *)

(** A node of the tree cheerio parses: text, comment, directive (doctype),
    element ([tag], [script] and [style] nodes, the ones the selector [*]
    matches) and the root (a container that is not an element; a CDATA
    section has the same shape). *)
#[warnings="-register-all"]
Inductive Node : Type :=
| Text (data : jsstring)
| Comment (data : jsstring)
| Directive (name data : jsstring)
| Element (tagName : jsstring) (attribs : list (jsstring * jsstring))
          (children : list Node)
| Root (children : list Node).

(** A reference to a node: the child indices from the root down to it. *)
Definition Path := list nat.

Definition childNodes (n : Node) : list Node :=
  match n with
  | Element _ _ children => children
  | Root children => children
  | _ => []
  end.

Fixpoint getNode (p : Path) (n : Node) : option Node :=
  match p with
  | [] => Some n
  | i :: p' =>
      match nth_error (childNodes n) i with
      | Some child => getNode p' child
      | None => None
      end
  end.

(** [node.data] of the text node at [p]. *)
Definition getData (p : Path) (n : Node) : option jsstring :=
  match getNode p n with
  | Some (Text data) => Some data
  | _ => None
  end.

Definition alterNth (A : Type) (f : A -> A) : nat -> list A -> list A :=
  fix go (i : nat) (l : list A) {struct l} : list A :=
    match l with
    | [] => []
    | x :: l' =>
        match i with
        | O => f x :: l'
        | S i' => x :: go i' l'
        end
    end.

(** [node.data = v] for the text node at [p]. *)
Fixpoint setData (p : Path) (v : jsstring) (n : Node) : Node :=
  match p with
  | [] => match n with Text _ => Text v | _ => n end
  | i :: p' =>
      match n with
      | Element tagName attribs children =>
          Element tagName attribs (alterNth (setData p' v) i children)
      | Root children => Root (alterNth (setData p' v) i children)
      | _ => n
      end
  end.

(** ** The text extractor *)

(** The object pushed on [textNodes]. *)
Record TextNode : Type := mkTextNode {
  node : Path;
  originalText : jsstring;
  trimmedText : jsstring;
  priority : Z;
  tagName : jsstring
}.

(** An element as the callback of [$('*').each] sees it. *)
Record ElementRef : Type := mkElementRef {
  elPath : Path;
  elTagName : jsstring;
  elContents : list Node
}.

(** [$('*')]: every element of the document, in document order. *)
Fixpoint selectAll (p : Path) (n : Node) {struct n} : list ElementRef :=
  let descend :=
    fix descend (j : nat) (cs : list Node) {struct cs} : list ElementRef :=
      match cs with
      | [] => []
      | c :: cs' => selectAll (p ++ [j]) c ++ descend (S j) cs'
      end in
  match n with
  | Element tagName attribs children =>
      mkElementRef p tagName children :: descend O children
  | Root children => descend O children
  | _ => []
  end.

(** The elements at and below the children [cs], the first of which has
    index [j]: the inner loop of [selectAll], named. *)
Fixpoint selectBelow (p : Path) (j : nat) (cs : list Node) : list ElementRef :=
  match cs with
  | [] => []
  | c :: cs' => selectAll (p ++ [j]) c ++ selectBelow p (S j) cs'
  end.

Definition nonTranslatable : list jsstring :=
  [js "script"; js "style"; js "meta"; js "link"].

Definition includes (l : list jsstring) (s : jsstring) : bool :=
  existsb (jsstring_eqb s) l.

(** The [switch] on [element.tagName.toLowerCase()]. *)
Definition priorityOf (tagName : jsstring) : Z :=
  let t := toLowerCase tagName in
  if jsstring_eqb t (js "h1") then 5
  else if jsstring_eqb t (js "h2") then 4
  else if jsstring_eqb t (js "h3") then 3
  else if jsstring_eqb t (js "strong") || jsstring_eqb t (js "b") then 2
  else if jsstring_eqb t (js "li") then 1
  else 0.

(** The test [trimmedText.length > 1 && !isOnlyNumbers(trimmedText)]. *)
Definition qualifies (trimmedText : jsstring) : bool :=
  (1 <? List.length trimmedText)%nat && negb (isOnlyNumbers trimmedText).

(** The inner [children.each((j, child) => ...)] of one element. *)
Fixpoint collectChildren (p : Path) (tag : jsstring) (j : nat)
         (children : list Node) : list TextNode :=
  match children with
  | [] => []
  | child :: rest =>
      match child with
      | Text data =>
          let originalText := data in
          let trimmedText := trim originalText in
          if qualifies trimmedText
          then [mkTextNode (p ++ [j]) originalText trimmedText
                           (priorityOf tag) tag]
          else []
      | _ => []
      end ++ collectChildren p tag (S j) rest
  end.

(** The body of [$('*').each((i, element) => ...)]. *)
Definition collectElement (element : ElementRef) : list TextNode :=
  if includes nonTranslatable (elTagName element) then []
  else collectChildren (elPath element) (elTagName element) O
                       (elContents element).

(** The array [textNodes] when the traversal ends. *)
Definition collectTextNodes (doc : Node) : list TextNode :=
  flat_map collectElement (selectAll [] doc).

(** ** Sorting by priority *)

(** [textNodes.sort((a, b) => b.priority - a.priority)].  [Array.prototype.sort]
    is stable (ECMAScript 2019), and for a comparator that is a total
    preorder the stable sorted arrangement is unique; insertion from the
    right computes it. *)
Fixpoint insertByPriority (a : TextNode) (l : list TextNode) : list TextNode :=
  match l with
  | [] => [a]
  | b :: l' =>
      if (0 <? priority b - priority a)%Z
      then b :: insertByPriority a l'
      else a :: l
  end.

Fixpoint sortByPriority (l : list TextNode) : list TextNode :=
  match l with
  | [] => []
  | a :: l' => insertByPriority a (sortByPriority l')
  end.

(** ** Timers *)

(** The delay [setTimeout] really waits: a delay that is [NaN] ([None]) or
    below one millisecond becomes one millisecond.  (Delays above 2^31-1 ms,
    which Node also resets, are outside the model.) *)
Definition timerDelay (ms : option Z) : Z :=
  match ms with
  | Some d => if (d <? 1)%Z then 1%Z else d
  | None => 1%Z
  end.

(** ** The rate limiter with a queue *)

(** [class RateLimiter].  [queue] holds the pending [resolve] callbacks, each
    named by a number.  [wakeAt] is the time at which the timer that
    [processQueue] awaits fires; it is meaningful while [processing]. *)
Record RateLimiter : Type := mkRateLimiter {
  maxRequests : Z;
  timeWindow : Z;
  requests : list Z;
  queue : list nat;
  processing : bool;
  wakeAt : Z
}.

(** What evaluating [new C(...)] gives: the object, or the error thrown. *)
Inductive Construction (A : Type) : Type :=
| Constructed (obj : A)
| ConstructionFailed (error : jsstring).
Arguments Constructed {A} obj.
Arguments ConstructionFailed {A} error.

(** [constructor(maxRequests, timeWindow)] *)
Definition newRateLimiter (maxRequests timeWindow : Z)
  : Construction RateLimiter :=
  Constructed (mkRateLimiter maxRequests timeWindow [] [] false 0).

(** [this.requests.filter(time => now - time < this.timeWindow)] *)
Definition cleanOld (now timeWindow : Z) (requests : list Z) : list Z :=
  filter (fun time => (now - time <? timeWindow)%Z) requests.

(** [this.timeWindow - (now - this.requests[0])]; [NaN] on an empty array. *)
Definition waitTimeOf (now timeWindow : Z) (requests : list Z) : option Z :=
  match requests with
  | oldest :: _ => Some (timeWindow - (now - oldest))%Z
  | [] => None
  end.

(** One turn of the [while] loop of [processQueue], run at time [now]: the
    limiter afterwards and the callback it resolved, if any.  The loop then
    sleeps until [wakeAt], or has ended ([processing] is [false]). *)
Definition processQueueTurn (now : Z) (rl : RateLimiter)
  : RateLimiter * option nat :=
  match queue rl with
  | [] =>
      (mkRateLimiter (maxRequests rl) (timeWindow rl) (requests rl) []
                     false (wakeAt rl), None)
  | resolve :: rest =>
      let cleaned := cleanOld now (timeWindow rl) (requests rl) in
      if (Z.of_nat (List.length cleaned) <? maxRequests rl)%Z
      then (mkRateLimiter (maxRequests rl) (timeWindow rl) (cleaned ++ [now])
                          rest true (now + timerDelay (Some 100))%Z,
            Some resolve)
      else
        let waitTime := waitTimeOf now (timeWindow rl) cleaned in
        (mkRateLimiter (maxRequests rl) (timeWindow rl) cleaned
                       (resolve :: rest) true
                       (now + timerDelay (option_map (fun t => t + 50) waitTime))%Z,
         None)
  end.

(** The synchronous part of [wait()]: push the callback and, when the loop is
    not running, start [processQueue], whose first turn runs at once. *)
Definition wait (now : Z) (resolve : nat) (rl : RateLimiter)
  : RateLimiter * option nat :=
  let rl1 := mkRateLimiter (maxRequests rl) (timeWindow rl) (requests rl)
                           (queue rl ++ [resolve]) (processing rl) (wakeAt rl) in
  if processing rl1 then (rl1, None) else processQueueTurn now rl1.

(** The timer of [processQueue] fires at [wakeAt] (not before the present)
    and the loop takes its next turn. *)
Definition timerFires (now : Z) (rl : RateLimiter)
  : Z * RateLimiter * option nat :=
  let t := Z.max now (wakeAt rl) in
  let '(rl', resolved) := processQueueTurn t rl in
  (t, rl', resolved).

(** The loop of [processQueue] from the firing of the timer it sleeps on
    until the queue is empty: the admissions (callback, time) in the order
    they happen, the time of the last turn and the limiter then.  [None]
    when [fuel] turns do not empty the queue. *)
Fixpoint processQueue (fuel : nat) (now : Z) (rl : RateLimiter)
  : option (list (nat * Z) * Z * RateLimiter) :=
  match queue rl with
  | [] => Some ([], now, rl)
  | _ :: _ =>
      match fuel with
      | O => None
      | S fuel' =>
          let '(t, rl', resolved) := timerFires now rl in
          match processQueue fuel' t rl' with
          | None => None
          | Some (admitted, tEnd, rlEnd) =>
              Some (match resolved with
                    | Some r => (r, t) :: admitted
                    | None => admitted
                    end, tEnd, rlEnd)
          end
      end
  end.

(** Turns that are enough to empty the queue when [maxRequests] is
    positive: a turn either admits a caller or purges a timestamp. *)
Definition processQueueFuel (rl : RateLimiter) : nat :=
  2 * List.length (queue rl) + List.length (requests rl) + 1.

(** Time passes to [now] while no caller waits: a loop whose timer is due
    finds the queue empty and ends. *)
Definition settle (now : Z) (rl : RateLimiter) : RateLimiter :=
  match queue rl with
  | [] =>
      if processing rl && (wakeAt rl <=? now)%Z
      then fst (processQueueTurn (wakeAt rl) rl)
      else rl
  | _ :: _ => rl
  end.

(** [await limiter.wait()] by a caller at time [now]: the callers queued
    before it are served first, then the caller; the result is the time its
    promise resolves and the limiter then.  [None]: it never resolves. *)
Definition acquire (now : Z) (resolve : nat) (rl : RateLimiter)
  : option (Z * RateLimiter) :=
  let '(rl1, resolved) := wait now resolve rl in
  match queue rl1 with
  | [] => Some (now, rl1)
  | _ :: _ =>
      match processQueue (processQueueFuel rl1) now rl1 with
      | Some (_, t, rl2) => Some (t, rl2)
      | None => None
      end
  end.

(** ** The world the pipeline runs in *)

(** The value of [response.data.translatedText]: missing, a string, or
    something else, of which only its truthiness matters. *)
Inductive JsValue : Type :=
| JsUndefined
| JsStr (s : jsstring)
| JsOther (isTruthy : bool).

Definition jsTruthy (v : JsValue) : bool :=
  match v with
  | JsUndefined => false
  | JsStr s => truthy s
  | JsOther b => b
  end.

(** The body of the request to [/translate]. *)
Record Payload : Type := mkPayload {
  text : jsstring;
  to : jsstring;
  context : jsstring;
  preserve_formatting : bool
}.

(** How [httpClient.post] settles: rejected with an error (network failure,
    timeout, a status that is not 2xx), or resolved with a response whose
    [data] is falsy ([None]) or has the given [translatedText]. *)
Inductive PostResult : Type :=
| PostRejected (message : jsstring)
| PostResolved (data : option JsValue).

Record Reply : Type := mkReply {
  latency : Z;
  result : PostResult
}.

(** What the pipeline leaves for an observer, in order: the limiter
    admissions, the sleeps, the requests and the console lines.  A console
    line about an item also names the node of the item (the line itself
    prints only the first characters of its text, or its index). *)
Inductive Event : Type :=
| Acquired (time : Z)
| Slept (ms : Z)
| Posted (payload : Payload)
| LogFound (count : nat)
| LogProcessingItem (item total : nat) (batch : list Path)
| LogTranslated (item : Path) (text30 : jsstring)
| WarnFailed (item : Path) (text30 message : jsstring)
| WarnAttempt (attempt maxRetries : Z) (text30 message : jsstring)
| ErrorBatchFailed (message : jsstring)
| LogCompleted (successCount failCount : nat).

(** The collaborators: the remote service (its reply to the n-th request),
    [Math.random() * 1000] (its n-th value, in milliseconds) and the parser
    and serializer of cheerio. *)
Record Env : Type := mkEnv {
  service : nat -> Payload -> Reply;
  jitter : nat -> Z;
  cheerioLoad : jsstring -> Node;
  cheerioHtml : Node -> jsstring
}.

(** The mutable state: the clock, the module-level [translationLimiter], how
    many requests and random numbers were drawn, the parsed document [$], the
    array [textNodes] and the trace. *)
Record World : Type := mkWorld {
  now : Z;
  translationLimiter : RateLimiter;
  postCount : nat;
  randomCount : nat;
  document : Node;
  textNodes : list TextNode;
  trace : list Event
}.

Definition setDocument (d : Node) (w : World) : World :=
  mkWorld (now w) (translationLimiter w) (postCount w) (randomCount w)
          d (textNodes w) (trace w).

Definition setTextNodes (l : list TextNode) (w : World) : World :=
  mkWorld (now w) (translationLimiter w) (postCount w) (randomCount w)
          (document w) l (trace w).

Definition record (e : Event) (w : World) : World :=
  mkWorld (now w) (translationLimiter w) (postCount w) (randomCount w)
          (document w) (textNodes w) (trace w ++ [e]).

(** The clock advances by [d] while the pipeline is suspended. *)
Definition elapse (d : Z) (w : World) : World :=
  let t := (now w + d)%Z in
  mkWorld t (settle t (translationLimiter w)) (postCount w) (randomCount w)
          (document w) (textNodes w) (trace w).

(** An awaited computation: it fulfils with a value, rejects with an error
    (its [message]) or never settles. *)
Inductive Outcome (A : Type) : Type :=
| Fulfilled (value : A) (w : World)
| Rejected (message : jsstring) (w : World)
| Pending.
Arguments Fulfilled {A} value w.
Arguments Rejected {A} message w.
Arguments Pending {A}.

Definition Async (A : Type) : Type := World -> Outcome A.

Definition ret (A : Type) (a : A) : Async A := fun w => Fulfilled a w.

Definition throw (A : Type) (message : jsstring) : Async A :=
  fun w => Rejected message w.
Arguments throw {A} message.

Definition bind (A B : Type) (m : Async A) (k : A -> Async B) : Async B :=
  fun w =>
    match m w with
    | Fulfilled a w' => k a w'
    | Rejected e w' => Rejected e w'
    | Pending => Pending
    end.

(** [try { m } catch (error) { handler }] *)
Definition tryCatch (A : Type) (m : Async A) (handler : jsstring -> Async A)
  : Async A :=
  fun w =>
    match m w with
    | Fulfilled a w' => Fulfilled a w'
    | Rejected e w' => handler e w'
    | Pending => Pending
    end.

Declare Scope async_scope.
Delimit Scope async_scope with async.
Notation "x <- m ;; k" := (bind m (fun x => k))
  (at level 61, m at next level, right associativity) : async_scope.
Notation "m ;; k" := (bind m (fun _ => k))
  (at level 61, right associativity) : async_scope.
Open Scope async_scope.

Definition emit (e : Event) : Async unit := fun w => Fulfilled tt (record e w).

(** [await new Promise(resolve => setTimeout(resolve, ms))] *)
Definition sleep (ms : Z) : Async unit :=
  fun w => Fulfilled tt (elapse (timerDelay (Some ms)) (record (Slept ms) w)).

(** [await translationLimiter.wait()] *)
Definition limiterWait : Async unit :=
  fun w =>
    match acquire (now w) O (translationLimiter w) with
    | Some (t, rl) =>
        Fulfilled tt
          (record (Acquired t)
             (mkWorld t rl (postCount w) (randomCount w) (document w)
                      (textNodes w) (trace w)))
    | None => Pending
    end.

(** [item.node.data = v] *)
Definition assignData (p : Path) (v : jsstring) : Async unit :=
  fun w => Fulfilled tt (setDocument (setData p v (document w)) w).

(** ** The retry dispatcher and the sequential scheduler *)

(** [getContextHint(tagName)] *)
Definition getContextHint (tagName : jsstring) : jsstring :=
  let t := toLowerCase tagName in
  if jsstring_eqb t (js "h1")
  then js "This is a main heading title. Translate accurately."
  else if jsstring_eqb t (js "h2")
  then js "This is a section heading. Translate accurately."
  else if jsstring_eqb t (js "h3") || jsstring_eqb t (js "h4")
          || jsstring_eqb t (js "h5") || jsstring_eqb t (js "h6")
  then js "This is a subheading. Translate accurately."
  else if jsstring_eqb t (js "li") then js "This is a list item."
  else if jsstring_eqb t (js "strong") || jsstring_eqb t (js "b")
  then js "This is emphasized important text."
  else if jsstring_eqb t (js "table") then js "This is table content."
  else js "This is regular paragraph text.".

Definition defaultMaxRetries : Z := 5.
Definition BATCH_SIZE : nat := 1.
Definition DELAY_BETWEEN_REQUESTS : Z := 500.

Section Pipeline.

Variable env : Env.

(** [await httpClient.post("/translate", payload)] *)
Definition httpPost (payload : Payload) : Async (option JsValue) :=
  fun w =>
    let reply := service env (postCount w) payload in
    let w1 := record (Posted payload) w in
    let w2 := elapse (Z.max 0 (latency reply))
                (mkWorld (now w1) (translationLimiter w1) (S (postCount w1))
                         (randomCount w1) (document w1) (textNodes w1)
                         (trace w1)) in
    match result reply with
    | PostRejected message => Rejected message w2
    | PostResolved data => Fulfilled data w2
    end.

(** [Math.random() * 1000] *)
Definition drawJitter : Async Z :=
  fun w =>
    Fulfilled (jitter env (randomCount w))
      (mkWorld (now w) (translationLimiter w) (postCount w)
               (S (randomCount w)) (document w) (textNodes w) (trace w)).

(** The [try] block of [translateWithRetry]: one attempt.  It fulfils with
    the value the function returns, or rejects with the error the [catch]
    block receives. *)
Definition attemptOnce (text tagName : jsstring) (index : Z)
  : Async JsValue :=
  limiterWait ;;
  (if (0 <? index)%Z then sleep (index * 100) else ret tt) ;;
  let contextHint := getContextHint tagName in
  let payload := mkPayload text (js "pa") contextHint true in
  data <- httpPost payload ;;
  match data with
  | Some translatedText =>
      if jsTruthy translatedText then ret translatedText
      else throw (js "Invalid response format")
  | None => throw (js "Invalid response format")
  end.

(** The [for (attempt = 1; attempt <= maxRetries; attempt++)] loop;
    [remaining] counts the values of [attempt] still to come, so the loop
    condition fails exactly when it is zero. *)
Fixpoint retryLoop (text tagName : jsstring) (index maxRetries : Z)
         (remaining : nat) (attempt : Z) : Async JsValue :=
  match remaining with
  | O => ret JsUndefined
  | S remaining' =>
      fun w =>
        match attemptOnce text tagName index w with
        | Fulfilled translatedText w' => Fulfilled translatedText w'
        | Pending => Pending
        | Rejected message w' =>
            (emit (WarnAttempt attempt maxRetries (substring0 30 text) message) ;;
             if (attempt =? maxRetries)%Z
             then throw (js "All retries failed: " ++ message)
             else
               let baseDelay := (2 ^ attempt * 1000)%Z in
               j <- drawJitter ;;
               let backoffTime := (baseDelay + j)%Z in
               sleep backoffTime ;;
               retryLoop text tagName index maxRetries remaining'
                         (attempt + 1)) w'
        end
  end.

(** [translateWithRetry(text, tagName, index, maxRetries = 5)] *)
Definition translateWithRetry (text tagName : jsstring) (index maxRetries : Z)
  : Async JsValue :=
  retryLoop text tagName index maxRetries (Z.to_nat maxRetries) 1.

(** [if (translated && translated.trim().length > 0) item.node.data = ...].
    Calling [trim] on a truthy value that is not a string throws. *)
Definition writeBack (item : TextNode) (translated : JsValue) : Async bool :=
  match translated with
  | JsUndefined => ret false
  | JsOther false => ret false
  | JsOther true => throw (js "translated.trim is not a function")
  | JsStr s =>
      if truthy s && (0 <? List.length (trim s))%nat
      then assignData (node item)
             (replace (originalText item) (trimmedText item) s) ;;
           ret true
      else ret false
  end.

(** The body of the loop of [processBatchSequential], for [batch[i]]. *)
Definition processItem (i : nat) (item : TextNode) : Async unit :=
  tryCatch
    (limiterWait ;;
     translated <- translateWithRetry (trimmedText item) (tagName item)
                     (Z.of_nat i) defaultMaxRetries ;;
     written <- writeBack item translated ;;
     if written
     then emit (LogTranslated (node item) (substring0 30 (trimmedText item)))
     else ret tt)
    (fun message =>
       emit (WarnFailed (node item) (substring0 30 (trimmedText item))
                        message)).

(** [processBatchSequential(batch)], from index [i] on. *)
Fixpoint processBatchSequentialFrom (i : nat) (batch : list TextNode)
  : Async unit :=
  match batch with
  | [] => ret tt
  | item :: rest =>
      processItem i item ;;
      processBatchSequentialFrom (S i) rest
  end.

Definition processBatchSequential (batch : list TextNode) : Async unit :=
  processBatchSequentialFrom O batch.

(** [textNodes.slice(i, j)] *)
Definition slice (A : Type) (i j : nat) (l : list A) : list A :=
  firstn (j - i) (skipn i l).

(** The [for (i = 0; i < textNodes.length; i += BATCH_SIZE)] loop of
    [processSequentialTranslation]; [fuel] bounds the number of turns. *)
Fixpoint sequentialLoop (textNodes : list TextNode) (fuel i : nat)
         (successCount failCount : nat) : Async (nat * nat) :=
  match fuel with
  | O => ret (successCount, failCount)
  | S fuel' =>
      if (i <? List.length textNodes)%nat then
        let batch := slice i (i + BATCH_SIZE) textNodes in
        emit (LogProcessingItem (i + 1) (List.length textNodes)
                                (map node batch)) ;;
        counts <-
          tryCatch
            (processBatchSequential batch ;;
             (if (i + BATCH_SIZE <? List.length textNodes)%nat
              then sleep DELAY_BETWEEN_REQUESTS else ret tt) ;;
             ret (successCount + List.length batch, failCount)%nat)
            (fun message =>
               emit (ErrorBatchFailed message) ;;
               ret (successCount, failCount + List.length batch)%nat) ;;
        sequentialLoop textNodes fuel' (i + BATCH_SIZE) (fst counts) (snd counts)
      else ret (successCount, failCount)
  end.

(** [processSequentialTranslation(textNodes)] *)
Definition processSequentialTranslation (textNodes : list TextNode)
  : Async unit :=
  counts <- sequentialLoop textNodes (List.length textNodes) O O O ;;
  emit (LogCompleted (fst counts) (snd counts)).

(** [translateHtmlStructureOptimized(htmlEnglish)] *)
Definition translateHtmlStructureOptimized (htmlEnglish : jsstring)
  : Async jsstring :=
  fun w =>
    let w1 := setDocument (cheerioLoad env htmlEnglish) w in
    let w2 := setTextNodes (collectTextNodes (document w1)) w1 in
    let w3 := record (LogFound (List.length (textNodes w2))) w2 in
    if (List.length (textNodes w3) =? 0)%nat then Fulfilled htmlEnglish w3
    else
      let w4 := setTextNodes (sortByPriority (textNodes w3)) w3 in
      (processSequentialTranslation (textNodes w4) ;;
       fun w5 => Fulfilled (cheerioHtml env (document w5)) w5) w4.

(** The loop of [processSequentialTranslation] turn by turn: what it does
    for the items left [rest], the first of which has index [i], with
    [BATCH_SIZE] at its value of one. *)
Fixpoint loopOver (total : nat) (rest : list TextNode) (i : nat)
         (successCount failCount : nat) : Async (nat * nat) :=
  match rest with
  | [] => ret (successCount, failCount)
  | item :: rest' =>
      emit (LogProcessingItem (i + 1) total [node item]) ;;
      counts <-
        tryCatch
          (processBatchSequential [item] ;;
           (if (i + BATCH_SIZE <? total)%nat
            then sleep DELAY_BETWEEN_REQUESTS else ret tt) ;;
           ret (successCount + 1, failCount)%nat)
          (fun message =>
             emit (ErrorBatchFailed message) ;;
             ret (successCount, failCount + 1)%nat) ;;
      loopOver total rest' (i + BATCH_SIZE) (fst counts) (snd counts)
  end.

End Pipeline.

(** ** The batched revision

    The second revision of the server kept in the same file: a rate limiter
    without a queue and fixed-size concurrent batches.  Its extractor, its
    sort, its [isOnlyNumbers] and its write-back statement are the ones
    above, word for word. *)

Module Batched.

(** [class RateLimiter] *)
Record RateLimiter : Type := mkRateLimiter {
  maxRequests : Z;
  timeWindow : Z;
  requests : list Z
}.

(** [constructor(maxRequests, timeWindow)] *)
Definition newRateLimiter (maxRequests timeWindow : Z)
  : Construction RateLimiter :=
  Constructed (mkRateLimiter maxRequests timeWindow []).

(** [wait()] up to its [await], run at time [now]: the old requests are
    purged and, when the window is full, the call sleeps; the result is the
    limiter and the time at which the call goes on. *)
Definition waitBegin (now : Z) (rl : RateLimiter) : RateLimiter * Z :=
  let cleaned := cleanOld now (timeWindow rl) (requests rl) in
  let rl1 := mkRateLimiter (maxRequests rl) (timeWindow rl) cleaned in
  if (maxRequests rl <=? Z.of_nat (List.length cleaned))%Z
  then
    let waitTime := waitTimeOf now (timeWindow rl) cleaned in
    (rl1, (now + timerDelay (option_map (fun t => t + 100) waitTime))%Z)
  else (rl1, now).

(** The end of [wait()]: [this.requests.push(now)], where [now] is the
    time that was read when the call began. *)
Definition waitEnd (now : Z) (rl : RateLimiter) : RateLimiter :=
  mkRateLimiter (maxRequests rl) (timeWindow rl) (requests rl ++ [now]).

(** [await limiter.wait()] by a lone caller at time [now]: the time the
    promise resolves and the limiter then. *)
Definition wait (now : Z) (rl : RateLimiter) : Z * RateLimiter :=
  let '(rl1, resumeAt) := waitBegin now rl in
  (resumeAt, waitEnd now rl1).

(** [n] calls back to back, each made when the one before resolves: the
    times they resolve and the limiter at the end. *)
Fixpoint waitTimes (n : nat) (now : Z) (rl : RateLimiter)
  : list Z * RateLimiter :=
  match n with
  | O => ([], rl)
  | S n' =>
      let '(t, rl') := wait now rl in
      let '(ts, rlEnd) := waitTimes n' t rl' in
      (t :: ts, rlEnd)
  end.

Section Batches.

Variable env : Env.

(** The concurrent batches ([processTranslationBatches], built on
    [Promise.allSettled]) are kept abstract. *)
Variable processTranslationBatches : list TextNode -> Async unit.

(** [translateHtmlStructureOptimized(htmlEnglish)] *)
Definition translateHtmlStructureOptimized (htmlEnglish : jsstring)
  : Async jsstring :=
  fun w =>
    let w1 := setDocument (cheerioLoad env htmlEnglish) w in
    let w2 := setTextNodes (collectTextNodes (document w1)) w1 in
    let w3 := record (LogFound (List.length (textNodes w2))) w2 in
    if (List.length (textNodes w3) =? 0)%nat then Fulfilled htmlEnglish w3
    else
      let w4 := setTextNodes (sortByPriority (textNodes w3)) w3 in
      (processTranslationBatches (textNodes w4) ;;
       fun w5 => Fulfilled (cheerioHtml env (document w5)) w5) w4.

End Batches.

End Batched.

(** ** Sample collaborators

    Concrete services, documents and worlds for the examples. *)

(** The limiter [new RateLimiter(3, 1500)] builds. *)
Definition freshLimiter : RateLimiter := mkRateLimiter 3 1500 [] [] false 0.

(** A world in which nothing has happened yet. *)
Definition startWorld (t : Z) (rl : RateLimiter) : World :=
  mkWorld t rl O O (Root []) [] [].

(** A service that echoes the text it is sent. *)
Definition echoService (n : nat) (p : Payload) : Reply :=
  mkReply 0 (PostResolved (Some (JsStr (text p)))).

(** A service that is down. *)
Definition deadService (n : nat) (p : Payload) : Reply :=
  mkReply 0 (PostRejected (js "Network Error")).

(** A service that fails its first request and echoes afterwards. *)
Definition flakyService (n : nat) (p : Payload) : Reply :=
  match n with
  | O => mkReply 0 (PostRejected (js "Network Error"))
  | S _ => mkReply 0 (PostResolved (Some (JsStr (text p))))
  end.

(** A service that fails every request for the text [bad] and answers
    [answer] to any other. *)
Definition selectiveService (bad answer : jsstring) (n : nat) (p : Payload)
  : Reply :=
  if jsstring_eqb (text p) bad
  then mkReply 0 (PostRejected (js "Request failed with status code 500"))
  else mkReply 0 (PostResolved (Some (JsStr answer))).

(** A service that answers every request with the same text. *)
Definition constantService (answer : jsstring) (n : nat) (p : Payload) : Reply :=
  mkReply 0 (PostResolved (Some (JsStr answer))).

(** How cheerio writes a tree without attributes back, text as it is. *)
Fixpoint renderPlain (n : Node) : jsstring :=
  match n with
  | Text data => data
  | Comment data => js "<!--" ++ data ++ js "-->"
  | Directive name data => js "<" ++ data ++ js ">"
  | Element tagName _ children =>
      js "<" ++ tagName ++ js ">" ++ flat_map renderPlain children
        ++ js "</" ++ tagName ++ js ">"
  | Root children => flat_map renderPlain children
  end.

(** A document in which no text qualifies: a number and a script. *)
Definition numbersOnly : Node :=
  Root [Element (js "p") [] [Text (js " 3,14 ")];
        Element (js "script") [] [Text (js "var total = 0;")]].

(** A paragraph followed by a heading. *)
Definition headingLast : Node :=
  Root [Element (js "p") [] [Text (js "Hello")];
        Element (js "h1") [] [Text (js "Title")]].

(** A page, as cheerio completes it, whose one paragraph holds [$$]. *)
Definition pricePage : Node :=
  Root [Element (js "html") []
          [Element (js "head") [] [];
           Element (js "body") []
             [Element (js "p") [] [Text (js " Cost: $$5 ")]]]].

(** An environment whose parser knows one document. *)
Definition sampleEnv (service : nat -> Payload -> Reply) (doc : Node) : Env :=
  mkEnv service (fun _ => 0%Z) (fun _ => doc) renderPlain.

(** ** Predicates the properties are stated with *)

(** The number of recorded timestamps in the window of length [timeWindow]
    that ends at [t]. *)
Definition inWindow (timeWindow t : Z) (requests : list Z) : nat :=
  List.length
    (filter (fun time => (t - timeWindow <? time)%Z && (time <=? t)%Z) requests).

(** At most [maxRequests] recorded timestamps fall within any trailing
    [timeWindow] interval. *)
Definition windowBounded (maxRequests timeWindow : Z) (requests : list Z)
  : Prop :=
  forall t : Z, (Z.of_nat (inWindow timeWindow t requests) <= maxRequests)%Z.

(** No recorded timestamp is older than [timeWindow] at time [now]. *)
Definition purged (now timeWindow : Z) (requests : list Z) : Prop :=
  Forall (fun time => (now - time < timeWindow)%Z) requests.

(** A string made of digits, [.] and [,] only, with a digit in it. *)
Definition numericLooking (s : jsstring) : Prop :=
  Forall (fun c => isDigit c = true \/ c = dot \/ c = comma) s
  /\ Exists (fun c => isDigit c = true) s.

(** The text node at [p] sits directly in an element named [tag]. *)
Definition textChildOf (doc : Node) (p : Path) (tag data : jsstring) : Prop :=
  exists parent j attribs children,
    p = parent ++ [j]
    /\ getNode parent doc = Some (Element tag attribs children)
    /\ nth_error children j = Some (Text data).

(** [el] describes an element of the tree [n], itself rooted at [p]. *)
Definition elementAt (n : Node) (p : Path) (el : ElementRef) : Prop :=
  exists q attribs,
    elPath el = p ++ q
    /\ getNode q n = Some (Element (elTagName el) attribs (elContents el)).

(** The timer the loop of [processQueue] sleeps on was set so that the
    oldest recorded timestamp has left the window when it fires. *)
Definition armed (rl : RateLimiter) : Prop :=
  match requests rl with
  | [] => False
  | oldest :: _ => (timeWindow rl <= wakeAt rl - oldest)%Z
  end.

(** The limiter right after it admitted a caller at time [t]: the timestamps
    kept are within the window, fewer than [mx], and [t] was pushed last. *)
Definition admittedAt (mx tw t : Z) (rl : RateLimiter) : Prop :=
  maxRequests rl = mx /\ timeWindow rl = tw
  /\ queue rl = [] /\ processing rl = true /\ wakeAt rl = (t + 100)%Z
  /\ exists kept,
       requests rl = kept ++ [t]
       /\ (Z.of_nat (List.length kept) < mx)%Z
       /\ purged t tw kept.

(** [n] calls of [wait()] back to back by one caller, each made when the one
    before resolves: the times they resolve and the limiter at the end. *)
Fixpoint backToBack (n : nat) (now : Z) (rl : RateLimiter)
  : option (list Z * RateLimiter) :=
  match n with
  | O => Some ([], rl)
  | S n' =>
      match acquire now n rl with
      | None => None
      | Some (t, rl') =>
          match backToBack n' t rl' with
          | None => None
          | Some (ts, rlEnd) => Some (t :: ts, rlEnd)
          end
      end
  end.

(** The calls [ids] are all made at time [now] before any is awaited; the
    admissions follow in the order the loop makes them. *)
Definition burst (ids : list nat) (now : Z) (rl : RateLimiter)
  : option (list (nat * Z)) :=
  let entered :=
    fold_left
      (fun acc id =>
         let '(rl1, resolved) := wait now id (fst acc) in
         (rl1, snd acc ++ match resolved with
                          | Some r => [(r, now)]
                          | None => []
                          end))
      ids (rl, []) in
  match processQueue (processQueueFuel (fst entered)) now (fst entered) with
  | Some (admitted, _, _) => Some (snd entered ++ admitted)
  | None => None
  end.

(** The limiter of the world can admit callers. *)
Definition ready (w : World) : Prop :=
  (0 < maxRequests (translationLimiter w))%Z.

(** From [w] to [w'] the pipeline left the events [evs] and touched
    neither the array [textNodes] nor the configuration of the limiter. *)
Definition advances (w w' : World) (evs : list Event) : Prop :=
  trace w' = trace w ++ evs
  /\ textNodes w' = textNodes w
  /\ maxRequests (translationLimiter w') = maxRequests (translationLimiter w)
  /\ timeWindow (translationLimiter w') = timeWindow (translationLimiter w).

(** The same, and the document was not written either. *)
Definition quiet (w w' : World) (evs : list Event) : Prop :=
  advances w w' evs /\ document w' = document w.

(** The sleep that staggers the requests of one batch. *)
Definition stagger (index : Z) : list Event :=
  if (0 <? index)%Z then [Slept (index * 100)] else [].

(** How a call of [translateWithRetry] ends. *)
Inductive RetryOutcome : Type :=
| Returned (value : JsValue)
| Failed (message : jsstring).

(** The traces of [translateWithRetry] from attempt number [attempt] on,
    with the way the call ends.  Every attempt is an admission by the
    limiter, the stagger sleep and the request; a failed attempt adds the
    warning and, unless it was the last one, the backoff sleep. *)
Inductive retryTrace (index maxRetries : Z) (text30 : jsstring)
  : Z -> list Event -> RetryOutcome -> Prop :=
| rt_exhausted attempt :
    (maxRetries < attempt)%Z ->
    retryTrace index maxRetries text30 attempt [] (Returned JsUndefined)
| rt_success attempt t payload value :
    (attempt <= maxRetries)%Z ->
    jsTruthy value = true ->
    retryTrace index maxRetries text30 attempt
      (Acquired t :: stagger index ++ [Posted payload]) (Returned value)
| rt_last_failure t payload cause :
    retryTrace index maxRetries text30 maxRetries
      (Acquired t :: stagger index
         ++ [Posted payload; WarnAttempt maxRetries maxRetries text30 cause])
      (Failed (js "All retries failed: " ++ cause))
| rt_retry attempt t payload cause backoff evs outcome :
    (attempt < maxRetries)%Z ->
    retryTrace index maxRetries text30 (attempt + 1) evs outcome ->
    retryTrace index maxRetries text30 attempt
      (Acquired t :: stagger index
         ++ [Posted payload; WarnAttempt attempt maxRetries text30 cause;
             Slept backoff] ++ evs)
      outcome.

(** The settled promise of a call of [translateWithRetry] that ended as
    [out], leaving the world [w]. *)
Definition settled (out : RetryOutcome) (w : World) : Outcome JsValue :=
  match out with
  | Returned v => Fulfilled v w
  | Failed message => Rejected message w
  end.

(** The nodes the console lines of a trace report as failed, and the nodes
    of the batches it reports as started, in order. *)
Definition failedNodes (evs : list Event) : list Path :=
  flat_map (fun e => match e with WarnFailed p _ _ => [p] | _ => [] end) evs.

Definition dispatched (evs : list Event) : list Path :=
  flat_map (fun e => match e with
                     | LogProcessingItem _ _ batch => batch
                     | _ => []
                     end) evs.

(** The events [translateWithRetry] leaves. *)
Definition retryEvent (e : Event) : bool :=
  match e with
  | Acquired _ | Slept _ | Posted _ | WarnAttempt _ _ _ _ => true
  | _ => false
  end.

(** A translation [writeBack] accepts. *)
Definition accepted (s : jsstring) : Prop := truthy s = true /\ trim s <> [].

(** What a turn of the scheduler for [item] may do, from [w] to [w']: it
    starts no batch, writes no node but the one of [item], and either
    reports no failure, having left the document alone or written an
    accepted translation, or reports the failure of [item] and leaves the
    document alone. *)
Definition turnOf (item : TextNode) (w w' : World) (evs : list Event) : Prop :=
  advances w w' evs
  /\ dispatched evs = []
  /\ (forall q, q <> node item ->
                getData q (document w') = getData q (document w))
  /\ ((failedNodes evs = []
       /\ (document w' = document w
           \/ exists s,
               accepted s
               /\ document w'
                  = setData (node item)
                      (replace (originalText item) (trimmedText item) s)
                      (document w)))
      \/ (failedNodes evs = [node item] /\ document w' = document w)).

(** What the text of the node of [item] may be after the scheduler ran,
    leaving the events [evs]: the original text, or, with no failure
    reported for it, the original text with an accepted translation
    substituted for the trimmed text. *)
Definition settledText (item : TextNode) (evs : list Event) (doc : Node)
  : Prop :=
  getData (node item) doc = Some (originalText item)
  \/ (~ In (node item) (failedNodes evs)
      /\ exists s,
          accepted s
          /\ getData (node item) doc
             = Some (replace (originalText item) (trimmedText item) s)).

(** Non-increasing priority, the order the comparator [b.priority -
    a.priority] asks for. *)
Definition byPriority (a b : TextNode) : Prop := (priority b <= priority a)%Z.

(** The items of a list that have priority [p], in the order of the list. *)
Definition tier (p : Z) (l : list TextNode) : list TextNode :=
  filter (fun a => (priority a =? p)%Z) l.

(** An item the extractor made from the document [doc], the text of which
    holds no [$]. *)
Definition plainItem (doc : Node) (item : TextNode) : Prop :=
  trimmedText item = trim (originalText item)
  /\ qualifies (trimmedText item) = true
  /\ ~ In dollar (trimmedText item)
  /\ getData (node item) doc = Some (originalText item).

(** The events of a trace that are requests to the service. *)
Definition isPosted (e : Event) : bool :=
  match e with Posted _ => true | _ => false end.

Definition isAcquired (e : Event) : bool :=
  match e with Acquired _ => true | _ => false end.

Definition isSlept (ms : Z) (e : Event) : bool :=
  match e with Slept d => (d =? ms)%Z | _ => false end.

Definition countEvents (f : Event -> bool) (l : list Event) : nat :=
  List.length (filter f l).

(** ** The accounts of a run *)

(** The request [translateWithRetry] builds for a text in an element. *)
Definition payloadFor (text tagName : jsstring) : Payload :=
  mkPayload text (js "pa") (getContextHint tagName) true.

(** What the [try] block of [translateWithRetry] makes of a settled
    request: the value it returns, or the message of the error it throws. *)
Definition attemptResult (r : PostResult) : JsValue + jsstring :=
  match r with
  | PostRejected message => inr message
  | PostResolved (Some translatedText) =>
      if jsTruthy translatedText then inl translatedText
      else inr (js "Invalid response format")
  | PostResolved None => inr (js "Invalid response format")
  end.

(** The time the sleeps of a trace take. *)
Definition sleptTotal (evs : list Event) : Z :=
  fold_right (fun e acc => match e with
                           | Slept ms => (timerDelay (Some ms) + acc)%Z
                           | _ => acc
                           end) 0%Z evs.

(** The times at which the limiter admitted the pipeline, in order. *)
Definition admissions (evs : list Event) : list Z :=
  flat_map (fun e => match e with Acquired t => [t] | _ => [] end) evs.

(** The earliest time the loop of [processQueue] can take its next turn. *)
Definition due (w : World) : Z :=
  if processing (translationLimiter w)
  then Z.max (now w) (wakeAt (translationLimiter w))
  else now w.

(** Admissions that are at least 100 ms apart, each of which found fewer
    than [maxRequests] earlier ones within the [timeWindow] before it. *)
Definition paced (maxRequests timeWindow : Z) (adms : list Z) : Prop :=
  forall pre t post,
    adms = pre ++ t :: post ->
    Forall (fun a => a + 100 <= t)%Z pre
    /\ (Z.of_nat (List.length (filter (fun a => t - timeWindow <? a)%Z pre))
        < maxRequests)%Z.

(** The limiter of [w] has nobody waiting and remembers the admissions
    [adms]: each is still in its window or has left it for good. *)
Definition tracks (adms : list Z) (w : World) : Prop :=
  queue (translationLimiter w) = []
  /\ Forall (fun a => a + 100 <= due w)%Z adms
  /\ Forall (fun a => In a (requests (translationLimiter w))
                      \/ timeWindow (translationLimiter w) <= now w - a)%Z adms
  /\ paced (maxRequests (translationLimiter w))
           (timeWindow (translationLimiter w)) adms.

(** From [w] to [w'] the run left the events [evs]: the configuration of
    the limiter is the same, the requests were counted, the sleeps took
    their time and the limiter kept track of the admissions. *)
Definition accounts (w w' : World) (evs : list Event) : Prop :=
  trace w' = trace w ++ evs
  /\ maxRequests (translationLimiter w') = maxRequests (translationLimiter w)
  /\ timeWindow (translationLimiter w') = timeWindow (translationLimiter w)
  /\ postCount w' = (postCount w + countEvents isPosted evs)%nat
  /\ (now w + sleptTotal evs <= now w')%Z
  /\ (forall adms, tracks adms w -> tracks (adms ++ admissions evs) w')
  /\ Forall (fun a => now w <= a <= now w')%Z (admissions evs).

(** The events that are console lines. *)
Definition isConsole (e : Event) : bool :=
  match e with
  | Acquired _ | Slept _ | Posted _ => false
  | _ => true
  end.

(** The runs of [translateWithRetry] from attempt number [attempt] on,
    when the next request is the [n]-th the service receives: what the
    service answers decides how each attempt ends. *)
Inductive retryRun (env : Env) (payload : Payload) (index maxRetries : Z)
          (text30 : jsstring)
  : Z -> nat -> list Event -> RetryOutcome -> Prop :=
| rr_exhausted attempt n :
    (maxRetries < attempt)%Z ->
    retryRun env payload index maxRetries text30 attempt n []
             (Returned JsUndefined)
| rr_success attempt n t value :
    (attempt <= maxRetries)%Z ->
    attemptResult (result (service env n payload)) = inl value ->
    retryRun env payload index maxRetries text30 attempt n
             (Acquired t :: stagger index ++ [Posted payload])
             (Returned value)
| rr_last_failure n t cause :
    attemptResult (result (service env n payload)) = inr cause ->
    retryRun env payload index maxRetries text30 maxRetries n
             (Acquired t :: stagger index
                ++ [Posted payload;
                    WarnAttempt maxRetries maxRetries text30 cause])
             (Failed (js "All retries failed: " ++ cause))
| rr_retry attempt n t cause r evs outcome :
    (attempt < maxRetries)%Z ->
    attemptResult (result (service env n payload)) = inr cause ->
    retryRun env payload index maxRetries text30 (attempt + 1)%Z (S n)
             evs outcome ->
    retryRun env payload index maxRetries text30 attempt n
             (Acquired t :: stagger index
                ++ [Posted payload;
                    WarnAttempt attempt maxRetries text30 cause;
                    Slept (2 ^ attempt * 1000 + jitter env r)] ++ evs)
             outcome.

(** What a turn of [processBatchSequential] adds to the trace once
    [translateWithRetry] has ended as [out], and the document it leaves. *)
Definition itemTail (item : TextNode) (out : RetryOutcome) : list Event :=
  let text30 := substring0 30 (trimmedText item) in
  match out with
  | Failed message => [WarnFailed (node item) text30 message]
  | Returned (JsStr s) =>
      if truthy s && (0 <? List.length (trim s))%nat
      then [LogTranslated (node item) text30]
      else []
  | Returned (JsOther true) =>
      [WarnFailed (node item) text30 (js "translated.trim is not a function")]
  | Returned _ => []
  end.

Definition itemDocument (item : TextNode) (out : RetryOutcome) (doc : Node)
  : Node :=
  match out with
  | Returned (JsStr s) =>
      if truthy s && (0 <? List.length (trim s))%nat
      then setData (node item)
             (replace (originalText item) (trimmedText item) s) doc
      else doc
  | _ => doc
  end.

(** The text a turn of [processBatchSequential] leaves in the node of
    [item] once [translateWithRetry] has ended as [out]. *)
Definition itemText (item : TextNode) (out : RetryOutcome) : jsstring :=
  match out with
  | Returned (JsStr s) =>
      if truthy s && (0 <? List.length (trim s))%nat
      then replace (originalText item) (trimmedText item) s
      else originalText item
  | _ => originalText item
  end.

(** The document after the turns for [items], the calls of
    [translateWithRetry] having ended as [outs]. *)
Fixpoint writeAll (items : list TextNode) (outs : list RetryOutcome)
         (doc : Node) : Node :=
  match items, outs with
  | item :: items', out :: outs' =>
      writeAll items' outs' (itemDocument item out doc)
  | _, _ => doc
  end.

(** The runs of the loop of [processSequentialTranslation] over the items
    left, the first of which has index [i], when the next request is the
    [n]-th the service receives; [outs] is how the call of
    [translateWithRetry] ends for each item. *)
Inductive loopRun (env : Env) (total : nat)
  : list TextNode -> list RetryOutcome -> nat -> nat -> list Event -> Prop :=
| lr_done i n : loopRun env total [] [] i n []
| lr_turn item rest out outs i n t evs evs' :
    retryRun env (payloadFor (trimmedText item) (tagName item)) 0
             defaultMaxRetries (substring0 30 (trimmedText item))
             1 n evs out ->
    loopRun env total rest outs (i + 1) (n + countEvents isPosted evs) evs' ->
    loopRun env total (item :: rest) (out :: outs) i n
            (LogProcessingItem (i + 1) total [node item]
               :: Acquired t :: evs ++ itemTail item out
               ++ (if (i + 1 <? total)%nat
                   then [Slept DELAY_BETWEEN_REQUESTS] else [])
               ++ evs').

(** The progress lines of a trace: the item number and the total each
    prints. *)
Definition progressLines (evs : list Event) : list (nat * nat) :=
  flat_map (fun e => match e with
                     | LogProcessingItem item total _ => [(item, total)]
                     | _ => []
                     end) evs.

Definition isBatchFailure (e : Event) : bool :=
  match e with ErrorBatchFailed _ => true | _ => false end.

(** The structure of a tree: the tree with the data of its text nodes
    left out. *)
Fixpoint shape (n : Node) : Node :=
  match n with
  | Text _ => Text []
  | Comment data => Comment data
  | Directive name data => Directive name data
  | Element tagName attribs children =>
      Element tagName attribs (map shape children)
  | Root children => Root (map shape children)
  end.


(** What the [try] block of [translateWithRetry] makes of the answer of the
    service to the request numbered [n + j], sent with [payload]: [n] is the
    number of requests the service had received when the call began, so
    [j = 0] is the first attempt of the call. *)
Definition replyTo (env : Env) (payload : Payload) (n j : nat)
  : JsValue + jsstring :=
  attemptResult (result (service env (n + j) payload)).

(** The same for the attempts the scheduler makes for [item], when the
    trace of the pipeline up to the progress line of the item is [pre]:
    the requests sent before that line are those of the items before it. *)
Definition itemReply (env : Env) (w : World) (pre : list Event)
           (item : TextNode) (j : nat) : JsValue + jsstring :=
  replyTo env (payloadFor (trimmedText item) (tagName item))
          (postCount w + countEvents isPosted pre) j.

(** ** The order of extraction *)

(** Document order of the nodes of a tree, by their paths: a node comes
    before the nodes below it, and the nodes of an earlier subtree before
    those of a later one. *)
Inductive before : Path -> Path -> Prop :=
| before_below i p : before [] (i :: p)
| before_earlier i j p q : (i < j)%nat -> before (i :: p) (j :: q)
| before_within i p q : before p q -> before (i :: p) (i :: q).

(** The order in which [textNodes] receives two fragments: the one whose
    element comes first in document order and, within one element, the one
    that comes first among its children. *)
Definition extractedBefore (a b : TextNode) : Prop :=
  exists pa ja pb jb,
    node a = pa ++ [ja] /\ node b = pb ++ [jb]
    /\ (before pa pb \/ (pa = pb /\ (ja < jb)%nat)).

(** A paragraph with a bold word in its middle. *)
Definition boldInside : Node :=
  Root [Element (js "p") []
          [Text (js "Read "); Element (js "b") [] [Text (js "this")];
           Text (js " first")]].

(** A code unit that is neither a digit nor one of the separators. *)
Definition isOtherUnit (c : N) : bool :=
  negb (isDigit c) && negb ((c =? dot) || (c =? comma))%N.

(** The window of a limiter at time [now], between two calls: nobody
    waits, no timestamp is in the future and there are no more timestamps
    than [maxRequests]. *)
Definition atRest (now : Z) (rl : RateLimiter) : Prop :=
  queue rl = []
  /\ Forall (fun time => time <= now)%Z (requests rl)
  /\ (Z.of_nat (List.length (requests rl)) <= maxRequests rl)%Z.

(** The time of the first turn the loop of [processQueue] takes for a
    call made at [now]. *)
Definition firstTurn (now : Z) (rl : RateLimiter) : Z :=
  if processing rl then Z.max now (wakeAt rl) else now.

(** ** The upload handler

    [app.post('/upload', upload.single("file"), ...)] of the first
    revision, the caller of [translateHtmlStructureOptimized].  The file
    system holds the files multer wrote; [path.extname], mammoth and the
    [lessons] table are collaborators. *)

Module Upload.

(** [req.file], as multer fills it. *)
Record UploadedFile : Type := mkUploadedFile {
  path : jsstring;
  originalname : option jsstring
}.

(** The request: the file, if one was sent, and the text fields of the
    form. *)
Record Request : Type := mkRequest {
  file : option UploadedFile;
  title : option jsstring;
  subject : option jsstring;
  week : option jsstring;
  className : option jsstring
}.

(** The row handed to [supabase.from("lessons").insert]. *)
Record Lesson : Type := mkLesson {
  lessonTitle : option jsstring;
  content : jsstring;
  content_pa : jsstring;
  lessonWeek : option jsstring;
  lessonSubject : option jsstring;
  lessonClass : option jsstring
}.

(** What the insert answers: [error], or the rows of [data]. *)
Inductive InsertResult : Type :=
| InsertError (message : jsstring)
| Inserted (data : list jsstring).

(** The responses of the handler: [res.status(400).json({ error })],
    [res.status(500).json({ error: "Processing failed", details })] and
    [res.json({ success: true, data: data[0], message })]. *)
Inductive Response : Type :=
| BadRequest (error : jsstring)
| ProcessingFailed (details : jsstring)
| Processed (data : option jsstring).

(** The lines the handler itself writes on the console. *)
Inductive Line : Type :=
| LogHtmlLength (length : nat)
| TimeStart
| TimeEnd
| ErrorDatabase (message : jsstring)
| ErrorUpload (message : jsstring).

Record Collaborators : Type := mkCollaborators {
  extname : jsstring -> jsstring;
  convertToHtml : list N -> jsstring + jsstring;
  insertLesson : Lesson -> InsertResult
}.

(** The state of the server: the world of the pipeline, the files on
    disk with their bytes, the rows handed to the [lessons] table and the
    console of the handler. *)
Record Server : Type := mkServer {
  world : World;
  files : list (jsstring * list N);
  inserted : list Lesson;
  console : list Line
}.

Definition setWorld (w : World) (s : Server) : Server :=
  mkServer w (files s) (inserted s) (console s).

Definition setFiles (fs : list (jsstring * list N)) (s : Server) : Server :=
  mkServer (world s) fs (inserted s) (console s).

Definition logLine (l : Line) (s : Server) : Server :=
  mkServer (world s) (files s) (inserted s) (console s ++ [l]).

Definition recordInsert (l : Lesson) (s : Server) : Server :=
  mkServer (world s) (files s) (inserted s ++ [l]) (console s).

(** The bytes of the file at [p], if there is one. *)
Fixpoint readFile (p : jsstring) (fs : list (jsstring * list N))
  : option (list N) :=
  match fs with
  | [] => None
  | (q, bytes) :: fs' => if jsstring_eqb p q then Some bytes else readFile p fs'
  end.

(** [fs.existsSync(p)] *)
Definition existsSync (p : jsstring) (fs : list (jsstring * list N)) : bool :=
  match readFile p fs with Some _ => true | None => false end.

Definition removeFile (p : jsstring) (fs : list (jsstring * list N))
  : list (jsstring * list N) :=
  filter (fun entry => negb (jsstring_eqb p (fst entry))) fs.

(** [fs.unlinkSync(p)]: it throws when there is no such file. *)
Definition unlinkSync (p : jsstring) (fs : list (jsstring * list N))
  : option (list (jsstring * list N)) :=
  if existsSync p fs then Some (removeFile p fs) else None.

(** The message of the error Node throws for a missing file. *)
Definition enoent (syscall p : jsstring) : jsstring :=
  js "ENOENT: no such file or directory, " ++ syscall ++ js " '" ++ p ++ js "'".

Section Handler.

Variable env : Env.
Variable collaborators : Collaborators.

(** The [catch (err)] block: the file is removed if it is still there,
    and the answer is a 500 with the message of the error. *)
Definition failed (filePath message : jsstring) (s : Server)
  : Response * Server :=
  let s1 := logLine (ErrorUpload message) s in
  let s2 := if truthy filePath && existsSync filePath (files s1)
            then setFiles (removeFile filePath (files s1)) s1
            else s1 in
  (ProcessingFailed message, s2).

(** The handler: its response and the server afterwards; [None] when it
    never answers. *)
Definition upload (req : Request) (s : Server) : option (Response * Server) :=
  match file req with
  | None => Some (BadRequest (js "no file uploaded"), s)
  | Some f =>
      let filePath := path f in
      let name := match originalname f with Some n => n | None => [] end in
      let ext := toLowerCase (extname collaborators name) in
      if negb (jsstring_eqb ext (js ".docx")) then
        match unlinkSync filePath (files s) with
        | Some fs' =>
            Some (BadRequest (js "please upload a .docx file"), setFiles fs' s)
        | None => Some (failed filePath (enoent (js "unlink") filePath) s)
        end
      else
        match readFile filePath (files s) with
        | None => Some (failed filePath (enoent (js "stat") filePath) s)
        | Some buffer =>
            if (List.length buffer =? 0)%nat then
              match unlinkSync filePath (files s) with
              | Some fs' =>
                  Some (BadRequest (js "uploaded file is empty"),
                        setFiles fs' s)
              | None =>
                  Some (failed filePath (enoent (js "unlink") filePath) s)
              end
            else
              match convertToHtml collaborators buffer with
              | inr message => Some (failed filePath message s)
              | inl htmlEnglish =>
                  let s1 := logLine TimeStart
                              (logLine (LogHtmlLength (List.length htmlEnglish))
                                       s) in
                  match translateHtmlStructureOptimized env htmlEnglish
                          (world s1) with
                  | Pending => None
                  | Rejected message w' =>
                      Some (failed filePath message (setWorld w' s1))
                  | Fulfilled htmlPunjabi w' =>
                      let s2 := logLine TimeEnd (setWorld w' s1) in
                      let lesson :=
                        mkLesson (title req) htmlEnglish htmlPunjabi
                                 (week req) (subject req) (className req) in
                      let s3 := recordInsert lesson s2 in
                      match insertLesson collaborators lesson with
                      | InsertError message =>
                          Some (BadRequest message,
                                logLine (ErrorDatabase message) s3)
                      | Inserted data =>
                          let s4 :=
                            if truthy filePath
                               && existsSync filePath (files s3)
                            then setFiles (removeFile filePath (files s3)) s3
                            else s3 in
                          Some (Processed (nth_error data 0), s4)
                      end
                  end
              end
        end
  end.

End Handler.

End Upload.

Section UploadSamples.

Import Upload.

(** A server with one uploaded file, and the collaborators of the
    examples: the extension is what follows the last dot, the conversion
    gives one paragraph and the table takes every row. *)
Definition sampleServer : Server :=
  mkServer (startWorld 0 freshLimiter)
           [(js "uploads/1", [80; 75]%N)] [] [].

Definition sampleCollaborators : Collaborators :=
  mkCollaborators
    (fun name => if jsstring_eqb name (js "Lesson.DOCX") then js ".DOCX"
                 else [])
    (fun _ => inl (js "<p>Hello</p>"))
    (fun _ => Inserted [js "row"]).

Definition sampleRequest (name : string) : Request :=
  mkRequest (Some (mkUploadedFile (js "uploads/1") (Some (js name))))
            None None None None.

End UploadSamples.

(** ** The scoring of a quiz

    [app.post("/quizzes/submit", ...)]: the handler looks the quiz up,
    compares the answers it was sent with the answers of the quiz and stores
    the outcome.  The tables [quizzes] and [progress] are collaborators. *)

Module Quiz.

(** The values the handler compares: what JSON holds, [undefined], and
    the built-in objects a plain object inherits.  A number is the bit
    pattern of its double; objects and arrays are known by their
    identity. *)
Inductive Value : Type :=
| VUndefined
| VNull
| VBool (b : bool)
| VNumber (bits : N)
| VString (s : jsstring)
| VObject (identity : nat)
| VBuiltin (name : jsstring).

Definition isNaN (bits : N) : bool :=
  (((bits / 2 ^ 52) mod 2 ^ 11 =? 2047) && negb (bits mod 2 ^ 52 =? 0))%N.

Definition isZero (bits : N) : bool := ((bits =? 0) || (bits =? 2 ^ 63))%N.

(** [a === b] *)
Definition strictEquals (a b : Value) : bool :=
  match a, b with
  | VUndefined, VUndefined => true
  | VNull, VNull => true
  | VBool x, VBool y => Bool.eqb x y
  | VNumber x, VNumber y =>
      negb (isNaN x || isNaN y) && ((x =? y)%N || isZero x && isZero y)
  | VString x, VString y => jsstring_eqb x y
  | VObject x, VObject y => (x =? y)%nat
  | VBuiltin x, VBuiltin y => jsstring_eqb x y
  | _, _ => false
  end.

(** A question of the quiz: the property key its [id] converts to, and
    its [correctAnswer] ([undefined] when it has none). *)
Record Question : Type := mkQuestion {
  id : jsstring;
  correctAnswer : Value
}.

(** The properties of [Object.prototype], which [correctAnswers = {}]
    inherits. *)
Definition objectPrototypeNames : list jsstring :=
  [js "constructor"; js "__defineGetter__"; js "__defineSetter__";
   js "hasOwnProperty"; js "__lookupGetter__"; js "__lookupSetter__";
   js "isPrototypeOf"; js "propertyIsEnumerable"; js "toString";
   js "valueOf"; js "toLocaleString"].

Definition protoKey : jsstring := js "__proto__".

Fixpoint ownProperty (own : list (jsstring * Value)) (key : jsstring)
  : option Value :=
  match own with
  | [] => None
  | (k, v) :: rest => if jsstring_eqb key k then Some v else ownProperty rest key
  end.

(** [obj[key]] on the plain object whose own properties are [own]. *)
Definition getProperty (own : list (jsstring * Value)) (key : jsstring)
  : Value :=
  match ownProperty own key with
  | Some v => v
  | None =>
      if includes objectPrototypeNames key then VBuiltin key
      else if jsstring_eqb key protoKey then VBuiltin (js "Object.prototype")
      else VUndefined
  end.

(** [obj[key] = v] for a key other than [__proto__], which a plain object
    does not store as a property and which is outside this model. *)
Fixpoint setProperty (key : jsstring) (v : Value)
         (own : list (jsstring * Value)) : list (jsstring * Value) :=
  match own with
  | [] => [(key, v)]
  | (k, x) :: rest =>
      if jsstring_eqb key k then (k, v) :: rest
      else (k, x) :: setProperty key v rest
  end.

(** [quizContent.forEach(q => { correctAnswers[q.id] = q.correctAnswer })] *)
Definition correctAnswersOf (quizContent : list Question)
  : list (jsstring * Value) :=
  fold_left (fun obj q => setProperty (id q) (correctAnswer q) obj)
            quizContent [].

(** An element of [results]. *)
Record Result : Type := mkResult {
  questionId : jsstring;
  userAnswer : Value;
  expectedAnswer : Value;
  isCorrect : bool
}.

(** The loop [for (const questionId in answers)]; [answers] is the list
    of the properties the loop visits, in its order, with their values. *)
Definition grade (answers : list (jsstring * Value))
           (correctAnswers : list (jsstring * Value)) : nat * list Result :=
  fold_left
    (fun acc entry =>
       let questionId := fst entry in
       let userAnswer := snd entry in
       let correctAnswer := getProperty correctAnswers questionId in
       let isCorrect := strictEquals userAnswer correctAnswer in
       ((if isCorrect then S (fst acc) else fst acc),
        snd acc ++ [mkResult questionId userAnswer correctAnswer isCorrect]))
    answers (O, []).

(** A value that came out of JSON. *)
Definition fromJson (v : Value) : bool :=
  match v with
  | VUndefined | VBuiltin _ => false
  | _ => true
  end.

(** The id sent as [quiz]: a number or a string. *)
Inductive QuizId : Type :=
| QuizNumber (bits : N)
| QuizString (s : jsstring).

(** [req.body] *)
Record Submission : Type := mkSubmission {
  quiz : QuizId;
  student_id : Value;
  answers : list (jsstring * Value)
}.

(** What the [quizzes] table answers: an error, or a row whose [data] is
    an array of questions or something else. *)
Inductive QuizData : Type :=
| NotAnArray
| Questions (quizContent : list Question).

Inductive FetchResult : Type :=
| FetchError
| Fetched (data : QuizData).

(** The row handed to the [progress] table. *)
Record ProgressRow : Type := mkProgressRow {
  rowStudent : Value;
  rowQuiz : QuizId;
  rowScore : nat;
  rowAnswers : list Result
}.

Record Tables : Type := mkTables {
  fetchQuiz : QuizId -> FetchResult;
  insertFails : ProgressRow -> bool
}.

(** The responses: [res.status(404).json({ error: "Quiz not found" })] and
    [res.json({ score, total: quiz.length, results })], in which [total] is
    left out when [quiz.length] is [undefined]. *)
Inductive Response : Type :=
| QuizNotFound
| Scored (score : nat) (total : option nat) (results : list Result).

(** The rows handed to the [progress] table and the number of errors the
    handler printed. *)
Record Store : Type := mkStore {
  progress : list ProgressRow;
  errorsPrinted : nat
}.

(** [quiz.length] *)
Definition lengthOf (q : QuizId) : option nat :=
  match q with
  | QuizNumber _ => None
  | QuizString s => Some (List.length s)
  end.

(** The handler: its response and the store afterwards; [None] when it
    throws, as [forEach] does on what is not an array, and answers
    nothing. *)
Definition submit (tables : Tables) (req : Submission) (st : Store)
  : option (Response * Store) :=
  match fetchQuiz tables (quiz req) with
  | FetchError => Some (QuizNotFound, st)
  | Fetched NotAnArray => None
  | Fetched (Questions quizContent) =>
      let correctAnswers := correctAnswersOf quizContent in
      let graded := grade (answers req) correctAnswers in
      let score := fst graded in
      let results := snd graded in
      let row := mkProgressRow (student_id req) (quiz req) score results in
      let st1 := mkStore (progress st ++ [row])
                         (if insertFails tables row
                          then S (errorsPrinted st) else errorsPrinted st) in
      Some (Scored score (lengthOf (quiz req)) results, st1)
  end.

End Quiz.

Section QuizSamples.

Import Quiz.

(** A quiz of two questions, the second of which comes twice, and a
    submission that answers the second and a question the quiz has not. *)
Definition sampleQuiz : list Question :=
  [mkQuestion (js "q1") (VString (js "a"));
   mkQuestion (js "q2") (VString (js "b"));
   mkQuestion (js "q2") (VString (js "c"))].

Definition sampleTables : Tables :=
  mkTables (fun _ => Fetched (Questions sampleQuiz)) (fun _ => false).

Definition sampleSubmission : Submission :=
  mkSubmission (QuizString (js "quiz-7")) (VNumber 0)
               [(js "q2", VString (js "c")); (js "q9", VString (js "a"))].

End QuizSamples.

(** * Properties *)

Unset Implicit Arguments.

(** ** Strings *)

Section StringFacts.

Lemma jsstring_eqb_eq (a b : jsstring) : jsstring_eqb a b = true <-> a = b.
Proof.
  unfold jsstring_eqb. destruct (list_eq_dec N.eq_dec a b); split; congruence.
Qed.

Lemma jsstring_eqb_refl (a : jsstring) : jsstring_eqb a a = true.
Proof. now apply jsstring_eqb_eq. Qed.

Lemma leading_trimStart (s : jsstring) : s = leadingSpace s ++ trimStart s.
Proof.
  induction s as [|c s IH]; simpl; [reflexivity|].
  destruct (isWhiteSpace c); simpl; [now rewrite <- IH | reflexivity].
Qed.

Lemma leadingSpace_white (s : jsstring) :
  Forall (fun c => isWhiteSpace c = true) (leadingSpace s).
Proof.
  induction s as [|c s IH]; simpl; [constructor|].
  destruct (isWhiteSpace c) eqn:E; constructor; assumption.
Qed.

Lemma trimStart_head (s : jsstring) c rest :
  trimStart s = c :: rest -> isWhiteSpace c = false.
Proof.
  induction s as [|d s IH]; simpl; [discriminate|].
  destruct (isWhiteSpace d) eqn:E; [exact IH|].
  intros H; inversion H; subst; assumption.
Qed.

Lemma trimStart_trim_trailing (s : jsstring) :
  trimStart s = trim s ++ trailingSpace s.
Proof.
  unfold trim, trimEnd, trailingSpace.
  rewrite <- rev_app_distr, <- leading_trimStart, rev_involutive.
  reflexivity.
Qed.

(** [trim] removes white space at both ends and nothing else. *)
Lemma trim_decompose (s : jsstring) :
  s = leadingSpace s ++ trim s ++ trailingSpace s.
Proof.
  rewrite <- trimStart_trim_trailing. apply leading_trimStart.
Qed.

Lemma trim_head (s : jsstring) c rest :
  trim s = c :: rest -> isWhiteSpace c = false.
Proof.
  intros H. pose proof (trimStart_trim_trailing s) as E.
  rewrite H in E. simpl in E. eapply trimStart_head; eassumption.
Qed.

Lemma startsWith_app (pat rest : jsstring) : startsWith pat (pat ++ rest) = true.
Proof.
  induction pat as [|p pat IH]; simpl; [reflexivity|].
  now rewrite N.eqb_refl, IH.
Qed.

Lemma skipn_length_app (A : Type) (l r : list A) : skipn (List.length l) (l ++ r) = r.
Proof. induction l; simpl; auto. Qed.

Lemma splitFirst_unfold (pat s before : jsstring) :
  splitFirst pat s before
  = if startsWith pat s then Some (before, skipn (List.length pat) s)
    else match s with
         | [] => None
         | c :: s' => splitFirst pat s' (before ++ [c])
         end.
Proof. destruct s; reflexivity. Qed.

Lemma splitFirst_after_space (lead pat rest acc : jsstring) c pat' :
  pat = c :: pat' ->
  isWhiteSpace c = false ->
  Forall (fun d => isWhiteSpace d = true) lead ->
  splitFirst pat (lead ++ pat ++ rest) acc = Some (acc ++ lead, rest).
Proof.
  intros Hpat Hc Hlead. revert acc.
  induction Hlead as [|d lead Hd Hlead IH]; intros acc.
  - simpl app. rewrite app_nil_r, splitFirst_unfold.
    now rewrite startsWith_app, skipn_length_app.
  - simpl app. rewrite splitFirst_unfold.
    assert (Hne : startsWith pat (d :: lead ++ pat ++ rest) = false).
    { subst pat. simpl. destruct (N.eqb_spec c d); [congruence | reflexivity]. }
    rewrite Hne, IH. now rewrite <- app_assoc.
Qed.

Lemma getSubstitution_plain (matched before after template : jsstring) :
  ~ In dollar template ->
  getSubstitution matched before after template = template.
Proof.
  induction template as [|c rest IH]; intros Hno; simpl; [reflexivity|].
  destruct (N.eqb_spec c dollar) as [->|Hc].
  - exfalso; apply Hno; now left.
  - f_equal. apply IH. intros Hin; apply Hno; now right.
Qed.

(** Replacing the trimmed text inside the text it was trimmed from: the
    replacement lands between the leading and the trailing white space. *)
Lemma replace_trimmed (s replacement : jsstring) :
  trim s <> [] ->
  replace s (trim s) replacement
  = leadingSpace s
      ++ getSubstitution (trim s) (leadingSpace s) (trailingSpace s) replacement
      ++ trailingSpace s.
Proof.
  intros Hne. unfold replace.
  destruct (trim s) as [|c pat'] eqn:Ht; [congruence|].
  pose proof (trim_decompose s) as Hs. rewrite Ht in Hs.
  rewrite Hs at 1.
  erewrite splitFirst_after_space;
    [reflexivity | reflexivity | eapply trim_head; eassumption
     | apply leadingSpace_white].
Qed.

Lemma replace_trimmed_plain (s replacement : jsstring) :
  trim s <> [] ->
  ~ In dollar replacement ->
  replace s (trim s) replacement
  = leadingSpace s ++ replacement ++ trailingSpace s.
Proof.
  intros Hne Hno. rewrite replace_trimmed by assumption.
  now rewrite getSubstitution_plain.
Qed.

End StringFacts.

(** ** [isOnlyNumbers] *)

Section NumberFacts.

Lemma digit_not_separator c :
  isDigit c = true -> negb ((c =? dot) || (c =? comma))%N = true.
Proof.
  unfold isDigit, dot, comma. intros H.
  apply andb_true_iff in H as [H1 H2].
  apply N.leb_le in H1. apply N.leb_le in H2.
  destruct (N.eqb_spec c 46); [lia|]. destruct (N.eqb_spec c 44); [lia|].
  reflexivity.
Qed.

Lemma separator_cases c :
  negb ((c =? dot) || (c =? comma))%N = false -> c = dot \/ c = comma.
Proof.
  destruct (N.eqb_spec c dot); [now left|].
  destruct (N.eqb_spec c comma); [now right|]. discriminate.
Qed.

Lemma isOnlyNumbers_true (s : jsstring) :
  isOnlyNumbers s = true <-> numericLooking s.
Proof.
  unfold isOnlyNumbers, numericLooking, stripSeparators.
  set (keep := fun c => negb ((c =? dot) || (c =? comma))%N).
  split.
  - intros H.
    assert (Hall : forallb isDigit (filter keep s) = true).
    { destruct (filter keep s); [discriminate | exact H]. }
    rewrite forallb_forall in Hall. split.
    + apply Forall_forall. intros c Hc.
      destruct (keep c) eqn:Ek.
      * left. apply Hall. apply filter_In. now split.
      * right. now apply separator_cases.
    + destruct (filter keep s) as [|c l] eqn:E; [discriminate|].
      assert (Hc : In c (filter keep s)) by (rewrite E; now left).
      apply Exists_exists. exists c. split.
      * now apply filter_In in Hc as [? _].
      * apply Hall. rewrite <- E. exact Hc.
  - intros [Hall Hex].
    apply Exists_exists in Hex as (c & Hc & Hd).
    assert (Hin : In c (filter keep s)).
    { apply filter_In. split; [assumption | now apply digit_not_separator]. }
    destruct (filter keep s) as [|d l] eqn:E; [contradiction|].
    rewrite <- E. apply forallb_forall. intros x Hx.
    apply filter_In in Hx as [Hxs Hk].
    rewrite Forall_forall in Hall.
    destruct (Hall x Hxs) as [Hdx | [-> | ->]];
      [assumption | discriminate | discriminate].
Qed.

Lemma qualifies_false (t : jsstring) :
  t = [] \/ (List.length t <= 1)%nat \/ numericLooking t -> qualifies t = false.
Proof.
  unfold qualifies. intros [-> | [Hlen | Hnum]].
  - reflexivity.
  - destruct (Nat.ltb_spec 1 (List.length t)); [lia | reflexivity].
  - apply isOnlyNumbers_true in Hnum. rewrite Hnum. apply andb_false_r.
Qed.

End NumberFacts.

(** ** The document tree *)

Section TreeFacts.

Lemma nth_error_alterNth_same (A : Type) (f : A -> A) (i : nat) (l : list A) :
  nth_error (alterNth f i l) i = option_map f (nth_error l i).
Proof.
  revert i; induction l as [|x l IH]; intros [|i]; simpl; auto.
Qed.

Lemma nth_error_alterNth_other (A : Type) (f : A -> A) (i j : nat) (l : list A) :
  i <> j -> nth_error (alterNth f i l) j = nth_error l j.
Proof.
  revert i j; induction l as [|x l IH]; intros [|i] [|j] H; simpl; auto;
    congruence.
Qed.

Lemma alterNth_fixed (A : Type) (f : A -> A) (i : nat) (l : list A) :
  (forall x, nth_error l i = Some x -> f x = x) -> alterNth f i l = l.
Proof.
  revert i; induction l as [|x l IH]; intros [|i] H; simpl; auto.
  - now rewrite (H x eq_refl).
  - f_equal. apply IH. exact H.
Qed.

Lemma childNodes_setData (i : nat) (p : Path) (v : jsstring) (n : Node) :
  childNodes (setData (i :: p) v n) = alterNth (setData p v) i (childNodes n).
Proof.
  destruct n; reflexivity.
Qed.

Lemma getNode_app (p q : Path) (n : Node) :
  getNode (p ++ q) n
  = match getNode p n with Some m => getNode q m | None => None end.
Proof.
  revert n; induction p as [|i p IH]; intros n; simpl; [reflexivity|].
  destruct (nth_error (childNodes n) i); [apply IH | reflexivity].
Qed.

(** Writing one text node leaves the data of every other node as it was. *)
Lemma getData_setData_other (p q : Path) (v : jsstring) (n : Node) :
  p <> q -> getData q (setData p v n) = getData q n.
Proof.
  unfold getData. revert q n; induction p as [|i p IH]; intros q n Hne.
  - destruct q as [|j q]; [congruence|].
    destruct n, j; reflexivity.
  - destruct q as [|j q].
    + destruct n; reflexivity.
    + cbn [getNode]. rewrite childNodes_setData.
      destruct (Nat.eq_dec i j) as [->|Hij].
      * rewrite nth_error_alterNth_same.
        destruct (nth_error (childNodes n) j); simpl; [|reflexivity].
        apply IH. congruence.
      * now rewrite nth_error_alterNth_other.
Qed.

Lemma getData_setData_same (p : Path) (v d : jsstring) (n : Node) :
  getData p n = Some d -> getData p (setData p v n) = Some v.
Proof.
  unfold getData. revert n; induction p as [|i p IH]; intros n H.
  - simpl in *. destruct n; try discriminate. reflexivity.
  - cbn [getNode] in *. rewrite childNodes_setData, nth_error_alterNth_same.
    destruct (nth_error (childNodes n) i); simpl in *; [|discriminate].
    now apply IH.
Qed.

(** Writing back the data a text node already has changes nothing. *)
Lemma setData_same_data (p : Path) (d : jsstring) (n : Node) :
  getData p n = Some d -> setData p d n = n.
Proof.
  unfold getData. revert n; induction p as [|i p IH]; intros n H.
  - simpl in *. destruct n; try discriminate. congruence.
  - cbn [getNode] in H.
    destruct n; simpl in *; try reflexivity; f_equal;
      apply alterNth_fixed; intros x Hx; rewrite Hx in H; now apply IH.
Qed.

End TreeFacts.

(** ** The extractor *)

Section ExtractorFacts.

Lemma Node_induction (P : Node -> Prop) :
  (forall d, P (Text d)) ->
  (forall d, P (Comment d)) ->
  (forall name d, P (Directive name d)) ->
  (forall tag attribs cs, Forall P cs -> P (Element tag attribs cs)) ->
  (forall cs, Forall P cs -> P (Root cs)) ->
  forall n, P n.
Proof.
  intros HT HC HD HE HR. fix IH 1. intros [d|d|name d|tag attribs cs|cs].
  - apply HT.
  - apply HC.
  - apply HD.
  - apply HE. induction cs as [|c cs IHcs]; constructor; [apply IH | exact IHcs].
  - apply HR. induction cs as [|c cs IHcs]; constructor; [apply IH | exact IHcs].
Qed.

Lemma selectAll_element p tag attribs cs :
  selectAll p (Element tag attribs cs)
  = mkElementRef p tag cs :: selectBelow p O cs.
Proof.
  simpl. f_equal. generalize O.
  induction cs as [|c cs IH]; intros j; simpl; [reflexivity|].
  now rewrite IH.
Qed.

Lemma selectAll_root p cs : selectAll p (Root cs) = selectBelow p O cs.
Proof.
  simpl. generalize O.
  induction cs as [|c cs IH]; intros j; simpl; [reflexivity|].
  now rewrite IH.
Qed.

Lemma selectBelow_sound p cs :
  Forall (fun c => forall p' el, In el (selectAll p' c) -> elementAt c p' el) cs ->
  forall j el, In el (selectBelow p j cs) ->
  exists k c, nth_error cs k = Some c /\ elementAt c (p ++ [j + k]) el.
Proof.
  induction 1 as [|c cs Hc Hcs IH]; intros j el Hin; simpl in Hin; [contradiction|].
  apply in_app_or in Hin as [Hin|Hin].
  - exists O, c. split; [reflexivity|]. rewrite Nat.add_0_r. now apply Hc.
  - destruct (IH _ _ Hin) as (k & c' & Hk & Hel).
    exists (S k), c'. split; [exact Hk|].
    now replace (j + S k) with (S j + k) by lia.
Qed.

Lemma elementAt_child n children p k c el :
  childNodes n = children ->
  nth_error children k = Some c ->
  elementAt c (p ++ [O + k]) el ->
  elementAt n p el.
Proof.
  intros Hch Hk (q & attribs & Hpath & Hnode). simpl in Hpath.
  exists (k :: q), attribs. split.
  - now rewrite Hpath, <- app_assoc.
  - cbn [getNode]. now rewrite Hch, Hk.
Qed.

Lemma selectAll_sound n :
  forall p el, In el (selectAll p n) -> elementAt n p el.
Proof.
  induction n as [d|d|name d|tag attribs cs IH|cs IH] using Node_induction;
    intros p el Hin; try contradiction.
  - rewrite selectAll_element in Hin. destruct Hin as [<-|Hin].
    + exists [], attribs. simpl. now rewrite app_nil_r.
    + destruct (selectBelow_sound p _ IH _ _ Hin) as (k & c & Hk & Hel).
      eapply elementAt_child; [reflexivity | exact Hk | exact Hel].
  - rewrite selectAll_root in Hin.
    destruct (selectBelow_sound p _ IH _ _ Hin) as (k & c & Hk & Hel).
    eapply elementAt_child; [reflexivity | exact Hk | exact Hel].
Qed.

Lemma selectBelow_sound_all p j cs el :
  In el (selectBelow p j cs) ->
  exists k c, nth_error cs k = Some c /\ elementAt c (p ++ [j + k]) el.
Proof.
  apply selectBelow_sound. apply Forall_forall. intros c _ p' el'.
  apply selectAll_sound.
Qed.

Lemma selectBelow_NoDup p cs :
  Forall (fun c => forall p', NoDup (map elPath (selectAll p' c))) cs ->
  forall j, NoDup (map elPath (selectBelow p j cs)).
Proof.
  induction 1 as [|c cs Hc Hcs IH]; intros j; simpl; [constructor|].
  rewrite map_app. apply NoDup_app; [apply Hc | apply IH |].
  intros x Hx Hx'.
  apply in_map_iff in Hx as (el & <- & Hel).
  apply in_map_iff in Hx' as (el' & Heq & Hel').
  apply selectAll_sound in Hel as (q & _ & Hq & _).
  apply selectBelow_sound_all in Hel' as (k & _ & _ & (q' & _ & Hq' & _)).
  rewrite Hq, Hq', <- !app_assoc in Heq.
  apply app_inv_head in Heq. simpl in Heq. injection Heq as Hjk _. lia.
Qed.

Lemma selectBelow_longer p j cs el :
  In el (selectBelow p j cs) -> elPath el <> p.
Proof.
  intros Hin Heq.
  apply selectBelow_sound_all in Hin as (k & _ & _ & (q & _ & Hq & _)).
  rewrite Heq, <- app_assoc in Hq.
  apply (f_equal (@List.length nat)) in Hq. rewrite !length_app in Hq.
  simpl in Hq. lia.
Qed.

Lemma selectAll_NoDup n : forall p, NoDup (map elPath (selectAll p n)).
Proof.
  induction n as [d|d|name d|tag attribs cs IH|cs IH] using Node_induction;
    intros p; [constructor | constructor | constructor | |].
  - rewrite selectAll_element. simpl. constructor.
    + intros Hin. apply in_map_iff in Hin as (el & Hp & Hel).
      now apply selectBelow_longer in Hel.
    + now apply selectBelow_NoDup.
  - rewrite selectAll_root. now apply selectBelow_NoDup.
Qed.

(** What [collectChildren] pushes for the children from index [j] on. *)
Lemma collectChildren_sound p tag cs :
  forall j tn, In tn (collectChildren p tag j cs) ->
  exists k, nth_error cs k = Some (Text (originalText tn))
            /\ node tn = p ++ [j + k]
            /\ trimmedText tn = trim (originalText tn)
            /\ qualifies (trimmedText tn) = true
            /\ priority tn = priorityOf tag
            /\ tagName tn = tag.
Proof.
  induction cs as [|c cs IH]; intros j tn Hin; simpl in Hin; [contradiction|].
  apply in_app_or in Hin as [Hin|Hin].
  - destruct c as [d| | | |]; try contradiction.
    destruct (qualifies (trim d)) eqn:Hq; [|contradiction].
    destruct Hin as [<-|[]]. exists O. simpl. rewrite Nat.add_0_r.
    repeat split; auto.
  - destruct (IH _ _ Hin) as (k & Hk & Hnode & Hrest).
    exists (S k). split; [exact Hk|]. split; [|exact Hrest].
    now replace (j + S k) with (S j + k) by lia.
Qed.

Lemma collectChildren_NoDup p tag cs :
  forall j, NoDup (map node (collectChildren p tag j cs)).
Proof.
  induction cs as [|c cs IH]; intros j; simpl; [constructor|].
  rewrite map_app. apply NoDup_app; [| apply IH |].
  - destruct c; try constructor.
    destruct (qualifies _); simpl; repeat constructor. intros [].
  - intros x Hx Hx'.
    assert (Hxj : x = p ++ [j]).
    { destruct c; try contradiction.
      destruct (qualifies _); [|contradiction]. now destruct Hx as [<-|[]]. }
    apply in_map_iff in Hx' as (tn & Htn & Hin).
    apply collectChildren_sound in Hin as (k & _ & Hnode & _).
    rewrite <- Htn, Hnode in Hxj. apply app_inv_head in Hxj.
    injection Hxj as Hjk. lia.
Qed.

Lemma textChildOf_functional doc p tag tag' d d' :
  textChildOf doc p tag d -> textChildOf doc p tag' d' -> tag = tag' /\ d = d'.
Proof.
  intros (q & j & a & cs & Hp & Hq & Hj) (q' & j' & a' & cs' & Hp' & Hq' & Hj').
  rewrite Hp in Hp'. apply app_inj_tail in Hp' as [<- <-].
  rewrite Hq in Hq'. injection Hq' as <- <- <-.
  rewrite Hj in Hj'. injection Hj' as <-. now split.
Qed.

Lemma textChildOf_getData doc p tag d :
  textChildOf doc p tag d -> getData p doc = Some d.
Proof.
  intros (q & j & a & cs & -> & Hq & Hj).
  unfold getData. rewrite getNode_app, Hq. cbn [getNode childNodes].
  now rewrite Hj.
Qed.

(** Every record on [textNodes] describes a text node of the document that
    sits directly in a translatable element and passes the test. *)
Lemma collectTextNodes_sound doc tn :
  In tn (collectTextNodes doc) ->
  textChildOf doc (node tn) (tagName tn) (originalText tn)
  /\ trimmedText tn = trim (originalText tn)
  /\ qualifies (trimmedText tn) = true
  /\ priority tn = priorityOf (tagName tn)
  /\ includes nonTranslatable (tagName tn) = false.
Proof.
  unfold collectTextNodes. intros Hin.
  apply in_flat_map in Hin as (el & Hel & Htn).
  unfold collectElement in Htn.
  destruct (includes nonTranslatable (elTagName el)) eqn:Hinc; [contradiction|].
  apply collectChildren_sound in Htn as (k & Hk & Hnode & Htrim & Hq & Hprio & Htag).
  apply selectAll_sound in Hel as (q & attribs & Hpath & Hget).
  simpl in Hpath, Hnode. rewrite Htag.
  repeat split; auto.
  subst q. exists (elPath el), k, attribs, (elContents el).
  repeat split; assumption.
Qed.

Lemma flat_map_NoDup (A B K : Type) (key : A -> K) (g : A -> list B) (l : list A) :
  NoDup (map key l) ->
  (forall x, In x l -> NoDup (g x)) ->
  (forall x y b, In x l -> In y l -> In b (g x) -> In b (g y) -> key x = key y) ->
  NoDup (flat_map g l).
Proof.
  induction l as [|a l IH]; intros Hk Hg Hdisj; simpl; [constructor|].
  inversion Hk as [|? ? Hnotin Hk']; subst.
  apply NoDup_app.
  - apply Hg. now left.
  - apply IH; auto.
    + intros x Hx. apply Hg. now right.
    + intros x y b Hx Hy. apply Hdisj; now right.
  - intros b Hb Hb'. apply in_flat_map in Hb' as (y & Hy & Hby).
    apply Hnotin. rewrite (Hdisj a y b); auto; [|now left|now right].
    now apply in_map.
Qed.

(** No text node is pushed twice. *)
Lemma collectTextNodes_NoDup doc : NoDup (map node (collectTextNodes doc)).
Proof.
  unfold collectTextNodes.
  assert (Hmap : forall l, map node (flat_map collectElement l)
                 = flat_map (fun el => map node (collectElement el)) l).
  { induction l as [|a l IH]; simpl; [reflexivity|]. now rewrite map_app, IH. }
  rewrite Hmap. apply flat_map_NoDup with (key := elPath).
  - apply selectAll_NoDup.
  - intros el _. unfold collectElement.
    destruct (includes _ _); [constructor | apply collectChildren_NoDup].
  - intros x y b _ _ Hx Hy.
    apply in_map_iff in Hx as (tx & <- & Hx).
    apply in_map_iff in Hy as (ty & Heq & Hy).
    unfold collectElement in Hx, Hy.
    destruct (includes _ (elTagName x)); [contradiction|].
    destruct (includes _ (elTagName y)); [contradiction|].
    apply collectChildren_sound in Hx as (k & _ & Hnx & _).
    apply collectChildren_sound in Hy as (k' & _ & Hny & _).
    rewrite Hnx, Hny in Heq. now apply app_inj_tail in Heq as [-> _].
Qed.

Lemma selectBelow_complete p cs :
  forall j k c el,
    nth_error cs k = Some c ->
    In el (selectAll (p ++ [j + k]) c) ->
    In el (selectBelow p j cs).
Proof.
  induction cs as [|c0 cs IH]; intros j [|k] c el Hk Hin; try discriminate;
    simpl; apply in_or_app.
  - injection Hk as ->. left. now rewrite Nat.add_0_r in Hin.
  - right. apply (IH (S j) k c); [exact Hk|].
    now replace (S j + k) with (j + S k) by lia.
Qed.

(** [selectAll] misses no element of the tree. *)
Lemma selectAll_complete q :
  forall n p tag attribs cs,
    getNode q n = Some (Element tag attribs cs) ->
    In (mkElementRef (p ++ q) tag cs) (selectAll p n).
Proof.
  induction q as [|k q IH]; intros n p tag attribs cs Hget.
  - simpl in Hget. injection Hget as ->. rewrite selectAll_element, app_nil_r.
    now left.
  - cbn [getNode] in Hget.
    destruct (nth_error (childNodes n) k) as [c|] eqn:Hk; [|discriminate].
    specialize (IH c (p ++ [k]) tag attribs cs Hget).
    rewrite <- app_assoc in IH. simpl in IH.
    destruct n as [| | |t a children|children]; simpl in Hk;
      try (destruct k; discriminate).
    + rewrite selectAll_element. right.
      apply (selectBelow_complete p children O k c); assumption.
    + rewrite selectAll_root.
      apply (selectBelow_complete p children O k c); assumption.
Qed.

Lemma collectChildren_complete p tag cs :
  forall j k d,
    nth_error cs k = Some (Text d) ->
    qualifies (trim d) = true ->
    In (mkTextNode (p ++ [j + k]) d (trim d) (priorityOf tag) tag)
       (collectChildren p tag j cs).
Proof.
  induction cs as [|c cs IH]; intros j [|k] d Hk Hq; try discriminate;
    simpl; apply in_or_app.
  - injection Hk as ->. left. rewrite Hq, Nat.add_0_r. now left.
  - right. replace (j + S k) with (S j + k) by lia. now apply IH.
Qed.

(** The extractor misses no text node that sits directly in a translatable
    element and passes the test. *)
Lemma collectTextNodes_complete doc p tag data :
  textChildOf doc p tag data ->
  includes nonTranslatable tag = false ->
  qualifies (trim data) = true ->
  In (mkTextNode p data (trim data) (priorityOf tag) tag)
     (collectTextNodes doc).
Proof.
  intros (q & j & attribs & cs & -> & Hq & Hj) Hinc Hqual.
  unfold collectTextNodes. apply in_flat_map.
  exists (mkElementRef q tag cs). split.
  - exact (selectAll_complete q doc [] tag attribs cs Hq).
  - unfold collectElement. cbn [elTagName elPath elContents]. rewrite Hinc.
    exact (collectChildren_complete q tag cs O j data Hj Hqual).
Qed.

Lemma includes_In l tag : includes l tag = true <-> In tag l.
Proof.
  unfold includes. rewrite existsb_exists. split.
  - intros (x & Hx & Heq). apply jsstring_eqb_eq in Heq. now subst.
  - intros Hin. exists tag. split; [assumption | apply jsstring_eqb_refl].
Qed.

(** The array [textNodes] is empty exactly when no text node of the
    document qualifies. *)
Lemma collectTextNodes_nil doc :
  collectTextNodes doc = []
  <-> forall p tag data,
        textChildOf doc p tag data ->
        In tag nonTranslatable \/ qualifies (trim data) = false.
Proof.
  split.
  - intros Hnil p tag data Hchild.
    destruct (includes nonTranslatable tag) eqn:Hinc;
      [left; now apply includes_In|].
    destruct (qualifies (trim data)) eqn:Hq; [|now right].
    pose proof (collectTextNodes_complete doc p tag data Hchild Hinc Hq) as Hin.
    rewrite Hnil in Hin. contradiction.
  - intros Hnone. destruct (collectTextNodes doc) as [|item items] eqn:Hc;
      [reflexivity|].
    assert (Hin : In item (collectTextNodes doc)) by (rewrite Hc; now left).
    apply collectTextNodes_sound in Hin as (Hchild & Htrim & Hq & _ & Hinc).
    destruct (Hnone _ _ _ Hchild) as [Htag | Hfalse].
    + apply includes_In in Htag. congruence.
    + rewrite <- Htrim in Hfalse. congruence.
Qed.

End ExtractorFacts.

(** ** The rate limiter with a queue *)

Section LimiterFacts.

Open Scope Z_scope.

Lemma cleanOld_length now tw l :
  (List.length (cleanOld now tw l) <= List.length l)%nat.
Proof. apply filter_length_le. Qed.

Lemma cleanOld_fresh now tw l :
  Forall (fun time => now - time < tw) (cleanOld now tw l).
Proof.
  apply Forall_forall. intros x Hx. apply filter_In in Hx as [_ Hx].
  now apply Z.ltb_lt in Hx.
Qed.

(** The two ways a turn of the loop can go when somebody waits. *)
Lemma processQueueTurn_cases now rl r rest :
  queue rl = r :: rest ->
  let cleaned := cleanOld now (timeWindow rl) (requests rl) in
  (Z.of_nat (List.length cleaned) < maxRequests rl
   /\ processQueueTurn now rl
      = (mkRateLimiter (maxRequests rl) (timeWindow rl) (cleaned ++ [now])
                       rest true (now + 100), Some r))
  \/ (maxRequests rl <= Z.of_nat (List.length cleaned)
      /\ processQueueTurn now rl
         = (mkRateLimiter (maxRequests rl) (timeWindow rl) cleaned (r :: rest)
              true
              (now + timerDelay
                       (option_map (fun t => t + 50)
                          (waitTimeOf now (timeWindow rl) cleaned))),
            None)).
Proof.
  intros Hq cleaned. unfold processQueueTurn. rewrite Hq. fold cleaned.
  destruct (Z.ltb_spec (Z.of_nat (List.length cleaned)) (maxRequests rl)).
  - left. split; [assumption | reflexivity].
  - right. split; [assumption | reflexivity].
Qed.

(** After a turn that had to wait, the next turn purges a timestamp. *)
Lemma wait_arms now tw cleaned mx q :
  0 < mx -> mx <= Z.of_nat (List.length cleaned) ->
  Forall (fun time => now - time < tw) cleaned ->
  armed (mkRateLimiter mx tw cleaned q true
           (now + timerDelay (option_map (fun t => t + 50)
                                (waitTimeOf now tw cleaned)))).
Proof.
  intros Hmx Hlen Hfresh. unfold armed. simpl.
  destruct cleaned as [|oldest rest]; [simpl in Hlen; lia|].
  inversion Hfresh as [|? ? Hold _]; subst. simpl.
  destruct (Z.ltb_spec (tw - (now - oldest) + 50) 1); lia.
Qed.

Lemma armed_purges t rl :
  armed rl -> wakeAt rl <= t ->
  (S (List.length (cleanOld t (timeWindow rl) (requests rl)))
   <= List.length (requests rl))%nat.
Proof.
  unfold armed. destruct (requests rl) as [|oldest rest]; [contradiction|].
  intros Harmed Ht. simpl.
  destruct (Z.ltb_spec (t - oldest) (timeWindow rl)); [lia|].
  simpl. apply le_n_S. apply cleanOld_length.
Qed.

(** With a positive [maxRequests] the loop empties the queue: a turn
    either admits a caller or leaves a timer that purges a timestamp. *)
Lemma processQueue_terminates fuel :
  forall now rl,
    0 < maxRequests rl ->
    (2 * List.length (queue rl) + List.length (requests rl) + 1 <= fuel
     \/ (armed rl
         /\ 2 * List.length (queue rl) + List.length (requests rl) <= fuel))%nat ->
    exists res, processQueue fuel now rl = Some res.
Proof.
  induction fuel as [|fuel IH]; intros now rl Hmx Hfuel.
  - destruct (queue rl) eqn:Hq; simpl; rewrite Hq; [eauto|].
    simpl in Hfuel. lia.
  - simpl. destruct (queue rl) as [|r rest] eqn:Hq; [eauto|].
    unfold timerFires. set (t := Z.max now (wakeAt rl)).
    assert (Hpurge : armed rl ->
              (S (List.length (cleanOld t (timeWindow rl) (requests rl)))
               <= List.length (requests rl))%nat).
    { intros Ha. apply armed_purges; [assumption | unfold t; lia]. }
    pose proof (cleanOld_length t (timeWindow rl) (requests rl)) as Hle.
    simpl in Hfuel.
    destruct (processQueueTurn_cases t rl r rest Hq) as [[Hlt ->] | [Hge ->]].
    + destruct (IH t (mkRateLimiter (maxRequests rl) (timeWindow rl)
                        (cleanOld t (timeWindow rl) (requests rl) ++ [t])
                        rest true (t + 100))) as [[[adm tEnd] rlEnd] ->];
        [assumption | | eauto].
      left. simpl. rewrite length_app. simpl.
      destruct Hfuel as [Hf | [Ha Hf]]; [lia | specialize (Hpurge Ha); lia].
    + destruct (IH t (mkRateLimiter (maxRequests rl) (timeWindow rl)
                        (cleanOld t (timeWindow rl) (requests rl))
                        (r :: rest) true
                        (t + timerDelay
                               (option_map (fun x => x + 50)
                                  (waitTimeOf t (timeWindow rl)
                                     (cleanOld t (timeWindow rl) (requests rl)))))))
        as [[[adm tEnd] rlEnd] ->]; [assumption | | eauto].
      right. split.
      * apply wait_arms; [assumption | assumption | apply cleanOld_fresh].
      * simpl.
        destruct Hfuel as [Hf | [Ha Hf]]; [lia | specialize (Hpurge Ha); lia].
Qed.

Lemma processQueueTurn_admits now rl r :
  queue rl = [r] ->
  Z.of_nat (List.length (cleanOld now (timeWindow rl) (requests rl)))
  < maxRequests rl ->
  admittedAt (maxRequests rl) (timeWindow rl) now
    (mkRateLimiter (maxRequests rl) (timeWindow rl)
       (cleanOld now (timeWindow rl) (requests rl) ++ [now]) [] true (now + 100)).
Proof.
  intros Hq Hlt. unfold admittedAt. simpl. repeat split; try reflexivity.
  eexists. repeat split; [assumption | apply cleanOld_fresh].
Qed.

(** When the loop has emptied a queue that was not empty, its last turn was
    an admission. *)
Lemma processQueue_result fuel :
  forall now rl admitted t rl',
    queue rl <> [] ->
    processQueue fuel now rl = Some (admitted, t, rl') ->
    admittedAt (maxRequests rl) (timeWindow rl) t rl' /\ now <= t.
Proof.
  induction fuel as [|fuel IH]; intros now rl admitted t rl' Hne Hrun;
    simpl in Hrun; destruct (queue rl) as [|r rest] eqn:Hq;
    try congruence.
  unfold timerFires in Hrun. set (t1 := Z.max now (wakeAt rl)) in *.
  assert (Ht1 : now <= t1) by (unfold t1; lia).
  destruct (processQueueTurn_cases t1 rl r rest Hq) as [[Hlt Hstep] | [Hge Hstep]];
    rewrite Hstep in Hrun.
  - destruct rest as [|r' rest'].
    + destruct fuel; simpl in Hrun; injection Hrun as _ <- <-;
        (split; [now apply processQueueTurn_admits with (r := r) | assumption]).
    + match type of Hrun with
      | match processQueue fuel t1 ?rl1 with _ => _ end = _ =>
          destruct (processQueue fuel t1 rl1) as [[[adm tEnd] rlEnd]|] eqn:Hrec;
          [|discriminate];
          apply IH in Hrec as [Hadm Hle]; [|simpl; discriminate]
      end.
      injection Hrun as _ <- <-. simpl in Hadm. split; [assumption | lia].
  - match type of Hrun with
    | match processQueue fuel t1 ?rl1 with _ => _ end = _ =>
        destruct (processQueue fuel t1 rl1) as [[[adm tEnd] rlEnd]|] eqn:Hrec;
        [|discriminate];
        apply IH in Hrec as [Hadm Hle]; [|simpl; discriminate]
    end.
    injection Hrun as _ <- <-. simpl in Hadm. split; [assumption | lia].
Qed.

Lemma acquire_result now resolve rl t rl' :
  acquire now resolve rl = Some (t, rl') ->
  admittedAt (maxRequests rl) (timeWindow rl) t rl' /\ now <= t.
Proof.
  unfold acquire, wait. simpl.
  destruct (processing rl).
  - simpl. destruct (queue rl ++ [resolve]) eqn:Hq.
    + now destruct (queue rl).
    + match goal with
      | |- match processQueue ?f now ?rl1 with _ => _ end = _ -> _ =>
          destruct (processQueue f now rl1) as [[[adm tEnd] rlEnd]|] eqn:Hrec;
          [|discriminate]
      end.
      intros H; injection H as <- <-.
      apply processQueue_result in Hrec; [exact Hrec | simpl; discriminate].
  - set (rl1 := mkRateLimiter (maxRequests rl) (timeWindow rl) (requests rl)
                  (queue rl ++ [resolve]) false (wakeAt rl)).
    destruct (queue rl ++ [resolve]) as [|r rest] eqn:Hq;
      [now destruct (queue rl)|].
    destruct (processQueueTurn_cases now rl1 r rest) as
      [[Hlt Hstep] | [Hge Hstep]]; [reflexivity | |]; rewrite Hstep;
      cbv beta iota zeta; cbn [queue].
    + destruct rest as [|r' rest'].
      * intros H; injection H as <- <-. split; [|lia].
        apply (processQueueTurn_admits now rl1 r); [reflexivity | assumption].
      * match goal with
        | |- match processQueue ?f now ?rl2 with _ => _ end = _ -> _ =>
            destruct (processQueue f now rl2) as [[[adm tEnd] rlEnd]|] eqn:Hrec;
            [|discriminate]
        end.
        intros H; injection H as <- <-.
        apply processQueue_result in Hrec; [exact Hrec | simpl; discriminate].
    + match goal with
      | |- match processQueue ?f now ?rl2 with _ => _ end = _ -> _ =>
          destruct (processQueue f now rl2) as [[[adm tEnd] rlEnd]|] eqn:Hrec;
          [|discriminate]
      end.
      intros H; injection H as <- <-.
      apply processQueue_result in Hrec; [exact Hrec | simpl; discriminate].
Qed.

Lemma wait_config now resolve rl :
  maxRequests (fst (wait now resolve rl)) = maxRequests rl
  /\ timeWindow (fst (wait now resolve rl)) = timeWindow rl.
Proof.
  unfold wait, processQueueTurn. simpl.
  destruct (processing rl); simpl; [now split|].
  destruct (queue rl ++ [resolve]); simpl; [now split|].
  destruct (_ <? _); simpl; now split.
Qed.

(** With a positive [maxRequests] every call of [wait()] resolves. *)
Lemma acquire_terminates now resolve rl :
  0 < maxRequests rl -> exists t rl', acquire now resolve rl = Some (t, rl').
Proof.
  intros Hmx. unfold acquire.
  pose proof (wait_config now resolve rl) as [Hcfg _].
  destruct (wait now resolve rl) as [rl1 resolved]. simpl in Hcfg.
  destruct (queue rl1) eqn:Hq; [eauto|].
  destruct (processQueue_terminates (processQueueFuel rl1) now rl1) as [[[adm t] rl2] Hrun].
  - lia.
  - left. unfold processQueueFuel. lia.
  - rewrite Hrun. eauto.
Qed.

(** With a [maxRequests] that is not positive nobody is ever admitted: the
    loop turns for ever, whatever the number of turns allowed. *)
Lemma processQueue_starves fuel :
  forall now rl,
    maxRequests rl <= 0 -> queue rl <> [] -> processQueue fuel now rl = None.
Proof.
  induction fuel as [|fuel IH]; intros now rl Hmx Hne; simpl;
    destruct (queue rl) as [|r rest] eqn:Hq; try congruence.
  unfold timerFires.
  destruct (processQueueTurn_cases (Z.max now (wakeAt rl)) rl r rest Hq)
    as [[Hlt _] | [_ ->]]; [lia|].
  rewrite IH; [reflexivity | assumption | simpl; discriminate].
Qed.

Lemma acquire_starves now resolve rl :
  maxRequests rl <= 0 -> acquire now resolve rl = None.
Proof.
  intros Hmx. unfold acquire, wait. simpl.
  destruct (processing rl).
  - simpl. destruct (queue rl ++ [resolve]) eqn:Hq; [now destruct (queue rl)|].
    rewrite processQueue_starves; [reflexivity | assumption | simpl; discriminate].
  - destruct (queue rl ++ [resolve]) as [|r rest] eqn:Hq;
      [now destruct (queue rl)|].
    match goal with
    | |- context [processQueueTurn now ?rl1] =>
        destruct (processQueueTurn_cases now rl1 r rest)
          as [[Hlt _] | [_ ->]]; [reflexivity | simpl in Hlt; lia |]
    end.
    cbv beta iota zeta; cbn [queue].
    rewrite processQueue_starves; [reflexivity | assumption | simpl; discriminate].
Qed.

Lemma inWindow_le_length tw t l : (inWindow tw t l <= List.length l)%nat.
Proof. apply filter_length_le. Qed.

Lemma admittedAt_windowBounded mx tw t rl :
  admittedAt mx tw t rl -> windowBounded mx tw (requests rl).
Proof.
  intros (_ & _ & _ & _ & _ & kept & Hreq & Hlen & _) T.
  pose proof (inWindow_le_length tw T (requests rl)) as Hle.
  assert (Hl : List.length (requests rl) = S (List.length kept)).
  { rewrite Hreq, length_app. simpl. lia. }
  lia.
Qed.

Ltac ltb_step :=
  match goal with
  | |- context [(?a <? ?b)%Z] =>
      first [ replace (a <? b)%Z with true by (symmetry; apply Z.ltb_lt; lia)
            | replace (a <? b)%Z with false by (symmetry; apply Z.ltb_ge; lia) ]
  | |- context [(?a <=? ?b)%Z] =>
      first [ replace (a <=? b)%Z with true by (symmetry; apply Z.leb_le; lia)
            | replace (a <=? b)%Z with false by (symmetry; apply Z.leb_gt; lia) ]
  | |- context [Z.max ?a ?b] =>
      first [ replace (Z.max a b) with b by lia
            | replace (Z.max a b) with a by lia ]
  end.

Ltac struct_eq :=
  repeat match goal with
         | |- Some _ = Some _ => f_equal
         | |- (_, _) = (_, _) => f_equal
         | |- _ :: _ = _ :: _ => f_equal
         | |- mkRateLimiter _ _ _ _ _ _ = mkRateLimiter _ _ _ _ _ _ => f_equal
         | |- Batched.mkRateLimiter _ _ _ = Batched.mkRateLimiter _ _ _ =>
             f_equal
         end;
  try reflexivity; try lia.

Ltac run_limiter :=
  repeat (progress
            (unfold acquire, wait, processQueueTurn, timerFires, processQueueFuel,
               cleanOld, waitTimeOf, timerDelay, option_map;
             cbn [backToBack processQueue filter
                    maxRequests timeWindow requests queue processing wakeAt
                    List.length app fst snd Nat.add Nat.mul Z.of_nat
                    Pos.of_succ_nat Pos.succ]);
          repeat ltb_step).

(** Five calls back to back on a fresh limiter of 3 requests per 1500 ms,
    the first at [t0]: the fourth has to wait for the window to pass. *)
Lemma backToBack_five t0 :
  backToBack 5 t0 (mkRateLimiter 3 1500 [] [] false 0)
  = Some ([t0; t0 + 100; t0 + 200; t0 + 1550; t0 + 1650],
          mkRateLimiter 3 1500 [t0 + 200; t0 + 1550; t0 + 1650] [] true
                        (t0 + 1750)).
Proof.
  run_limiter. struct_eq.
Qed.

(** The same five calls all made at once, before any is awaited: they are
    admitted in the order they were made, at the same times. *)
Example burst_five :
  burst [1; 2; 3; 4; 5]%nat 0 (mkRateLimiter 3 1500 [] [] false 0)
  = Some [(1%nat, 0); (2%nat, 100); (3%nat, 200); (4%nat, 1550); (5%nat, 1650)].
Proof. reflexivity. Qed.

(** C3, on the limiter with a queue.  After every [wait()] that resolves,
    the window of the limiter holds at most [maxRequests] timestamps in any
    interval of length [timeWindow];
    what it kept was purged of the entries older than [timeWindow] before
    the admission was decided, and counted fewer than [maxRequests].  So on
    a fresh limiter of 3 requests per 1500 ms, the fourth of five calls made
    back to back resolves no earlier than 1500 ms after the first. *)
Theorem rate_window_invariant :
  (forall now resolve rl t rl',
      acquire now resolve rl = Some (t, rl') ->
      windowBounded (maxRequests rl) (timeWindow rl) (requests rl')
      /\ exists kept,
          requests rl' = kept ++ [t]
          /\ purged t (timeWindow rl) kept
          /\ Z.of_nat (List.length kept) < maxRequests rl)
  /\ (forall rl0 t0,
        newRateLimiter 3 1500 = Constructed rl0 ->
        exists t1 t2 t3 t4 t5 rlEnd,
          backToBack 5 t0 rl0 = Some ([t1; t2; t3; t4; t5], rlEnd)
          /\ t1 + 1500 <= t4).
Proof.
  split.
  - intros now resolve rl t rl' Hacq.
    apply acquire_result in Hacq as [Hadm _]. split.
    + eapply admittedAt_windowBounded; eassumption.
    + destruct Hadm as (_ & _ & _ & _ & _ & kept & Hreq & Hlen & Hfresh).
      exists kept. auto.
  - intros rl0 t0 Hnew. injection Hnew as <-.
    do 6 eexists. split; [apply backToBack_five | lia].
Qed.

Lemma rate_window_invariant_witness :
  acquire 200 3 (mkRateLimiter 3 1500 [0; 100] [] true 200)
  = Some (200, mkRateLimiter 3 1500 [0; 100; 200] [] true 300)
  /\ windowBounded 3 1500 [0; 100; 200].
Proof.
  split; [reflexivity|].
  exact (proj1 (proj1 rate_window_invariant 200 3%nat
                  (mkRateLimiter 3 1500 [0; 100] [] true 200) 200
                  (mkRateLimiter 3 1500 [0; 100; 200] [] true 300)
                  eq_refl)).
Defined.

(** The limiter of the batched revision makes its fourth caller wait as
    well, but what it pushes after the sleep is the time read before it. *)
Lemma batched_waitTimes_five t0 :
  Batched.waitTimes 5 t0 (Batched.mkRateLimiter 3 1500 [])
  = ([t0; t0; t0; t0 + 1600; t0 + 1600],
     Batched.mkRateLimiter 3 1500 [t0 + 1600]).
Proof.
  unfold Batched.waitTimes, Batched.wait, Batched.waitBegin, Batched.waitEnd.
  repeat (progress
            (unfold cleanOld, waitTimeOf, timerDelay, option_map;
             cbn [filter Batched.maxRequests Batched.timeWindow
                    Batched.requests List.length app Z.of_nat
                    Pos.of_succ_nat Pos.succ]);
          repeat ltb_step).
  struct_eq.
Qed.

(** C3 fails on the limiter of the batched revision, whose [wait()] sleeps
    once and then pushes the time it read before the sleep, without looking
    at the window again.  On a limiter of 3 requests per 1500 ms, after three
    calls at time 0, four calls that begin at 1400, 1450, 1499 and 1499 while
    the window is full all go on at 1600: four callers are admitted together,
    and the array then holds four timestamps within the 1500 ms before 1600.
    Four calls in a row at time 0 are enough to leave four equal timestamps. *)
Theorem batched_wait_overfills_window :
  exists rl3 rlA rlB rlC rlD,
    Batched.waitTimes 3 0 (Batched.mkRateLimiter 3 1500 []) = ([0; 0; 0], rl3)
    /\ Batched.waitBegin 1400 rl3 = (rlA, 1600)
    /\ Batched.waitBegin 1450 rlA = (rlB, 1600)
    /\ Batched.waitBegin 1499 rlB = (rlC, 1600)
    /\ Batched.waitBegin 1499 rlC = (rlD, 1600)
    /\ Batched.requests
         (Batched.waitEnd 1499
            (Batched.waitEnd 1499
               (Batched.waitEnd 1450 (Batched.waitEnd 1400 rlD))))
       = [0; 0; 0; 1400; 1450; 1499; 1499]
    /\ inWindow 1500 1600 [0; 0; 0; 1400; 1450; 1499; 1499] = 4%nat
    /\ ~ windowBounded 3 1500 [0; 0; 0; 1400; 1450; 1499; 1499]
    /\ Batched.requests
         (snd (Batched.waitTimes 4 0 (Batched.mkRateLimiter 3 1500 [])))
       = [0; 0; 0; 0]
    /\ ~ windowBounded 3 1500 [0; 0; 0; 0].
Proof.
  do 5 eexists.
  split; [vm_compute; reflexivity|]. split; [vm_compute; reflexivity|].
  split; [vm_compute; reflexivity|]. split; [vm_compute; reflexivity|].
  split; [vm_compute; reflexivity|]. split; [vm_compute; reflexivity|].
  split; [vm_compute; reflexivity|].
  split; [intros H; specialize (H 1600); vm_compute in H; now apply H|].
  split; [vm_compute; reflexivity|].
  intros H. specialize (H 0). vm_compute in H. now apply H.
Qed.

(** The limiter with a queue serves the same seven callers one at a time:
    the late four are admitted at 1550, 1650, 1750 and 3100. *)
Example queue_serves_staggered_callers :
  exists rl3 rlA rlB rlC rlD rlEnd,
    backToBack 3 0 freshLimiter = Some ([0; 100; 200], rl3)
    /\ wait 1400 4 (settle 1400 rl3) = (rlA, None)
    /\ wait 1450 5 rlA = (rlB, None)
    /\ wait 1499 6 rlB = (rlC, None)
    /\ wait 1499 7 rlC = (rlD, None)
    /\ processQueue (processQueueFuel rlD) 1499 rlD
       = Some ([(4%nat, 1550); (5%nat, 1650); (6%nat, 1750); (7%nat, 3100)],
               3100, rlEnd)
    /\ requests rlEnd = [1650; 1750; 3100].
Proof.
  do 6 eexists.
  split; [vm_compute; reflexivity|]. split; [vm_compute; reflexivity|].
  split; [vm_compute; reflexivity|]. split; [vm_compute; reflexivity|].
  split; [vm_compute; reflexivity|]. split; vm_compute; reflexivity.
Qed.

End LimiterFacts.

(** ** The retry dispatcher *)

Section RetryFacts.

Variable env : Env.

Open Scope Z_scope.

Lemma advances_refl w : advances w w [].
Proof. unfold advances. now rewrite app_nil_r. Qed.

Lemma advances_trans w w1 w2 e1 e2 :
  advances w w1 e1 -> advances w1 w2 e2 -> advances w w2 (e1 ++ e2).
Proof.
  intros (Ht & Hn & Hm & Hw) (Ht' & Hn' & Hm' & Hw').
  unfold advances. rewrite Ht', Ht, app_assoc. repeat split; congruence.
Qed.

Lemma advances_ready w w' evs : advances w w' evs -> ready w -> ready w'.
Proof. intros (_ & _ & Hm & _). unfold ready. now rewrite Hm. Qed.

Lemma quiet_refl w : quiet w w [].
Proof. split; [apply advances_refl | reflexivity]. Qed.

Lemma quiet_trans w w1 w2 e1 e2 :
  quiet w w1 e1 -> quiet w1 w2 e2 -> quiet w w2 (e1 ++ e2).
Proof.
  intros [Ha Hd] [Ha' Hd']. split; [eapply advances_trans; eassumption|].
  congruence.
Qed.

Lemma quiet_ready w w' evs : quiet w w' evs -> ready w -> ready w'.
Proof. intros [Ha _]. now apply advances_ready with (evs := evs). Qed.

Lemma settle_config t rl :
  maxRequests (settle t rl) = maxRequests rl
  /\ timeWindow (settle t rl) = timeWindow rl.
Proof.
  unfold settle. destruct (queue rl) eqn:Hq; [|now split].
  destruct (processing rl && (wakeAt rl <=? t)%Z); [|now split].
  unfold processQueueTurn. rewrite Hq. now split.
Qed.

Lemma record_quiet e w : quiet w (record e w) [e].
Proof. repeat split. Qed.

Lemma elapse_quiet d w : quiet w (elapse d w) [].
Proof.
  destruct (settle_config (now w + d) (translationLimiter w)) as [Hm Ht].
  unfold quiet, advances. simpl. rewrite app_nil_r. auto.
Qed.

Lemma sleep_spec ms w :
  exists w', sleep ms w = Fulfilled tt w' /\ quiet w w' [Slept ms].
Proof.
  eexists. split; [reflexivity|].
  change [Slept ms] with ([Slept ms] ++ []).
  eapply quiet_trans; [apply record_quiet | apply elapse_quiet].
Qed.

Lemma emit_spec e w :
  exists w', emit e w = Fulfilled tt w' /\ quiet w w' [e].
Proof. eexists. split; [reflexivity | apply record_quiet]. Qed.

(** The pipeline always gets past the limiter of a ready world. *)
Lemma limiterWait_spec w :
  ready w ->
  exists t w', limiterWait w = Fulfilled tt w' /\ quiet w w' [Acquired t].
Proof.
  intros Hready. unfold limiterWait.
  destruct (acquire_terminates (now w) O (translationLimiter w) Hready)
    as (t & rl' & Hacq).
  rewrite Hacq. exists t. eexists. split; [reflexivity|].
  apply acquire_result in Hacq as [(Hm & Ht & _) _].
  repeat split; simpl; auto.
Qed.

Lemma httpPost_spec payload w :
  exists w',
    quiet w w' [Posted payload]
    /\ httpPost env payload w
       = match result (service env (postCount w) payload) with
         | PostRejected message => Rejected message w'
         | PostResolved data => Fulfilled data w'
         end.
Proof.
  unfold httpPost. eexists. split; [|reflexivity].
  change [Posted payload] with ([Posted payload] ++ []).
  eapply quiet_trans; [apply record_quiet|].
  match goal with
  | |- quiet _ (elapse ?d ?w0) _ =>
      destruct (elapse_quiet d w0) as [(Ht & Hn & Hm & Hw) Hd]
  end.
  repeat split; simpl in *; auto.
Qed.

Lemma drawJitter_spec w :
  exists j w', drawJitter env w = Fulfilled j w' /\ quiet w w' [].
Proof.
  do 2 eexists. split; [reflexivity|].
  unfold quiet, advances. simpl. rewrite app_nil_r. auto.
Qed.

(** One attempt: the limiter, the stagger sleep, the request; it yields a
    truthy value or the error the [catch] block receives. *)
Lemma attemptOnce_spec text tag index w :
  ready w ->
  exists t payload w',
    quiet w w' (Acquired t :: stagger index ++ [Posted payload])
    /\ ((exists v, attemptOnce env text tag index w = Fulfilled v w'
                   /\ jsTruthy v = true)
        \/ (exists cause, attemptOnce env text tag index w = Rejected cause w')).
Proof.
  intros Hready. unfold attemptOnce, bind.
  destruct (limiterWait_spec w Hready) as (t & w1 & -> & Hq1).
  assert (Hstag : exists w2,
             (if (0 <? index)%Z then sleep (index * 100) else ret tt) w1
             = Fulfilled tt w2 /\ quiet w1 w2 (stagger index)).
  { unfold stagger. destruct (0 <? index)%Z.
    - apply sleep_spec.
    - eexists. split; [reflexivity | apply quiet_refl]. }
  destruct Hstag as (w2 & -> & Hq2).
  match goal with
  | |- context [httpPost env ?p w2] =>
      destruct (httpPost_spec p w2) as (w3 & Hq3 & ->); exists t, p, w3
  end.
  split.
  - change (Acquired t :: stagger index ++ [Posted _])
      with ([Acquired t] ++ stagger index ++ [Posted
              (mkPayload text (js "pa") (getContextHint tag) true)]).
    eapply quiet_trans; [eassumption|].
    eapply quiet_trans; eassumption.
  - destruct (result _) as [message | [v|]].
    + right. eauto.
    + destruct (jsTruthy v) eqn:Hv; [left | right]; eauto.
    + right. eauto.
Qed.

(** The loop of [translateWithRetry] settles, and its trace is one of the
    traces [retryTrace] describes. *)
Lemma retryLoop_spec text tag index maxRetries remaining :
  forall attempt w,
    ready w ->
    Z.of_nat remaining = Z.max 0 (maxRetries - attempt + 1) ->
    exists out w' evs,
      retryLoop env text tag index maxRetries remaining attempt w
      = settled out w'
      /\ quiet w w' evs
      /\ retryTrace index maxRetries (substring0 30 text) attempt evs out.
Proof.
  induction remaining as [|remaining IH]; intros attempt w Hready Hrem.
  - exists (Returned JsUndefined), w, [].
    split; [reflexivity|]. split; [apply quiet_refl | constructor; lia].
  - cbn [retryLoop].
    destruct (attemptOnce_spec text tag index w Hready)
      as (t & payload & w1 & Hq1 & [(v & -> & Hv) | (cause & ->)]).
    + exists (Returned v), w1. eexists.
      split; [reflexivity|].
      split; [exact Hq1 | constructor; [lia | assumption]].
    + unfold bind.
      destruct (emit_spec
                  (WarnAttempt attempt maxRetries (substring0 30 text) cause) w1)
        as (w2 & -> & Hq2).
      pose proof (quiet_trans _ _ _ _ _ Hq1 Hq2) as Hq12.
      cbn [app] in Hq12. rewrite <- ?app_assoc in Hq12. cbn [app] in Hq12.
      destruct (Z.eqb_spec attempt maxRetries) as [->|Hne].
      * exists (Failed (js "All retries failed: " ++ cause)), w2. eexists.
        split; [reflexivity|]. split; [exact Hq12 | constructor].
      * destruct (drawJitter_spec w2) as (j & w3 & -> & Hq3).
        destruct (sleep_spec (2 ^ attempt * 1000 + j) w3) as (w4 & -> & Hq4).
        pose proof (quiet_trans _ _ _ _ _ Hq12
                      (quiet_trans _ _ _ _ _ Hq3 Hq4)) as Hq14.
        destruct (IH (attempt + 1)%Z w4) as (out & w5 & evs & -> & Hq5 & Htr).
        { eapply quiet_ready; eassumption. }
        { lia. }
        exists out, w5. eexists.
        split; [reflexivity|].
        split; [apply (quiet_trans _ _ _ _ _ Hq14 Hq5)|].
        cbn [app]. rewrite <- ?app_assoc. cbn [app].
        apply rt_retry; [lia | exact Htr].
Qed.

Lemma translateWithRetry_spec text tag index maxRetries w :
  ready w ->
  exists out w' evs,
    translateWithRetry env text tag index maxRetries w = settled out w'
    /\ quiet w w' evs
    /\ retryTrace index maxRetries (substring0 30 text) 1 evs out.
Proof.
  intros Hready. apply retryLoop_spec; [assumption | lia].
Qed.

Lemma stagger_not_posted index :
  Forall (fun e => isPosted e = false) (stagger index).
Proof. unfold stagger. destruct (0 <? index)%Z; repeat constructor. Qed.

(** Where a request can sit in a list that starts with events that are not
    requests. *)
Lemma split_at_posted (l1 l2 pre post : list Event) p0 p :
  Forall (fun e => isPosted e = false) l1 ->
  l1 ++ Posted p0 :: l2 = pre ++ Posted p :: post ->
  (pre = l1 /\ p = p0 /\ post = l2)
  \/ exists pre2, pre = l1 ++ Posted p0 :: pre2 /\ l2 = pre2 ++ Posted p :: post.
Proof.
  intros Hl1. revert pre. induction Hl1 as [|e l1 He Hl1 IH]; intros pre Heq.
  - destruct pre as [|x pre]; simpl in Heq.
    + injection Heq as <- <-. now left.
    + injection Heq as <- ->. right. now exists pre.
  - destruct pre as [|x pre]; simpl in Heq.
    + injection Heq as -> _. discriminate.
    + injection Heq as <- Heq. destruct (IH _ Heq) as [(-> & -> & ->) | (pre2 & -> & ->)].
      * now left.
      * right. now exists pre2.
Qed.

(** Every request of [translateWithRetry] comes right after an admission
    by the limiter and the stagger sleep. *)
Lemma head_not_posted t index :
  Forall (fun e => isPosted e = false) (Acquired t :: stagger index).
Proof. constructor; [reflexivity | apply stagger_not_posted]. Qed.

Lemma retryTrace_before_post index maxRetries text30 attempt evs out :
  retryTrace index maxRetries text30 attempt evs out ->
  forall pre payload post,
    evs = pre ++ Posted payload :: post ->
    exists pre' t, pre = pre' ++ Acquired t :: stagger index.
Proof.
  induction 1 as [a Ha | a t p v Ha Hv | t p cause
                  | a t p cause backoff evs out Ha Htr IH];
    intros pre payload post Heq.
  - destruct pre; discriminate.
  - change (Acquired t :: stagger index ++ [Posted p])
      with ((Acquired t :: stagger index) ++ Posted p :: []) in Heq.
    apply split_at_posted in Heq; [|apply head_not_posted].
    destruct Heq as [(-> & _) | (pre2 & _ & Hnil)].
    + exists [], t. reflexivity.
    + destruct pre2; discriminate.
  - change (Acquired t :: stagger index
              ++ [Posted p; WarnAttempt maxRetries maxRetries text30 cause])
      with ((Acquired t :: stagger index)
              ++ Posted p :: [WarnAttempt maxRetries maxRetries text30 cause])
      in Heq.
    apply split_at_posted in Heq; [|apply head_not_posted].
    destruct Heq as [(-> & _) | (pre2 & _ & Hnil)].
    + exists [], t. reflexivity.
    + destruct pre2 as [|x1 [|x2 pre3]]; discriminate.
  - change (Acquired t :: stagger index
              ++ [Posted p; WarnAttempt a maxRetries text30 cause;
                  Slept backoff] ++ evs)
      with ((Acquired t :: stagger index)
              ++ Posted p :: WarnAttempt a maxRetries text30 cause
                 :: Slept backoff :: evs) in Heq.
    apply split_at_posted in Heq; [|apply head_not_posted].
    destruct Heq as [(-> & _) | (pre2 & -> & Htail)].
    + exists [], t. reflexivity.
    + destruct pre2 as [|x1 [|x2 pre3]]; try discriminate.
      injection Htail as <- <- Htail.
      destruct (IH _ _ _ Htail) as (pre' & t' & ->).
      exists ((Acquired t :: stagger index)
                ++ Posted p :: WarnAttempt a maxRetries text30 cause
                   :: Slept backoff :: pre'), t'.
      rewrite <- !app_assoc. reflexivity.
Qed.

Lemma countEvents_app f l1 l2 :
  countEvents f (l1 ++ l2) = (countEvents f l1 + countEvents f l2)%nat.
Proof. unfold countEvents. now rewrite filter_app, length_app. Qed.

Lemma countEvents_stagger_posted index :
  countEvents isPosted (stagger index) = O.
Proof. unfold stagger. now destruct (0 <? index)%Z. Qed.

(** There are no more requests than the attempts left. *)
Lemma retryTrace_posts index maxRetries text30 attempt evs out :
  retryTrace index maxRetries text30 attempt evs out ->
  Z.of_nat (countEvents isPosted evs) <= Z.max 0 (maxRetries - attempt + 1).
Proof.
  induction 1 as [a Ha | a t p v Ha Hv | t p cause
                  | a t p cause backoff evs out Ha Htr IH].
  - simpl. lia.
  - change (Acquired t :: stagger index ++ [Posted p])
      with ([Acquired t] ++ stagger index ++ [Posted p]).
    rewrite !countEvents_app, countEvents_stagger_posted. simpl. lia.
  - change (Acquired t :: stagger index ++ [Posted p; ?e])
      with ([Acquired t] ++ stagger index ++ [Posted p; e]).
    rewrite !countEvents_app, countEvents_stagger_posted. simpl. lia.
  - change (Acquired t :: stagger index ++ [Posted p; ?e1; ?e2] ++ evs)
      with ([Acquired t] ++ stagger index ++ [Posted p; e1; e2] ++ evs).
    rewrite !countEvents_app, countEvents_stagger_posted. simpl. lia.
Qed.




(** A call that returns returns a truthy value, unless no attempt was
    allowed at all: then it returns [undefined] at once. *)
Lemma retryTrace_returned index maxRetries text30 attempt evs v :
  retryTrace index maxRetries text30 attempt evs (Returned v) ->
  jsTruthy v = true \/ (maxRetries < attempt /\ v = JsUndefined /\ evs = []).
Proof.
  remember (Returned v) as out eqn:Hout.
  induction 1 as [a Ha | a t p v0 Ha Hv | t p cause
                  | a t p cause backoff evs out Ha Htr IH]; try discriminate.
  - injection Hout as <-. now right.
  - injection Hout as <-. now left.
  - destruct (IH Hout) as [Hv | (Hlt & _ & ->)]; [now left | lia].
Qed.

(** C8, as the code has it.  The stagger sleep is inside the retry loop:
    with a positive [index] every request, the first and every retry, comes
    right after a sleep of [index * 100] ms, itself right after the
    admission by the limiter. *)
Theorem stagger_before_every_attempt text tagName index maxRetries w :
  ready w ->
  0 < index ->
  exists out w' evs,
    translateWithRetry env text tagName index maxRetries w = settled out w'
    /\ trace w' = trace w ++ evs
    /\ forall pre payload post,
         evs = pre ++ Posted payload :: post ->
         exists pre' t, pre = pre' ++ [Acquired t; Slept (index * 100)].
Proof.
  intros Hready Hindex.
  destruct (translateWithRetry_spec text tagName index maxRetries w Hready)
    as (out & w' & evs & Hrun & [(Htrace & _) _] & Htr).
  exists out, w', evs. split; [exact Hrun|]. split; [exact Htrace|].
  intros pre payload post Heq.
  destruct (retryTrace_before_post _ _ _ _ _ _ Htr _ _ _ Heq) as (pre' & t & ->).
  exists pre', t. unfold stagger.
  destruct (Z.ltb_spec 0 index); [reflexivity | lia].
Qed.

End RetryFacts.

Section RetryExamples.

Open Scope Z_scope.

Lemma stagger_before_every_attempt_witness :
  ready (startWorld 0 freshLimiter) /\ 0 < 1
  /\ exists out w' evs,
      translateWithRetry (sampleEnv flakyService (Root [])) (js "Hi")
        (js "p") 1 5 (startWorld 0 freshLimiter) = settled out w'
      /\ trace w' = evs.
Proof.
  split; [reflexivity|]. split; [reflexivity|].
  destruct (stagger_before_every_attempt (sampleEnv flakyService (Root []))
              (js "Hi") (js "p") 1 5 (startWorld 0 freshLimiter)
              eq_refl eq_refl)
    as (out & w' & evs & Hrun & Htrace & _).
  exists out, w', evs. auto.
Defined.

(** C8 as stated fails: with [index = 1] and a service that fails the first
    request, the call sleeps its 100 ms stagger twice, once before the first
    attempt and once more before the retry. *)
Lemma stagger_sleeps_before_retry :
  exists w',
    translateWithRetry (sampleEnv flakyService (Root [])) (js "Hi") (js "p")
      1 5 (startWorld 0 freshLimiter)
    = Fulfilled (JsStr (js "Hi")) w'
    /\ trace w'
       = [Acquired 0; Slept (1 * 100);
          Posted (mkPayload (js "Hi") (js "pa") (getContextHint (js "p")) true);
          WarnAttempt 1 5 (js "Hi") (js "Network Error");
          Slept 2000;
          Acquired 2100; Slept (1 * 100);
          Posted (mkPayload (js "Hi") (js "pa") (getContextHint (js "p")) true)]
    /\ countEvents (isSlept (1 * 100)) (trace w') <> 1%nat.
Proof.
  eexists. split; [vm_compute; reflexivity|].
  split; [vm_compute; reflexivity | vm_compute; discriminate].
Qed.

End RetryExamples.

(** ** Construction of the rate limiter *)

Section ConstructorFacts.

Open Scope Z_scope.

(** C5 as stated fails: neither constructor looks at its arguments, so a
    limiter of zero requests per window is built without complaint. *)
Lemma constructor_accepts_nonpositive :
  newRateLimiter 0 1500 = Constructed (mkRateLimiter 0 1500 [] [] false 0)
  /\ Batched.newRateLimiter 0 0 = Constructed (Batched.mkRateLimiter 0 0 [])
  /\ ~ (forall maxRequests timeWindow,
          maxRequests <= 0 \/ timeWindow <= 0 ->
          exists error,
            newRateLimiter maxRequests timeWindow = ConstructionFailed error).
Proof.
  split; [reflexivity|]. split; [reflexivity|].
  intros H. destruct (H 0 1500) as [error Herr]; [left; lia|].
  discriminate Herr.
Qed.

(** C5, as the code has it.  Construction succeeds for every
    configuration and stores it unchanged, with an empty window; a
    [maxRequests] that is not positive shows at call time only: no
    [wait()] on the limiter with a queue ever resolves. *)
Theorem constructor_never_rejects maxRequests timeWindow :
  newRateLimiter maxRequests timeWindow
  = Constructed (mkRateLimiter maxRequests timeWindow [] [] false 0)
  /\ Batched.newRateLimiter maxRequests timeWindow
     = Constructed (Batched.mkRateLimiter maxRequests timeWindow [])
  /\ (maxRequests <= 0 ->
      forall rl now resolve,
        newRateLimiter maxRequests timeWindow = Constructed rl ->
        acquire now resolve rl = None).
Proof.
  split; [reflexivity|]. split; [reflexivity|].
  intros Hmx rl now resolve Hnew. injection Hnew as <-.
  now apply acquire_starves.
Qed.

Lemma constructor_never_rejects_witness :
  (0 <= 0)
  /\ acquire 0 1 (mkRateLimiter 0 1500 [] [] false 0) = None.
Proof.
  split; [lia|].
  apply (proj2 (proj2 (constructor_never_rejects 0 1500)));
    [lia | reflexivity].
Defined.

End ConstructorFacts.

(** ** Writing a translation back *)

Section WriteBackFacts.

(** What [writeBack] does with a translation it accepts, for an item whose
    node holds [originalText]: the new text is the old one with the
    substitution of the translation between the white space at its ends. *)
Lemma writeBack_accepted item s w :
  truthy s = true ->
  trim s <> [] ->
  trimmedText item = trim (originalText item) ->
  trimmedText item <> [] ->
  getData (node item) (document w) = Some (originalText item) ->
  exists w',
    writeBack item (JsStr s) w = Fulfilled true w'
    /\ advances w w' []
    /\ document w'
       = setData (node item)
           (replace (originalText item) (trimmedText item) s) (document w)
    /\ getData (node item) (document w')
       = Some (leadingSpace (originalText item)
                 ++ getSubstitution (trimmedText item)
                      (leadingSpace (originalText item))
                      (trailingSpace (originalText item)) s
                 ++ trailingSpace (originalText item)).
Proof.
  intros Hs Htrim Htt Hne Hdata. unfold writeBack. rewrite Hs.
  destruct (trim s) as [|c rest] eqn:Hts; [congruence|]. simpl.
  unfold bind, assignData, ret. eexists. split; [reflexivity|].
  split; [unfold advances; simpl; rewrite app_nil_r; auto|].
  split; [reflexivity|].
  simpl. erewrite getData_setData_same by eassumption.
  rewrite Htt in *. now rewrite replace_trimmed.
Qed.

(** A translation without [$] lands in the node as it is. *)
Lemma writeBack_plain item s w :
  truthy s = true ->
  trim s <> [] ->
  ~ In dollar s ->
  trimmedText item = trim (originalText item) ->
  trimmedText item <> [] ->
  getData (node item) (document w) = Some (originalText item) ->
  exists w',
    writeBack item (JsStr s) w = Fulfilled true w'
    /\ getData (node item) (document w')
       = Some (leadingSpace (originalText item) ++ s
                 ++ trailingSpace (originalText item)).
Proof.
  intros Hs Htrim Hno Htt Hne Hdata.
  destruct (writeBack_accepted item s w Hs Htrim Htt Hne Hdata)
    as (w' & Hrun & _ & _ & Hget).
  exists w'. split; [exact Hrun|].
  now rewrite Hget, getSubstitution_plain.
Qed.

(** C9 fails on the code where the translation holds a [$] pattern:
    [String.prototype.replace] expands [$$], [$&], [$`] and [$'] in its
    second argument.  The text [" Price "] translated to ["US$$5"] becomes
    [" US$5 "], and translated to ["R$&D"] becomes [" RPriceD "]. *)
Theorem writeBack_expands_dollar_patterns :
  let doc := Root [Element (js "p") [] [Text (js " Price ")]] in
  let item := mkTextNode [O; O] (js " Price ") (js "Price") 0 (js "p") in
  let w := setDocument doc (startWorld 0 freshLimiter) in
  In item (collectTextNodes doc)
  /\ (exists w',
        writeBack item (JsStr (js "US$$5")) w = Fulfilled true w'
        /\ getData [O; O] (document w') = Some (js " US$5 ")
        /\ getData [O; O] (document w') <> Some (js " US$$5 "))
  /\ (exists w',
        writeBack item (JsStr (js "R$&D")) w = Fulfilled true w'
        /\ getData [O; O] (document w') = Some (js " RPriceD ")).
Proof.
  cbv zeta. split; [vm_compute; auto|].
  split; eexists; (split; [vm_compute; reflexivity|]).
  - split; [vm_compute; reflexivity | vm_compute; discriminate].
  - vm_compute; reflexivity.
Qed.

End WriteBackFacts.

(** ** Sorting by priority *)

Section SortFacts.

Open Scope Z_scope.

Lemma insertByPriority_perm a l : Permutation (insertByPriority a l) (a :: l).
Proof.
  induction l as [|b l IH]; simpl; [reflexivity|].
  destruct (0 <? priority b - priority a); [|reflexivity].
  rewrite IH. apply perm_swap.
Qed.

Lemma sortByPriority_perm l : Permutation (sortByPriority l) l.
Proof.
  induction l as [|a l IH]; simpl; [reflexivity|].
  rewrite insertByPriority_perm. now constructor.
Qed.

Lemma insertByPriority_sorted a l :
  Sorted byPriority l -> Sorted byPriority (insertByPriority a l).
Proof.
  induction 1 as [|b l Hl IH Hb]; simpl; [repeat constructor|].
  destruct (Z.ltb_spec 0 (priority b - priority a)) as [Hlt|Hge].
  - constructor; [assumption|].
    destruct l as [|c l]; simpl.
    + constructor. unfold byPriority. lia.
    + destruct (0 <? priority c - priority a).
      * inversion Hb; subst. now constructor.
      * constructor. unfold byPriority. lia.
  - constructor; [now constructor|]. constructor. unfold byPriority. lia.
Qed.

Lemma sortByPriority_sorted l : Sorted byPriority (sortByPriority l).
Proof.
  induction l as [|a l IH]; simpl; [constructor|].
  now apply insertByPriority_sorted.
Qed.

Lemma byPriority_trans : Relations_1.Transitive byPriority.
Proof. intros a b c. unfold byPriority. lia. Qed.

Lemma sortByPriority_strongly_sorted l :
  StronglySorted byPriority (sortByPriority l).
Proof.
  apply Sorted_StronglySorted; [apply byPriority_trans|].
  apply sortByPriority_sorted.
Qed.

(** Inserting an item puts it before the items of its own priority. *)
Lemma insertByPriority_tier p a l :
  tier p (insertByPriority a l) = tier p (a :: l).
Proof.
  unfold tier. induction l as [|b l IH]; [reflexivity|].
  cbn [insertByPriority].
  destruct (Z.ltb_spec 0 (priority b - priority a)) as [Hlt|Hge];
    [|reflexivity].
  cbn [filter] in *. rewrite IH.
  destruct (Z.eqb_spec (priority b) p), (Z.eqb_spec (priority a) p);
    try reflexivity. lia.
Qed.

(** The sort is stable: within a priority the order is the one the items
    were in. *)
Lemma sortByPriority_stable p l : tier p (sortByPriority l) = tier p l.
Proof.
  induction l as [|a l IH]; [reflexivity|].
  cbn [sortByPriority]. rewrite insertByPriority_tier.
  unfold tier in *. cbn [filter]. now rewrite IH.
Qed.

(** In a sorted list an item of higher priority comes first. *)
Lemma strongly_sorted_order l :
  StronglySorted byPriority l ->
  forall i j a b,
    nth_error l i = Some a -> nth_error l j = Some b ->
    priority b < priority a -> (i < j)%nat.
Proof.
  induction 1 as [|x l Hl IH Hx]; intros i j a b Hi Hj Hlt.
  - destruct i; discriminate.
  - destruct i as [|i], j as [|j]; simpl in Hi, Hj.
    + injection Hi as <-. injection Hj as <-. lia.
    + lia.
    + injection Hj as <-. apply nth_error_In in Hi.
      rewrite Forall_forall in Hx. specialize (Hx a Hi).
      unfold byPriority in Hx. lia.
    + apply -> Nat.succ_lt_mono. eapply IH; eassumption.
Qed.

End SortFacts.

(** ** The sequential scheduler *)

Section SchedulerFacts.

Variable env : Env.

Lemma retryTrace_events index maxRetries text30 attempt evs out :
  retryTrace index maxRetries text30 attempt evs out ->
  Forall (fun e => retryEvent e = true) evs.
Proof.
  assert (Hst : Forall (fun e => retryEvent e = true) (stagger index)).
  { unfold stagger. destruct (0 <? index)%Z; repeat constructor. }
  induction 1; repeat constructor;
    apply Forall_app; split; auto; repeat constructor; assumption.
Qed.

Lemma retryEvents_silent evs :
  Forall (fun e => retryEvent e = true) evs ->
  failedNodes evs = [] /\ dispatched evs = [].
Proof.
  induction 1 as [|e evs He _ [IHf IHd]]; [now split|].
  unfold failedNodes, dispatched in *. simpl. rewrite IHf, IHd.
  destruct e; try discriminate; now split.
Qed.

Lemma failedNodes_app l1 l2 :
  failedNodes (l1 ++ l2) = failedNodes l1 ++ failedNodes l2.
Proof. apply flat_map_app. Qed.

Lemma dispatched_app l1 l2 :
  dispatched (l1 ++ l2) = dispatched l1 ++ dispatched l2.
Proof. apply flat_map_app. Qed.

(** A turn of [processBatchSequential] always completes, and is a
    [turnOf] its item. *)
Lemma processItem_spec i item w :
  ready w ->
  exists w' evs,
    processItem env i item w = Fulfilled tt w' /\ turnOf item w w' evs.
Proof.
  intros Hready. unfold processItem, tryCatch, bind.
  destruct (limiterWait_spec w Hready) as (t & w1 & -> & Hq1).
  destruct (translateWithRetry_spec env (trimmedText item) (tagName item)
              (Z.of_nat i) defaultMaxRetries w1
              (quiet_ready _ _ _ Hq1 Hready))
    as (out & w2 & evs2 & -> & Hq2 & Htr).
  pose proof (quiet_trans _ _ _ _ _ Hq1 Hq2) as [Ha12 Hd12].
  destruct (retryEvents_silent _ (retryTrace_events _ _ _ _ _ _ Htr))
    as [Hf2 Hd2].
  assert (Hsilent : failedNodes ([Acquired t] ++ evs2) = []
                    /\ dispatched ([Acquired t] ++ evs2) = []).
  { rewrite failedNodes_app, dispatched_app, Hf2, Hd2. now split. }
  destruct Hsilent as [Hf Hd].
  assert (Hfail : forall message,
             exists w' evs,
               emit (WarnFailed (node item) (substring0 30 (trimmedText item))
                                message) w2 = Fulfilled tt w'
               /\ turnOf item w w' evs).
  { intros message.
    destruct (emit_spec (WarnFailed (node item)
                           (substring0 30 (trimmedText item)) message) w2)
      as (w3 & -> & [Ha3 Hd3]).
    exists w3. eexists. split; [reflexivity|].
    split; [eapply advances_trans; eassumption|].
    split; [rewrite dispatched_app, Hd; reflexivity|].
    split; [intros q _; now rewrite Hd3, Hd12|].
    right. split; [rewrite failedNodes_app, Hf; reflexivity | congruence]. }
  assert (Hskip : exists w' evs,
             Fulfilled tt w2 = Fulfilled tt w' /\ turnOf item w w' evs).
  { exists w2, ([Acquired t] ++ evs2). split; [reflexivity|].
    split; [exact Ha12|]. split; [exact Hd|].
    split; [intros q _; now rewrite Hd12|].
    left. split; [exact Hf | now left]. }
  destruct out as [v | message]; cbn [settled]; [|apply Hfail].
  destruct v as [|s|[|]]; cbn [writeBack ret throw];
    [exact Hskip | | apply Hfail | exact Hskip].
  destruct (truthy s) eqn:Hs; [|exact Hskip].
  destruct (Nat.ltb_spec 0 (List.length (trim s))) as [Hlen|Hlen];
    [|exact Hskip].
  cbn [andb]. unfold bind, assignData, ret.
  destruct (emit_spec (LogTranslated (node item)
                         (substring0 30 (trimmedText item)))
              (setDocument
                 (setData (node item)
                    (replace (originalText item) (trimmedText item) s)
                    (document w2)) w2))
    as (w3 & -> & [(Ht3 & Hn3 & Hm3 & Hw3) Hd3]).
  exists w3. eexists ([Acquired t] ++ evs2 ++ [_]).
  split; [reflexivity|].
  destruct Ha12 as (Ht12 & Hn12 & Hm12 & Hw12).
  split.
  { unfold advances. simpl in *. rewrite Ht3, Ht12, <- !app_assoc.
    repeat split; congruence. }
  split.
  { rewrite app_assoc, dispatched_app, Hd. reflexivity. }
  split.
  { intros q Hq. rewrite Hd3. simpl.
    rewrite getData_setData_other by congruence. now rewrite Hd12. }
  left. split.
  { rewrite app_assoc, failedNodes_app, Hf. reflexivity. }
  right. exists s. split.
  { split; [assumption|]. intros Hnil. rewrite Hnil in Hlen. simpl in Hlen. lia. }
  rewrite Hd3. simpl. now rewrite Hd12.
Qed.

Lemma pause_spec (b : bool) ms w :
  exists w' evs,
    (if b then sleep ms else ret tt) w = Fulfilled tt w'
    /\ quiet w w' evs /\ failedNodes evs = [] /\ dispatched evs = [].
Proof.
  destruct b.
  - destruct (sleep_spec ms w) as (w' & Hrun & Hq).
    exists w', [Slept ms]. repeat split; assumption || apply Hq.
  - exists w, []. repeat split; try reflexivity; apply advances_refl.
Qed.

Lemma turnOf_failed_incl item w w' evs :
  turnOf item w w' evs -> incl (failedNodes evs) [node item].
Proof.
  intros (_ & _ & _ & [[-> _] | [-> _]]);
    [intros x [] | apply incl_refl].
Qed.

(** The loop over the items left: it completes, starts the items in
    order, reports failures of its items only, writes no other node, and
    leaves every item with a [settledText]. *)
Lemma loopOver_spec total rest :
  forall i sc fc w,
    ready w ->
    NoDup (map node rest) ->
    Forall (fun item => getData (node item) (document w)
                        = Some (originalText item)) rest ->
    exists counts w' evs,
      loopOver env total rest i sc fc w = Fulfilled counts w'
      /\ advances w w' evs
      /\ dispatched evs = map node rest
      /\ incl (failedNodes evs) (map node rest)
      /\ (forall q, ~ In q (map node rest) ->
                    getData q (document w') = getData q (document w))
      /\ Forall (fun item => settledText item evs (document w')) rest.
Proof.
  induction rest as [|item rest IH]; intros i sc fc w Hready Hnd Hdata.
  - exists (sc, fc), w, []. split; [reflexivity|].
    split; [apply advances_refl|]. split; [reflexivity|].
    split; [apply incl_refl|]. split; [reflexivity | constructor].
  - inversion Hnd as [|? ? Hnotin Hnd']; subst.
    inversion Hdata as [|? ? Hhead Hdata']; subst.
    cbn [loopOver]. unfold bind at 1.
    destruct (emit_spec (LogProcessingItem (i + 1) total [node item]) w)
      as (w1 & -> & [Ha1 Hd1]).
    unfold bind at 1. unfold tryCatch, processBatchSequential.
    cbn [processBatchSequentialFrom]. unfold bind at 1. unfold bind at 1.
    unfold bind at 1.
    destruct (processItem_spec O item w1 (advances_ready _ _ _ Ha1 Hready))
      as (w2 & evs2 & -> & Hturn).
    pose proof Hturn as (Ha2 & Hdis2 & Hframe2 & Hcases).
    cbn [ret processBatchSequentialFrom].
    destruct (pause_spec (i + BATCH_SIZE <? total)%nat DELAY_BETWEEN_REQUESTS w2)
      as (w3 & evs3 & -> & [Ha3 Hd3] & Hf3 & Hdis3).
    unfold ret. cbv beta iota. cbn [fst snd].
    assert (Hready3 : ready w3).
    { eapply advances_ready; [exact Ha3|].
      eapply advances_ready; [exact Ha2|].
      eapply advances_ready; eassumption. }
    assert (Hdata3 : Forall (fun item' => getData (node item') (document w3)
                                          = Some (originalText item')) rest).
    { apply Forall_forall. intros item' Hin.
      rewrite Forall_forall in Hdata'.
      rewrite Hd3, Hframe2, Hd1; [now apply Hdata'|].
      intros Heq. apply Hnotin. rewrite <- Heq. now apply in_map. }
    destruct (IH (i + BATCH_SIZE)%nat (sc + 1)%nat fc w3 Hready3 Hnd' Hdata3)
      as (counts & w' & evs' & -> & Ha' & Hdis' & Hinc' & Hframe' & Hset').
    exists counts, w'.
    exists ([LogProcessingItem (i + 1) total [node item]]
              ++ evs2 ++ evs3 ++ evs').
    split; [reflexivity|].
    split.
    { eapply advances_trans; [exact Ha1|].
      eapply advances_trans; [exact Ha2|].
      eapply advances_trans; eassumption. }
    assert (Hfailed : failedNodes
                        ([LogProcessingItem (i + 1) total [node item]]
                           ++ evs2 ++ evs3 ++ evs')
                      = failedNodes evs2 ++ failedNodes evs').
    { rewrite !failedNodes_app, Hf3. reflexivity. }
    pose proof (turnOf_failed_incl _ _ _ _ Hturn) as Hinc2.
    split.
    { rewrite !dispatched_app, Hdis2, Hdis3, Hdis'. reflexivity. }
    split.
    { rewrite Hfailed. intros q Hq. apply in_app_or in Hq as [Hq|Hq].
      - apply Hinc2 in Hq as [<-|[]]. now left.
      - right. now apply Hinc'. }
    split.
    { intros q Hq.
      rewrite Hframe' by (intros Hin; apply Hq; now right).
      rewrite Hd3, Hframe2 by (intros ->; apply Hq; now left).
      now rewrite Hd1. }
    constructor.
    + unfold settledText. rewrite Hframe' by assumption. rewrite Hd3.
      destruct Hcases as [[Hf2 [Hsame | (s & Hacc & Hdoc)]] | [Hf2 Hsame]].
      * left. now rewrite Hsame, Hd1.
      * right. split.
        -- rewrite Hfailed, Hf2. simpl. intros Hin. apply Hnotin.
           now apply Hinc'.
        -- exists s. split; [assumption|]. rewrite Hdoc.
           apply getData_setData_same with (d := originalText item).
           now rewrite Hd1.
      * left. now rewrite Hsame, Hd1.
    + apply Forall_forall. intros item' Hin.
      rewrite Forall_forall in Hset'.
      destruct (Hset' item' Hin) as [Hleft | [Hnf Hright]]; [now left|].
      right. split; [|exact Hright].
      rewrite Hfailed. intros Hq. apply in_app_or in Hq as [Hq|Hq];
        [|contradiction].
      apply Hinc2 in Hq as [Heq|[]]. apply Hnotin. rewrite Heq.
      now apply in_map.
Qed.

Lemma bind_ext (A B : Type) (m : Async A) (k k' : A -> Async B) w :
  (forall a w', k a w' = k' a w') -> bind m k w = bind m k' w.
Proof. intros H. unfold bind. destruct (m w); auto. Qed.

Lemma skipn_cons_nth (A : Type) (l : list A) i x :
  nth_error l i = Some x -> skipn i l = x :: skipn (S i) l.
Proof.
  revert i; induction l as [|y l IH]; intros [|i] H; try discriminate.
  - now injection H as ->.
  - simpl in H. cbn [skipn]. now apply IH.
Qed.

(** The [for] loop with its index and its slices is the loop over the
    items left. *)
Lemma sequentialLoop_unroll items fuel :
  forall i sc fc w,
    (List.length items <= i + fuel)%nat ->
    (i <= List.length items)%nat ->
    sequentialLoop env items fuel i sc fc w
    = loopOver env (List.length items) (skipn i items) i sc fc w.
Proof.
  induction fuel as [|fuel IH]; intros i sc fc w Hfuel Hi.
  - rewrite skipn_all2 by lia. reflexivity.
  - cbn [sequentialLoop].
    destruct (Nat.ltb_spec i (List.length items)) as [Hlt|Hge].
    + destruct (nth_error items i) as [item|] eqn:Hnth;
        [|apply nth_error_None in Hnth; lia].
      rewrite (skipn_cons_nth _ _ _ _ Hnth).
      assert (Hbatch : slice i (i + BATCH_SIZE) items = [item]).
      { unfold slice, BATCH_SIZE.
        replace (i + 1 - i)%nat with 1%nat by lia.
        now rewrite (skipn_cons_nth _ _ _ _ Hnth). }
      rewrite Hbatch. cbn [loopOver map List.length].
      apply bind_ext. intros _ w1. apply bind_ext. intros counts w2.
      unfold BATCH_SIZE. rewrite Nat.add_1_r.
      apply IH; lia.
    + rewrite skipn_all2 by lia. reflexivity.
Qed.

(** The whole pipeline from a ready world: it completes; it starts the
    items in the order of the sorted array; it reports failures of
    extracted nodes only; it writes no node that was not extracted; and it
    leaves every extracted item with a [settledText]. *)
Lemma pipeline_spec htmlEnglish w :
  ready w ->
  let doc := cheerioLoad env htmlEnglish in
  let items := collectTextNodes doc in
  exists out w' evs,
    translateHtmlStructureOptimized env htmlEnglish w = Fulfilled out w'
    /\ trace w' = trace w ++ evs
    /\ out = match items with
             | [] => htmlEnglish
             | _ :: _ => cheerioHtml env (document w')
             end
    /\ textNodes w' = sortByPriority items
    /\ dispatched evs = map node (sortByPriority items)
    /\ incl (failedNodes evs) (map node items)
    /\ (forall q, ~ In q (map node items) ->
                  getData q (document w') = getData q doc)
    /\ Forall (fun item => settledText item evs (document w')) items.
Proof.
  intros Hready doc items. unfold translateHtmlStructureOptimized.
  cbn [textNodes setTextNodes record setDocument document].
  fold doc. fold items.
  destruct items as [|item0 items0] eqn:Hitems.
  - cbn [List.length Nat.eqb]. do 2 eexists. exists [LogFound O].
    split; [reflexivity|]. repeat split; try reflexivity.
    + apply incl_refl.
    + constructor.
  - cbn [List.length Nat.eqb]. rewrite <- Hitems.
    set (sorted := sortByPriority items).
    assert (Hperm : Permutation sorted items) by apply sortByPriority_perm.
    set (w4 := setTextNodes sorted _).
    assert (Hready4 : ready w4) by exact Hready.
    assert (Hnd : NoDup (map node sorted)).
    { eapply Permutation_NoDup; [apply Permutation_map; symmetry; exact Hperm|].
      apply collectTextNodes_NoDup. }
    assert (Hdata : Forall (fun item => getData (node item) (document w4)
                                        = Some (originalText item)) sorted).
    { apply Forall_forall. intros item Hin.
      apply (Permutation_in _ Hperm) in Hin.
      apply collectTextNodes_sound in Hin as (Hchild & _).
      now apply textChildOf_getData in Hchild. }
    unfold processSequentialTranslation. unfold bind at 1. unfold bind at 1.
    rewrite sequentialLoop_unroll by lia. cbn [skipn].
    destruct (loopOver_spec (List.length sorted) sorted O O O w4
                Hready4 Hnd Hdata)
      as (counts & w5 & evs & -> & (Ht5 & Hn5 & _) & Hdis & Hinc & Hframe & Hset).
    destruct (emit_spec (LogCompleted (fst counts) (snd counts)) w5)
      as (w6 & -> & [(Ht6 & Hn6 & _) Hd6]).
    set (found := LogFound (S (List.length items0))) in *.
    set (completed := LogCompleted (fst counts) (snd counts)) in *.
    do 2 eexists. exists ([found] ++ evs ++ [completed]).
    split; [reflexivity|].
    assert (Hfailed : failedNodes ([found] ++ evs ++ [completed])
                      = failedNodes evs).
    { rewrite !failedNodes_app. simpl. apply app_nil_r. }
    split.
    { rewrite Ht6, Ht5. simpl. now rewrite <- !app_assoc. }
    split; [reflexivity|].
    split.
    { rewrite Hn6, Hn5. reflexivity. }
    split.
    { rewrite !dispatched_app, Hdis. simpl. apply app_nil_r. }
    split.
    { rewrite Hfailed. intros q Hq. apply Hinc in Hq.
      eapply Permutation_in; [apply Permutation_map; exact Hperm | exact Hq]. }
    split.
    { intros q Hq. rewrite Hd6, Hframe; [reflexivity|].
      intros Hin. apply Hq.
      eapply Permutation_in; [apply Permutation_map; exact Hperm | exact Hin]. }
    apply Forall_forall. intros item Hin.
    rewrite Forall_forall in Hset.
    apply (Permutation_in _ (Permutation_sym Hperm)) in Hin.
    specialize (Hset item Hin). unfold settledText in *.
    rewrite Hfailed, Hd6. exact Hset.
Qed.

Lemma NoDup_map_eq (A B : Type) (f : A -> B) (l : list A) x y :
  NoDup (map f l) -> In x l -> In y l -> f x = f y -> x = y.
Proof.
  induction l as [|a l IH]; intros Hnd Hx Hy Heq; [contradiction|].
  inversion Hnd as [|? ? Hnotin Hnd']; subst.
  destruct Hx as [->|Hx], Hy as [->|Hy]; auto.
  - exfalso. apply Hnotin. rewrite Heq. now apply in_map.
  - exfalso. apply Hnotin. rewrite <- Heq. now apply in_map.
Qed.

(** C4. A text node whose container is [script], [style], [meta] or
    [link], or whose trimmed text is empty, has at most one character, or
    is made of digits with [.] and [,] only, is not extracted: it is on no
    batch the scheduler starts, and its text in the document that is
    serialized is the one it had. *)
Theorem excluded_text_untouched htmlEnglish w p tag data :
  ready w ->
  textChildOf (cheerioLoad env htmlEnglish) p tag data ->
  In tag nonTranslatable
  \/ trim data = []
  \/ (List.length (trim data) <= 1)%nat
  \/ numericLooking (trim data) ->
  ~ In p (map node (collectTextNodes (cheerioLoad env htmlEnglish)))
  /\ exists out w' evs,
      translateHtmlStructureOptimized env htmlEnglish w = Fulfilled out w'
      /\ trace w' = trace w ++ evs
      /\ ~ In p (dispatched evs)
      /\ getData p (document w') = Some data.
Proof.
  intros Hready Hchild Hexcluded.
  assert (Hnot : ~ In p (map node (collectTextNodes
                                     (cheerioLoad env htmlEnglish)))).
  { intros Hin. apply in_map_iff in Hin as (item & Hnode & Hin).
    apply collectTextNodes_sound in Hin as (Hc & Htrim & Hq & _ & Hinc).
    rewrite Hnode in Hc.
    destruct (textChildOf_functional _ _ _ _ _ _ Hchild Hc) as [-> ->].
    destruct Hexcluded as [Htag | Htext].
    - assert (Ht : includes nonTranslatable (tagName item) = true).
      { unfold includes. apply existsb_exists.
        exists (tagName item). split; [assumption | apply jsstring_eqb_refl]. }
      congruence.
    - rewrite Htrim in Hq. rewrite qualifies_false in Hq; [discriminate|].
      exact Htext. }
  split; [exact Hnot|].
  destruct (pipeline_spec htmlEnglish w Hready)
    as (out & w' & evs & Hrun & Htrace & _ & _ & Hdis & _ & Hframe & _).
  exists out, w', evs.
  split; [exact Hrun|]. split; [exact Htrace|]. split.
  - rewrite Hdis. intros Hin. apply Hnot.
    eapply Permutation_in;
      [apply Permutation_map; apply sortByPriority_perm | exact Hin].
  - rewrite Hframe by exact Hnot. eapply textChildOf_getData; eassumption.
Qed.

(** C7, as the code has it.  The sort is done in place: when the pipeline
    ends the array [textNodes] itself holds the extracted items sorted by
    non-increasing priority, items of equal priority in the order they
    were extracted; the scheduler starts the items in the order of the
    array, so an item of higher priority is started before any item of
    lower priority. *)
Theorem sort_in_place_by_priority htmlEnglish w :
  ready w ->
  exists out w' evs,
    translateHtmlStructureOptimized env htmlEnglish w = Fulfilled out w'
    /\ trace w' = trace w ++ evs
    /\ textNodes w' = sortByPriority (collectTextNodes (cheerioLoad env htmlEnglish))
    /\ Permutation (textNodes w') (collectTextNodes (cheerioLoad env htmlEnglish))
    /\ StronglySorted byPriority (textNodes w')
    /\ (forall p, tier p (textNodes w')
                  = tier p (collectTextNodes (cheerioLoad env htmlEnglish)))
    /\ dispatched evs = map node (textNodes w')
    /\ (forall i j a b,
          In a (collectTextNodes (cheerioLoad env htmlEnglish)) ->
          In b (collectTextNodes (cheerioLoad env htmlEnglish)) ->
          nth_error (dispatched evs) i = Some (node a) ->
          nth_error (dispatched evs) j = Some (node b) ->
          (priority b < priority a)%Z ->
          (i < j)%nat).
Proof.
  intros Hready.
  destruct (pipeline_spec htmlEnglish w Hready)
    as (out & w' & evs & Hrun & Htrace & _ & Hnodes & Hdis & _).
  set (items := collectTextNodes (cheerioLoad env htmlEnglish)) in *.
  exists out, w', evs. rewrite Hnodes.
  split; [exact Hrun|]. split; [exact Htrace|]. split; [reflexivity|].
  split; [apply sortByPriority_perm|].
  split; [apply sortByPriority_strongly_sorted|].
  split; [intros p; apply sortByPriority_stable|].
  split; [exact Hdis|].
  intros i j a b Ha Hb Hi Hj Hlt. rewrite Hdis in Hi, Hj.
  rewrite nth_error_map in Hi, Hj.
  destruct (nth_error (sortByPriority items) i) as [a'|] eqn:Hi';
    [|discriminate].
  destruct (nth_error (sortByPriority items) j) as [b'|] eqn:Hj';
    [|discriminate].
  injection Hi as Hna. injection Hj as Hnb.
  pose proof (collectTextNodes_NoDup (cheerioLoad env htmlEnglish)) as Hnd.
  fold items in Hnd.
  assert (Ha' : In a' items).
  { eapply Permutation_in; [apply sortByPriority_perm|].
    eapply nth_error_In; eassumption. }
  assert (Hb' : In b' items).
  { eapply Permutation_in; [apply sortByPriority_perm|].
    eapply nth_error_In; eassumption. }
  assert (a' = a) by (eapply NoDup_map_eq; eassumption).
  assert (b' = b) by (eapply NoDup_map_eq; eassumption).
  subst a' b'.
  eapply strongly_sorted_order; try eassumption.
  apply sortByPriority_strongly_sorted.
Qed.

(** C10. When no text node of the parsed document qualifies, the
    function returns the very string it was given: both revisions return
    [htmlEnglish] before any request and before the serializer is reached,
    whatever the serializer [cheerioHtml] of the environment would
    produce. *)
Theorem no_fragment_returns_input htmlEnglish w process :
  (forall p tag data,
      textChildOf (cheerioLoad env htmlEnglish) p tag data ->
      In tag nonTranslatable \/ qualifies (trim data) = false) ->
  exists w',
    translateHtmlStructureOptimized env htmlEnglish w
    = Fulfilled htmlEnglish w'
    /\ Batched.translateHtmlStructureOptimized env process htmlEnglish w
       = Fulfilled htmlEnglish w'
    /\ trace w' = trace w ++ [LogFound O]
    /\ document w' = cheerioLoad env htmlEnglish.
Proof.
  intros Hnone. apply collectTextNodes_nil in Hnone.
  unfold translateHtmlStructureOptimized,
    Batched.translateHtmlStructureOptimized.
  cbn [textNodes setTextNodes record setDocument document].
  rewrite Hnone. cbn [List.length Nat.eqb].
  eexists. repeat split; reflexivity.
Qed.

End SchedulerFacts.

Section SchedulerExamples.

Open Scope Z_scope.

(** With the service down both fragments are reported failed and the
    document is serialized as it was parsed. *)
Example dead_service_keeps_document :
  exists w',
    translateHtmlStructureOptimized (sampleEnv deadService headingLast)
      (renderPlain headingLast) (startWorld 0 freshLimiter)
    = Fulfilled (renderPlain headingLast) w'
    /\ failedNodes (trace w') = [[1; 0]; [0; 0]]%nat
    /\ document w' = headingLast.
Proof.
  eexists. split; [vm_compute; reflexivity|].
  split; vm_compute; reflexivity.
Qed.

(** One fragment fails all its attempts, the other is translated: the
    first keeps its text, the second gets its translation. *)
Example one_failure_among_two :
  exists w',
    translateHtmlStructureOptimized
      (sampleEnv (selectiveService (js "Title") (js "Namaste")) headingLast)
      (renderPlain headingLast) (startWorld 0 freshLimiter)
    = Fulfilled (js "<p>Namaste</p><h1>Title</h1>") w'
    /\ failedNodes (trace w') = [[1; 0]]%nat
    /\ countEvents isPosted (trace w') = 6%nat.
Proof.
  eexists. split; [vm_compute; reflexivity|].
  split; vm_compute; reflexivity.
Qed.

Lemma excluded_text_untouched_witness :
  ready (startWorld 0 freshLimiter)
  /\ textChildOf numbersOnly [0; 0]%nat (js "p") (js " 3,14 ")
  /\ numericLooking (trim (js " 3,14 "))
  /\ ~ In [0; 0]%nat (map node (collectTextNodes numbersOnly)).
Proof.
  assert (Hchild : textChildOf numbersOnly [0; 0]%nat (js "p") (js " 3,14 ")).
  { exists [O], O, [], [Text (js " 3,14 ")]. repeat split. }
  assert (Hnum : numericLooking (trim (js " 3,14 "))).
  { apply isOnlyNumbers_true. reflexivity. }
  split; [reflexivity|]. split; [exact Hchild|]. split; [exact Hnum|].
  exact (proj1 (excluded_text_untouched (sampleEnv echoService numbersOnly)
                  (renderPlain numbersOnly) (startWorld 0 freshLimiter)
                  [0; 0]%nat (js "p") (js " 3,14 ") eq_refl Hchild
                  (or_intror (or_intror (or_intror Hnum))))).
Defined.

Lemma sort_in_place_by_priority_witness :
  ready (startWorld 0 freshLimiter)
  /\ exists out w' evs,
      translateHtmlStructureOptimized (sampleEnv echoService headingLast)
        (renderPlain headingLast) (startWorld 0 freshLimiter)
      = Fulfilled out w'
      /\ trace w' = evs
      /\ dispatched evs = map node (textNodes w').
Proof.
  split; [reflexivity|].
  destruct (sort_in_place_by_priority (sampleEnv echoService headingLast)
              (renderPlain headingLast) (startWorld 0 freshLimiter) eq_refl)
    as (out & w' & evs & Hrun & Htrace & _ & _ & _ & _ & Hdis & _).
  exists out, w', evs. auto.
Defined.

(** C7 as stated fails: no copy is sorted.  For a paragraph followed by a
    heading the extractor leaves the paragraph first on [textNodes]; after
    the sort the same array has the heading first. *)
Lemma sort_overwrites_extracted_array :
  let pItem := mkTextNode [0; 0]%nat (js "Hello") (js "Hello") 0 (js "p") in
  let hItem := mkTextNode [1; 0]%nat (js "Title") (js "Title") 5 (js "h1") in
  collectTextNodes headingLast = [pItem; hItem]
  /\ exists out w',
      translateHtmlStructureOptimized (sampleEnv echoService headingLast)
        (renderPlain headingLast) (startWorld 0 freshLimiter)
      = Fulfilled out w'
      /\ textNodes w' = [hItem; pItem]
      /\ textNodes w' <> collectTextNodes headingLast.
Proof.
  cbv zeta. split; [vm_compute; reflexivity|].
  do 2 eexists. split; [vm_compute; reflexivity|].
  split; [vm_compute; reflexivity | vm_compute; discriminate].
Qed.

Lemma no_fragment_returns_input_witness :
  collectTextNodes numbersOnly = []
  /\ exists w',
      translateHtmlStructureOptimized (sampleEnv echoService numbersOnly)
        (renderPlain numbersOnly) (startWorld 0 freshLimiter)
      = Fulfilled (renderPlain numbersOnly) w'.
Proof.
  split; [reflexivity|].
  destruct (no_fragment_returns_input (sampleEnv echoService numbersOnly)
              (renderPlain numbersOnly) (startWorld 0 freshLimiter)
              (fun _ => ret tt)
              (proj1 (collectTextNodes_nil numbersOnly) eq_refl))
    as (w' & Hrun & _).
  exists w'. exact Hrun.
Defined.

End SchedulerExamples.

(** ** Translating with an echo *)

Section EchoFacts.

Variable jitterOf : nat -> Z.
Variable load : jsstring -> Node.
Variable render : Node -> jsstring.

Let env : Env := mkEnv echoService jitterOf load render.

Lemma trimStart_idempotent s : trimStart (trimStart s) = trimStart s.
Proof.
  induction s as [|c s IH]; [reflexivity|]. simpl.
  destruct (isWhiteSpace c) eqn:Hc; [exact IH|]. simpl. now rewrite Hc.
Qed.

Lemma trim_idempotent s : trim (trim s) = trim s.
Proof.
  unfold trim, trimEnd.
  set (v := trimStart (rev (trimStart s))).
  assert (Hv : trimStart v = v) by apply trimStart_idempotent.
  assert (Hfront : trimStart (rev v) = rev v).
  { pose proof (trimStart_trim_trailing s) as Hts.
    unfold trim, trimEnd in Hts. fold v in Hts.
    destruct (rev v) as [|c rest] eqn:Hr; [reflexivity|].
    simpl in Hts.
    apply trimStart_head in Hts. simpl. now rewrite Hts. }
  rewrite Hfront, rev_involutive, Hv. reflexivity.
Qed.

(** With the echo the first attempt succeeds and returns the text sent. *)
Lemma echo_translateWithRetry txt tag index w :
  ready w ->
  txt <> [] ->
  exists w' evs,
    translateWithRetry env txt tag index defaultMaxRetries w
    = Fulfilled (JsStr txt) w'
    /\ quiet w w' evs.
Proof.
  intros Hready Hne. unfold translateWithRetry, defaultMaxRetries.
  change (Z.to_nat 5) with 5%nat. cbn [retryLoop].
  unfold attemptOnce, bind.
  destruct (limiterWait_spec w Hready) as (t & w1 & -> & Hq1).
  destruct (pause_spec (0 <? index)%Z (index * 100)%Z w1)
    as (w2 & evs2 & -> & Hq2 & _).
  match goal with
  | |- context [httpPost env ?p w2] =>
      destruct (httpPost_spec env p w2) as (w3 & Hq3 & ->)
  end.
  cbn [env service echoService result text jsTruthy].
  destruct txt as [|c rest]; [congruence|]. cbn [truthy].
  exists w3. eexists. split; [reflexivity|].
  eapply quiet_trans; [exact Hq1|]. eapply quiet_trans; eassumption.
Qed.

(** With the echo a turn writes the text of its item back as it was,
    when that text holds no [$]. *)
Lemma echo_processItem i item w :
  ready w ->
  trimmedText item = trim (originalText item) ->
  qualifies (trimmedText item) = true ->
  ~ In dollar (trimmedText item) ->
  getData (node item) (document w) = Some (originalText item) ->
  exists w' evs,
    processItem env i item w = Fulfilled tt w'
    /\ quiet w w' evs.
Proof.
  intros Hready Htrim Hq Hno Hdata.
  assert (Hne : trimmedText item <> []).
  { intros Hnil. rewrite Hnil in Hq. discriminate. }
  unfold processItem, tryCatch, bind.
  destruct (limiterWait_spec w Hready) as (t & w1 & -> & Hq1).
  destruct (echo_translateWithRetry (trimmedText item) (tagName item)
              (Z.of_nat i) w1 (quiet_ready _ _ _ Hq1 Hready) Hne)
    as (w2 & evs2 & -> & Hq2).
  pose proof (quiet_trans _ _ _ _ _ Hq1 Hq2) as Hq12.
  assert (Hdata2 : getData (node item) (document w2)
                   = Some (originalText item)).
  { destruct Hq12 as [_ ->]. exact Hdata. }
  assert (Htr : trim (trimmedText item) <> []).
  { rewrite Htrim, trim_idempotent, <- Htrim. exact Hne. }
  assert (Htruthy : truthy (trimmedText item) = true).
  { destruct (trimmedText item); [congruence | reflexivity]. }
  destruct (writeBack_accepted item (trimmedText item) w2 Htruthy Htr Htrim
              Hne Hdata2) as (w3 & -> & Ha3 & Hdoc3 & _).
  assert (Hsame : document w3 = document w2).
  { assert (Hrep : replace (originalText item) (trimmedText item)
                     (trimmedText item) = originalText item).
    { rewrite Htrim.
      rewrite replace_trimmed_plain;
        [symmetry; apply trim_decompose
        | rewrite <- Htrim; exact Hne
        | rewrite <- Htrim; exact Hno]. }
    rewrite Hdoc3, Hrep. now apply setData_same_data. }
  destruct (emit_spec (LogTranslated (node item)
                         (substring0 30 (trimmedText item))) w3)
    as (w4 & -> & Hq4).
  exists w4. eexists. split; [reflexivity|].
  eapply quiet_trans; [exact Hq12|].
  eapply quiet_trans; [split; [exact Ha3 | exact Hsame] | exact Hq4].
Qed.

Lemma echo_loopOver total rest :
  forall i sc fc w,
    ready w ->
    Forall (plainItem (document w)) rest ->
    exists counts w' evs,
      loopOver env total rest i sc fc w = Fulfilled counts w'
      /\ quiet w w' evs.
Proof.
  induction rest as [|item rest IH]; intros i sc fc w Hready Hplain.
  - exists (sc, fc), w, []. split; [reflexivity | apply quiet_refl].
  - inversion Hplain as [|? ? (Htrim & Hq & Hno & Hdata) Hrest]; subst.
    cbn [loopOver]. unfold bind at 1.
    destruct (emit_spec (LogProcessingItem (i + 1) total [node item]) w)
      as (w1 & -> & Hq1).
    unfold bind at 1. unfold tryCatch, processBatchSequential.
    cbn [processBatchSequentialFrom]. unfold bind at 1. unfold bind at 1.
    unfold bind at 1.
    destruct (echo_processItem O item w1) as (w2 & evs2 & -> & Hq2);
      try assumption.
    { eapply quiet_ready; eassumption. }
    { destruct Hq1 as [_ ->]. exact Hdata. }
    cbn [ret processBatchSequentialFrom].
    destruct (pause_spec (i + BATCH_SIZE <? total)%nat DELAY_BETWEEN_REQUESTS w2)
      as (w3 & evs3 & -> & Hq3 & _).
    unfold ret. cbv beta iota. cbn [fst snd].
    pose proof (quiet_trans _ _ _ _ _ Hq1 (quiet_trans _ _ _ _ _ Hq2 Hq3))
      as Hq13.
    destruct (IH (i + BATCH_SIZE)%nat (sc + 1)%nat fc w3)
      as (counts & w' & evs' & -> & Hq').
    { eapply quiet_ready; eassumption. }
    { destruct Hq13 as [_ ->]. exact Hrest. }
    exists counts, w'. eexists. split; [reflexivity|].
    eapply quiet_trans; eassumption.
Qed.

(** With an echo for a service, and no [$] in the texts extracted, the
    pipeline leaves the document as it was parsed: what it returns is the
    input itself when nothing was extracted and the serialized parse of
    the input otherwise. *)
Lemma echo_leaves_document htmlEnglish w :
  ready w ->
  (forall item, In item (collectTextNodes (load htmlEnglish)) ->
                ~ In dollar (trimmedText item)) ->
  exists w',
    translateHtmlStructureOptimized env htmlEnglish w
    = Fulfilled match collectTextNodes (load htmlEnglish) with
                | [] => htmlEnglish
                | _ :: _ => render (load htmlEnglish)
                end w'
    /\ document w' = load htmlEnglish.
Proof.
  intros Hready Hno. unfold translateHtmlStructureOptimized.
  cbn [textNodes setTextNodes record setDocument document env cheerioLoad
         cheerioHtml].
  set (doc := load htmlEnglish) in *.
  set (items := collectTextNodes doc) in *.
  assert (Hplain : Forall (plainItem doc) (sortByPriority items)).
  { apply Forall_forall. intros item Hin.
    apply (Permutation_in _ (sortByPriority_perm items)) in Hin.
    pose proof (Hno item Hin) as Hnd.
    apply collectTextNodes_sound in Hin as (Hchild & Htrim & Hq & _).
    repeat split; try assumption.
    eapply textChildOf_getData; eassumption. }
  destruct items as [|item0 items0] eqn:Hitems.
  - cbn [List.length Nat.eqb]. eexists. split; reflexivity.
  - cbn [List.length Nat.eqb]. rewrite <- Hitems in *.
    set (sorted := sortByPriority items) in *.
    set (w4 := setTextNodes sorted _).
    unfold processSequentialTranslation. unfold bind at 1. unfold bind at 1.
    rewrite sequentialLoop_unroll by lia. cbn [skipn].
    destruct (echo_loopOver (List.length sorted) sorted O O O w4 Hready Hplain)
      as (counts & w5 & evs & -> & [_ Hd5]).
    destruct (emit_spec (LogCompleted (fst counts) (snd counts)) w5)
      as (w6 & -> & [_ Hd6]).
    exists w6. rewrite Hd6, Hd5. split; reflexivity.
Qed.

End EchoFacts.

Section EchoExamples.

Open Scope Z_scope.

(** C1 fails on the code for a text that holds a [$] pattern.  The page
    [<html><head></head><body><p> Cost: $$5 </p></body></html>], which the
    serializer writes back as it is, comes out of the pipeline with
    [ Cost: $5 ] when the service echoes every text: [replace] expands
    the [$$] of the echoed text. *)
Theorem echo_translation_alters_dollar_text :
  renderPlain pricePage
  = js "<html><head></head><body><p> Cost: $$5 </p></body></html>"
  /\ exists w',
      translateHtmlStructureOptimized (sampleEnv echoService pricePage)
        (renderPlain pricePage) (startWorld 0 freshLimiter)
      = Fulfilled
          (js "<html><head></head><body><p> Cost: $5 </p></body></html>") w'
      /\ js "<html><head></head><body><p> Cost: $5 </p></body></html>"
         <> renderPlain pricePage.
Proof.
  split; [vm_compute; reflexivity|].
  eexists. split; [vm_compute; reflexivity | vm_compute; discriminate].
Qed.

(** Without a [$] the same round trip is lossless. *)
Example echo_keeps_plain_page :
  exists w',
    translateHtmlStructureOptimized (sampleEnv echoService headingLast)
      (renderPlain headingLast) (startWorld 0 freshLimiter)
    = Fulfilled (renderPlain headingLast) w'.
Proof. eexists. vm_compute. reflexivity. Qed.

End EchoExamples.

(** ** The accounts of a run *)

Section LimiterAccounts.

Open Scope Z_scope.

(** Purging at a later time makes an earlier purge redundant. *)
Lemma cleanOld_cleanOld t1 t2 tw l :
  t1 <= t2 -> cleanOld t2 tw (cleanOld t1 tw l) = cleanOld t2 tw l.
Proof.
  intros Hle. unfold cleanOld. induction l as [|x l IH]; [reflexivity|].
  simpl. destruct (Z.ltb_spec (t1 - x) tw) as [H1|H1]; simpl.
  - now rewrite IH.
  - rewrite IH. destruct (Z.ltb_spec (t2 - x) tw); [lia | reflexivity].
Qed.

(** The loop with one caller waiting: it admits the caller at some turn
    not before its timer, having purged the window at that time. *)
Lemma processQueue_single fuel :
  forall now rl r adm t rl',
    queue rl = [r] ->
    processQueue fuel now rl = Some (adm, t, rl') ->
    Z.max now (wakeAt rl) <= t
    /\ requests rl' = cleanOld t (timeWindow rl) (requests rl) ++ [t]
    /\ adm = [(r, t)].
Proof.
  induction fuel as [|fuel IH]; intros now rl r adm t rl' Hq Hrun;
    simpl in Hrun; rewrite Hq in Hrun; [discriminate|].
  unfold timerFires in Hrun. set (t1 := Z.max now (wakeAt rl)) in *.
  destruct (processQueueTurn_cases t1 rl r [] Hq) as [[Hlt Hstep] | [Hge Hstep]];
    rewrite Hstep in Hrun.
  - destruct fuel; simpl in Hrun; injection Hrun as <- <- <-;
      (split; [lia | split; reflexivity]).
  - match type of Hrun with
    | match processQueue fuel t1 ?rl1 with _ => _ end = _ =>
        destruct (processQueue fuel t1 rl1) as [[[adm1 tEnd] rlEnd]|] eqn:Hrec;
        [|discriminate];
        apply IH with (r := r) in Hrec as (Hle & Hreq & Hadm); [|reflexivity]
    end.
    injection Hrun as <- <- <-. simpl in Hle, Hreq.
    split; [lia|]. split; [|exact Hadm].
    rewrite Hreq, cleanOld_cleanOld by lia. reflexivity.
Qed.

(** A caller that finds nobody waiting is admitted no earlier than the
    loop can turn, and the window then holds what was left of it at that
    time and the time itself. *)
Lemma acquire_idle now resolve rl t rl' :
  queue rl = [] ->
  acquire now resolve rl = Some (t, rl') ->
  (if processing rl then Z.max now (wakeAt rl) else now) <= t
  /\ requests rl' = cleanOld t (timeWindow rl) (requests rl) ++ [t].
Proof.
  intros Hq. unfold acquire, wait. simpl. rewrite Hq. simpl.
  destruct (processing rl) eqn:Hp.
  - cbv beta iota zeta. cbn [queue].
    match goal with
    | |- match processQueue ?f now ?rl1 with _ => _ end = _ -> _ =>
        destruct (processQueue f now rl1) as [[[adm tEnd] rlEnd]|] eqn:Hrec;
        [|discriminate]
    end.
    intros H; injection H as <- <-.
    apply processQueue_single with (r := resolve) in Hrec as (Hle & Hreq & _);
      [|reflexivity].
    simpl in Hle, Hreq. split; assumption.
  - set (rl1 := mkRateLimiter (maxRequests rl) (timeWindow rl) (requests rl)
                  [resolve] false (wakeAt rl)).
    destruct (processQueueTurn_cases now rl1 resolve []) as
      [[Hlt Hstep] | [Hge Hstep]]; [reflexivity | |]; rewrite Hstep;
      cbv beta iota zeta; cbn [queue].
    + intros H; injection H as <- <-. split; [lia | reflexivity].
    + match goal with
      | |- match processQueue ?f now ?rl2 with _ => _ end = _ -> _ =>
          destruct (processQueue f now rl2) as [[[adm tEnd] rlEnd]|] eqn:Hrec;
          [|discriminate]
      end.
      intros H; injection H as <- <-.
      apply processQueue_single with (r := resolve) in Hrec as (Hle & Hreq & _);
        [|reflexivity].
      simpl in Hle, Hreq. split; [lia|].
      rewrite Hreq. unfold rl1. simpl. rewrite cleanOld_cleanOld by lia.
      reflexivity.
Qed.

End LimiterAccounts.

Section Accounts.

Variable env : Env.

Open Scope Z_scope.

Lemma paced_nil mx tw : paced mx tw [].
Proof. intros [|? ?] t post H; discriminate H. Qed.

Lemma paced_snoc mx tw adms t :
  paced mx tw adms ->
  Forall (fun a => a + 100 <= t) adms ->
  Z.of_nat (List.length (filter (fun a => t - tw <? a) adms)) < mx ->
  paced mx tw (adms ++ [t]).
Proof.
  intros Hp Hall Hcount pre x post Heq.
  destruct (exists_last (l := x :: post)) as (post' & y & Hlast);
    [discriminate|].
  rewrite Hlast, app_assoc in Heq.
  apply app_inj_tail in Heq as [Hadms <-].
  destruct post' as [|z post'].
  - simpl in Hlast. injection Hlast as ->.
    rewrite app_nil_r in Hadms. subst pre. now split.
  - simpl in Hlast. injection Hlast as -> Hpost.
    apply (Hp pre z post'). exact Hadms.
Qed.

Lemma admissions_app l1 l2 :
  admissions (l1 ++ l2) = admissions l1 ++ admissions l2.
Proof. apply flat_map_app. Qed.

Lemma sleptTotal_app l1 l2 :
  sleptTotal (l1 ++ l2) = sleptTotal l1 + sleptTotal l2.
Proof.
  induction l1 as [|e l1 IH]; [reflexivity|].
  destruct e; simpl; fold (sleptTotal (l1 ++ l2)); fold (sleptTotal l1);
    rewrite IH; lia.
Qed.

Lemma timerDelay_pos ms : 1 <= timerDelay ms.
Proof.
  unfold timerDelay. destruct ms as [d|]; [|lia].
  destruct (Z.ltb_spec d 1); lia.
Qed.

Lemma sleptTotal_nonneg l : 0 <= sleptTotal l.
Proof.
  induction l as [|e l IH]; simpl; [lia|].
  destruct e; try assumption.
  destruct (Z.ltb_spec ms 1); lia.
Qed.

(** The distinct admissions of a paced history. *)
Lemma paced_NoDup mx tw adms : paced mx tw adms -> NoDup adms.
Proof.
  induction adms as [|t adms IH] using rev_ind; intros Hp; [constructor|].
  assert (Hpre : paced mx tw adms).
  { intros pre x post Heq. apply (Hp pre x (post ++ [t])).
    rewrite Heq, <- app_assoc. reflexivity. }
  destruct (Hp adms t [] eq_refl) as [Hall _].
  apply NoDup_app; [now apply IH | repeat constructor; intros [] |].
  intros a Ha [<-|[]]. rewrite Forall_forall in Hall.
  specialize (Hall _ Ha). lia.
Qed.

Ltac split_accounts :=
  unfold accounts; split; [|split; [|split; [|split; [|split; [|split]]]]].

Ltac split_step :=
  split_accounts; unfold countEvents; cbn [filter isPosted List.length].

Lemma accounts_refl w : accounts w w [].
Proof.
  split_step; simpl; rewrite ?app_nil_r; try reflexivity; try lia;
    [|constructor].
  intros adms. now rewrite app_nil_r.
Qed.

Lemma accounts_trans w w1 w2 e1 e2 :
  accounts w w1 e1 -> accounts w1 w2 e2 -> accounts w w2 (e1 ++ e2).
Proof.
  intros (Ht & Hm & Hw & Hp & Hn & Htr & Hin)
         (Ht' & Hm' & Hw' & Hp' & Hn' & Htr' & Hin').
  pose proof (sleptTotal_nonneg e1). pose proof (sleptTotal_nonneg e2).
  split_accounts;
    rewrite ?Ht', ?Ht, ?Hp', ?Hp, ?app_assoc, ?countEvents_app,
      ?sleptTotal_app;
    try congruence; try lia.
  - intros adms Hadms. rewrite admissions_app, app_assoc.
    apply Htr', Htr, Hadms.
  - rewrite admissions_app. apply Forall_app. split.
    + eapply Forall_impl; [|exact Hin]. intros a Ha. simpl in Ha. lia.
    + eapply Forall_impl; [|exact Hin']. intros a Ha. simpl in Ha. lia.
Qed.

Lemma accounts_ready w w' evs : accounts w w' evs -> ready w -> ready w'.
Proof. intros (_ & Hm & _). unfold ready. now rewrite Hm. Qed.

(** [tracks] looks at the clock and at the limiter only. *)
Lemma tracks_ext adms w w' :
  now w' = now w -> translationLimiter w' = translationLimiter w ->
  tracks adms w -> tracks adms w'.
Proof.
  intros Hn Hl. unfold tracks, due. now rewrite Hn, Hl.
Qed.

Lemma settle_idle t rl :
  queue rl = [] ->
  queue (settle t rl) = [] /\ requests (settle t rl) = requests rl
  /\ (if processing (settle t rl) then Z.max t (wakeAt (settle t rl)) else t)
     >= (if processing rl then Z.max t (wakeAt rl) else t).
Proof.
  intros Hq. unfold settle. rewrite Hq.
  destruct (processing rl) eqn:Hp; simpl.
  - destruct (Z.leb_spec (wakeAt rl) t) as [Hle|Hgt].
    + unfold processQueueTurn. rewrite Hq. simpl.
      repeat split; try lia.
    + rewrite Hp. repeat split; try lia; assumption.
  - rewrite Hp. repeat split; try lia; assumption.
Qed.

Lemma tracks_elapse adms d w :
  0 <= d -> tracks adms w -> tracks adms (elapse d w).
Proof.
  intros Hd (Hq & Hdue & Hin & Hp).
  destruct (settle_idle (now w + d) (translationLimiter w) Hq)
    as (Hq' & Hreq & Hge).
  destruct (settle_config (now w + d) (translationLimiter w)) as [Hm Ht].
  unfold tracks, due in *. simpl. rewrite Hm, Ht, Hreq.
  split; [exact Hq'|]. split; [|split; [|exact Hp]].
  - eapply Forall_impl; [|exact Hdue]. intros a Ha. simpl in Ha.
    destruct (processing (translationLimiter w));
      destruct (processing (settle (now w + d) (translationLimiter w))); lia.
  - eapply Forall_impl; [|exact Hin]. intros a [Ha|Ha]; [now left | right; lia].
Qed.

Lemma accounts_record e w : isConsole e = true -> accounts w (record e w) [e].
Proof.
  intros He.
  assert (Hc : countEvents isPosted [e] = O) by (destruct e; easy).
  assert (Hs : sleptTotal [e] = 0) by (destruct e; easy).
  assert (Ha : admissions [e] = []) by (destruct e; easy).
  split_accounts; rewrite ?Hc, ?Hs, ?Ha; simpl; try reflexivity; try lia;
    [|constructor].
  intros adms Hadms. rewrite app_nil_r.
  now apply tracks_ext with (w := w).
Qed.

Lemma emit_accounts e w :
  isConsole e = true ->
  exists w', emit e w = Fulfilled tt w' /\ accounts w w' [e]
             /\ document w' = document w.
Proof.
  intros He. eexists. split; [reflexivity|].
  split; [now apply accounts_record | reflexivity].
Qed.

Lemma accounts_elapse d w : 0 <= d -> accounts w (elapse d w) [].
Proof.
  intros Hd. destruct (settle_config (now w + d) (translationLimiter w))
    as [Hm Ht].
  split_step; simpl; rewrite ?app_nil_r; try reflexivity; try lia;
    try assumption; [|constructor].
  intros adms Hadms. rewrite app_nil_r. now apply tracks_elapse.
Qed.

Lemma sleep_accounts ms w :
  exists w', sleep ms w = Fulfilled tt w' /\ accounts w w' [Slept ms]
             /\ document w' = document w.
Proof.
  unfold sleep. eexists. split; [reflexivity|]. split; [|reflexivity].
  pose proof (timerDelay_pos (Some ms)) as Hpos.
  set (d := timerDelay (Some ms)) in *.
  destruct (settle_config (now w + d) (translationLimiter w)) as [Hm Ht].
  split_step; simpl; try reflexivity; try lia; try assumption.
  { unfold d, timerDelay. destruct (ms <? 1); lia. }
  { intros adms Hadms. rewrite app_nil_r.
    apply (tracks_elapse adms d (record (Slept ms) w)); [lia|].
    now apply tracks_ext with (w := w). }
  constructor.
Qed.

Lemma httpPost_accounts payload w :
  exists w',
    accounts w w' [Posted payload] /\ document w' = document w
    /\ httpPost env payload w
       = match result (service env (postCount w) payload) with
         | PostRejected message => Rejected message w'
         | PostResolved data => Fulfilled data w'
         end.
Proof.
  unfold httpPost. eexists. split; [|split; [|reflexivity]]; [|reflexivity].
  set (d := Z.max 0 (latency (service env (postCount w) payload))).
  assert (Hd : 0 <= d) by (unfold d; lia).
  match goal with
  | |- accounts _ (elapse d ?w0) _ =>
      destruct (settle_config (now w0 + d) (translationLimiter w0)) as [Hm Ht];
      pose proof (tracks_elapse) as Hel; set (w1 := w0) in *
  end.
  split_step; simpl in *; try reflexivity; try lia; try assumption;
    [|constructor].
  intros adms Hadms. rewrite app_nil_r.
  apply (Hel adms d w1 Hd). now apply tracks_ext with (w := w).
Qed.

Lemma drawJitter_accounts w :
  exists w', drawJitter env w = Fulfilled (jitter env (randomCount w)) w'
             /\ accounts w w' [] /\ document w' = document w.
Proof.
  eexists. split; [reflexivity|]. split; [|reflexivity].
  split_step; simpl; rewrite ?app_nil_r; try reflexivity; try lia;
    [|constructor].
  intros adms Hadms. rewrite app_nil_r. now apply tracks_ext with (w := w).
Qed.

(** The admission of the pipeline by the limiter of a ready world. *)
Lemma limiterWait_accounts w :
  ready w ->
  exists t w', limiterWait w = Fulfilled tt w' /\ accounts w w' [Acquired t]
               /\ document w' = document w.
Proof.
  intros Hready. unfold limiterWait.
  destruct (acquire_terminates (now w) O (translationLimiter w) Hready)
    as (t & rl' & Hacq).
  rewrite Hacq. exists t. eexists. split; [reflexivity|].
  split; [|reflexivity].
  pose proof Hacq as Hres.
  apply acquire_result in Hres
    as [(Hm & Ht & Hq' & Hp' & Hw' & kept & Hreq & Hlen & Hfresh) Hle].
  split_step; simpl; try reflexivity; try lia; try assumption;
    [|constructor; [lia | constructor]].
  intros adms (Hq & Hdue & Hin & Hpaced).
  apply acquire_idle in Hacq as [Hdue' Hreq']; [|exact Hq].
  rewrite Hreq' in Hreq. apply app_inj_tail in Hreq as [Hkept _].
  unfold tracks, due in *. simpl. rewrite Hp', Hw', Hm, Ht.
  split; [exact Hq'|].
  assert (Hbefore : Forall (fun a => a + 100 <= t) adms).
  { eapply Forall_impl; [|exact Hdue]. intros a Ha. simpl in Ha. lia. }
  split.
  { apply Forall_app. split; [|repeat constructor; lia].
    eapply Forall_impl; [|exact Hbefore]. intros a Ha. simpl in Ha. lia. }
  rewrite Forall_forall in Hin.
  split.
  { apply Forall_app. split.
    - apply Forall_forall. intros a Ha.
      destruct (Hin a Ha) as [Hold | Hgone]; [|right; lia].
      destruct (Z.ltb_spec (t - a) (timeWindow (translationLimiter w)))
        as [Hlt|Hge]; [left | right; lia].
      rewrite Hreq'. apply in_or_app. left.
      apply filter_In. split; [exact Hold | now apply Z.ltb_lt].
    - constructor; [|constructor]. left. rewrite Hreq'. apply in_or_app.
      right. now left. }
  apply paced_snoc; [exact Hpaced | exact Hbefore |].
  eapply Z.le_lt_trans; [|exact Hlen].
  apply inj_le. apply NoDup_incl_length.
  - apply NoDup_filter. eapply paced_NoDup; eassumption.
  - intros a Ha. apply filter_In in Ha as [Ha Hlt].
    apply Z.ltb_lt in Hlt. rewrite <- Hkept.
    destruct (Hin a Ha) as [Hold | Hgone]; [|lia].
    apply filter_In. split; [exact Hold | apply Z.ltb_lt; lia].
Qed.

(** One attempt, with what the service answered. *)
Lemma attemptOnce_accounts text tag index w :
  ready w ->
  exists t w',
    accounts w w' (Acquired t :: stagger index ++ [Posted (payloadFor text tag)])
    /\ document w' = document w
    /\ attemptOnce env text tag index w
       = match attemptResult
                 (result (service env (postCount w) (payloadFor text tag))) with
         | inl v => Fulfilled v w'
         | inr cause => Rejected cause w'
         end.
Proof.
  intros Hready. unfold attemptOnce, bind.
  destruct (limiterWait_accounts w Hready) as (t & w1 & -> & Ha1 & Hd1).
  assert (Hstag : exists w2,
             (if (0 <? index)%Z then sleep (index * 100) else ret tt) w1
             = Fulfilled tt w2 /\ accounts w1 w2 (stagger index)
             /\ document w2 = document w1).
  { unfold stagger. destruct (0 <? index)%Z.
    - apply sleep_accounts.
    - eexists. split; [reflexivity|]. split; [apply accounts_refl | reflexivity]. }
  destruct Hstag as (w2 & -> & Ha2 & Hd2).
  fold (payloadFor text tag).
  destruct (httpPost_accounts (payloadFor text tag) w2) as (w3 & Ha3 & Hd3 & ->).
  exists t, w3.
  assert (Hn : postCount w2 = postCount w).
  { destruct Ha1 as (_ & _ & _ & Hp1 & _), Ha2 as (_ & _ & _ & Hp2 & _).
    rewrite Hp2, Hp1. unfold countEvents, stagger. simpl.
    destruct (0 <? index)%Z; simpl; lia. }
  rewrite Hn.
  split.
  - change (Acquired t :: stagger index ++ [Posted (payloadFor text tag)])
      with ([Acquired t] ++ stagger index ++ [Posted (payloadFor text tag)]).
    eapply accounts_trans; [eassumption|].
    eapply accounts_trans; eassumption.
  - split; [congruence|].
    unfold attemptResult.
    destruct (result _) as [message | [v|]]; try reflexivity.
    destruct (jsTruthy v); reflexivity.
Qed.

(** The loop of [translateWithRetry] settles, and its run is one of the
    runs [retryRun] describes. *)
Lemma retryLoop_run text tag index maxRetries remaining :
  forall attempt w,
    ready w ->
    Z.of_nat remaining = Z.max 0 (maxRetries - attempt + 1) ->
    exists out w' evs,
      retryLoop env text tag index maxRetries remaining attempt w
      = settled out w'
      /\ accounts w w' evs
      /\ document w' = document w
      /\ retryRun env (payloadFor text tag) index maxRetries
                  (substring0 30 text) attempt (postCount w) evs out.
Proof.
  induction remaining as [|remaining IH]; intros attempt w Hready Hrem.
  - exists (Returned JsUndefined), w, [].
    split; [reflexivity|]. split; [apply accounts_refl|].
    split; [reflexivity | constructor; lia].
  - cbn [retryLoop].
    destruct (attemptOnce_accounts text tag index w Hready)
      as (t & w1 & Ha1 & Hd1 & ->).
    destruct (attemptResult _) as [v | cause] eqn:Hres.
    + exists (Returned v), w1. eexists.
      split; [reflexivity|]. split; [exact Ha1|]. split; [exact Hd1|].
      constructor; [lia | exact Hres].
    + unfold bind.
      destruct (emit_accounts
                  (WarnAttempt attempt maxRetries (substring0 30 text) cause)
                  w1 eq_refl)
        as (w2 & -> & Ha2 & Hd2).
      pose proof (accounts_trans _ _ _ _ _ Ha1 Ha2) as Ha12.
      cbn [app] in Ha12. rewrite <- ?app_assoc in Ha12. cbn [app] in Ha12.
      destruct (Z.eqb_spec attempt maxRetries) as [->|Hne].
      * exists (Failed (js "All retries failed: " ++ cause)), w2. eexists.
        split; [reflexivity|]. split; [exact Ha12|].
        split; [congruence | constructor; exact Hres].
      * destruct (drawJitter_accounts w2) as (w3 & -> & Ha3 & Hd3).
        destruct (sleep_accounts
                    (2 ^ attempt * 1000 + jitter env (randomCount w2)) w3)
          as (w4 & -> & Ha4 & Hd4).
        pose proof (accounts_trans _ _ _ _ _ Ha12
                      (accounts_trans _ _ _ _ _ Ha3 Ha4)) as Ha14.
        destruct (IH (attempt + 1)%Z w4) as (out & w5 & evs & -> & Ha5 & Hd5 & Hrun).
        { eapply accounts_ready; eassumption. }
        { lia. }
        exists out, w5. eexists.
        split; [reflexivity|].
        split; [apply (accounts_trans _ _ _ _ _ Ha14 Ha5)|].
        split; [congruence|].
        cbn [app]. rewrite <- ?app_assoc. cbn [app].
        eapply rr_retry; [lia | exact Hres |].
        assert (Hn : postCount w4 = S (postCount w)).
        { destruct Ha14 as (_ & _ & _ & Hp & _). rewrite Hp.
          rewrite countEvents_app.
          unfold countEvents, stagger. cbn [filter isPosted List.length app].
          rewrite filter_app. destruct (0 <? index)%Z; simpl; lia. }
        rewrite <- Hn. exact Hrun.
Qed.

Lemma translateWithRetry_run text tag index maxRetries w :
  ready w ->
  exists out w' evs,
    translateWithRetry env text tag index maxRetries w = settled out w'
    /\ accounts w w' evs
    /\ document w' = document w
    /\ retryRun env (payloadFor text tag) index maxRetries
                (substring0 30 text) 1 (postCount w) evs out.
Proof.
  intros Hready. apply retryLoop_run; [assumption | lia].
Qed.

(** A run of [retryRun] is one of the traces of [retryTrace]. *)
Lemma retryRun_trace payload index maxRetries text30 attempt n evs out :
  retryRun env payload index maxRetries text30 attempt n evs out ->
  retryTrace index maxRetries text30 attempt evs out.
Proof.
  induction 1.
  - now constructor.
  - constructor; [assumption|].
    unfold attemptResult in H0.
    destruct (result _) as [m | [v|]]; try discriminate.
    destruct (jsTruthy v) eqn:Hv; [|discriminate]. now injection H0 as <-.
  - constructor.
  - now apply rt_retry.
Qed.

Lemma itemTail_console item out :
  Forall (fun e => isConsole e = true) (itemTail item out).
Proof.
  unfold itemTail. destruct out as [[|s|[|]]|message];
    try destruct (truthy s && _); repeat constructor.
Qed.

Lemma console_silent l :
  Forall (fun e => isConsole e = true) l ->
  countEvents isPosted l = O /\ countEvents isAcquired l = O
  /\ admissions l = [] /\ sleptTotal l = 0.
Proof.
  unfold countEvents.
  induction 1 as [|e l He _ (IH1 & IH2 & IH3 & IH4)]; [now repeat split|].
  destruct e; try discriminate; simpl; auto.
Qed.

Lemma accounts_console w evs :
  Forall (fun e => isConsole e = true) evs ->
  accounts w (fold_left (fun v e => record e v) evs w) evs.
Proof.
  intros Hall. revert w. induction Hall as [|e evs He _ IH]; intros w.
  - apply accounts_refl.
  - simpl. change (e :: evs) with ([e] ++ evs).
    eapply accounts_trans; [now apply accounts_record | apply IH].
Qed.

(** A turn of [processBatchSequential]: an admission, the run of
    [translateWithRetry], and what [itemTail] and [itemDocument] say. *)
Lemma processItem_run i item w :
  ready w ->
  exists t out w' evs,
    processItem env i item w = Fulfilled tt w'
    /\ accounts w w' (Acquired t :: evs ++ itemTail item out)
    /\ retryRun env (payloadFor (trimmedText item) (tagName item))
                (Z.of_nat i) defaultMaxRetries
                (substring0 30 (trimmedText item)) 1 (postCount w) evs out
    /\ document w' = itemDocument item out (document w).
Proof.
  intros Hready. unfold processItem, tryCatch, bind.
  destruct (limiterWait_accounts w Hready) as (t & w1 & -> & Ha1 & Hd1).
  destruct (translateWithRetry_run (trimmedText item) (tagName item)
              (Z.of_nat i) defaultMaxRetries w1
              (accounts_ready _ _ _ Ha1 Hready))
    as (out & w2 & evs & -> & Ha2 & Hd2 & Hrun).
  assert (Hn : postCount w1 = postCount w).
  { destruct Ha1 as (_ & _ & _ & Hp & _). rewrite Hp. unfold countEvents.
    simpl. lia. }
  rewrite Hn in Hrun.
  pose proof (accounts_trans _ _ _ _ _ Ha1 Ha2) as Ha12. cbn [app] in Ha12.
  exists t, out.
  assert (Hdone : forall w3 tail,
             accounts w2 w3 tail ->
             accounts w w3 (Acquired t :: evs ++ tail)).
  { intros w3 tail Ha3.
    change (Acquired t :: evs ++ tail) with ((Acquired t :: evs) ++ tail).
    eapply accounts_trans; eassumption. }
  assert (Hskip : accounts w w2 (Acquired t :: evs ++ [])).
  { apply Hdone, accounts_refl. }
  destruct out as [v | message]; cbn [settled].
  - destruct v as [|s|[|]]; cbn [writeBack ret throw itemTail itemDocument].
    + exists w2, evs. split; [reflexivity|]. split; [exact Hskip|].
      split; [exact Hrun | congruence].
    + destruct (truthy s && (0 <? List.length (trim s))%nat) eqn:Hacc.
      * unfold bind, assignData, ret.
        eexists. exists evs. split; [reflexivity|].
        split; [|split; [exact Hrun | simpl; congruence]].
        apply Hdone.
        match goal with
        | |- accounts _ (record ?e ?w0) _ =>
            apply accounts_trans with (w1 := w0) (e1 := []) (e2 := [e])
        end; [|now apply accounts_record].
        destruct (accounts_refl w2) as (H1 & H2 & H3 & H4 & H5 & H6 & H7).
        split_accounts; assumption.
      * exists w2, evs. split; [reflexivity|]. split; [exact Hskip|].
      split; [exact Hrun | congruence].
    + eexists. exists evs. split; [reflexivity|].
      split; [|split; [exact Hrun | simpl; congruence]].
      apply Hdone. now apply accounts_record.
    + exists w2, evs. split; [reflexivity|]. split; [exact Hskip|].
      split; [exact Hrun | congruence].
  - cbn [itemTail itemDocument].
    eexists. exists evs. split; [reflexivity|].
    split; [|split; [exact Hrun | simpl; congruence]].
    apply Hdone. now apply accounts_record.
Qed.

(** Writing the data of a text node changes no structure. *)
Lemma shape_setData p v :
  forall n, shape (setData p v n) = shape n.
Proof.
  induction p as [|i p IH]; intros n.
  - now destruct n.
  - assert (Hmap : forall cs,
               map shape (alterNth (setData p v) i cs) = map shape cs).
    { intros cs. revert i. induction cs as [|c cs IHcs]; intros [|i];
        simpl; try reflexivity; [now rewrite IH | now rewrite IHcs]. }
    destruct n; simpl; try reflexivity; now rewrite Hmap.
Qed.

Lemma shape_itemDocument item out doc :
  shape (itemDocument item out doc) = shape doc.
Proof.
  unfold itemDocument. destruct out as [[|s|b]|message]; try reflexivity.
  destruct (truthy s && _); [apply shape_setData | reflexivity].
Qed.

(** The loop over the items left: it completes, counts every item as a
    success, and its run is one of the runs [loopRun] describes. *)
Lemma loopOver_run total rest :
  forall i sc fc w,
    ready w ->
    exists w' evs outs,
      loopOver env total rest i sc fc w
      = Fulfilled ((sc + List.length rest)%nat, fc) w'
      /\ accounts w w' evs
      /\ shape (document w') = shape (document w)
      /\ document w' = writeAll rest outs (document w)
      /\ loopRun env total rest outs i (postCount w) evs.
Proof.
  induction rest as [|item rest IH]; intros i sc fc w Hready.
  - exists w, [], []. rewrite Nat.add_0_r. split; [reflexivity|].
    split; [apply accounts_refl|]. split; [reflexivity|].
    split; [reflexivity | constructor].
  - cbn [loopOver]. unfold bind at 1.
    destruct (emit_accounts (LogProcessingItem (i + 1) total [node item]) w
                eq_refl) as (w1 & -> & Ha1 & Hd1).
    unfold bind at 1. unfold tryCatch, processBatchSequential.
    cbn [processBatchSequentialFrom]. unfold bind at 1. unfold bind at 1.
    unfold bind at 1.
    destruct (processItem_run O item w1 (accounts_ready _ _ _ Ha1 Hready))
      as (t & out & w2 & evs2 & -> & Ha2 & Hrun & Hd2).
    cbn [ret processBatchSequentialFrom].
    assert (Hpause : exists w3,
               (if (i + BATCH_SIZE <? total)%nat
                then sleep DELAY_BETWEEN_REQUESTS else ret tt) w2
               = Fulfilled tt w3
               /\ accounts w2 w3 (if (i + 1 <? total)%nat
                                  then [Slept DELAY_BETWEEN_REQUESTS] else [])
               /\ document w3 = document w2).
    { unfold BATCH_SIZE. destruct (i + 1 <? total)%nat.
      - destruct (sleep_accounts DELAY_BETWEEN_REQUESTS w2) as (w3 & H1 & H2 & H3).
        eauto.
      - eexists. split; [reflexivity|]. split; [apply accounts_refl | reflexivity]. }
    destruct Hpause as (w3 & -> & Ha3 & Hd3).
    unfold ret. cbv beta iota. cbn [fst snd].
    assert (Hready3 : ready w3).
    { eapply accounts_ready; [exact Ha3|].
      eapply accounts_ready; [exact Ha2|].
      eapply accounts_ready; eassumption. }
    destruct (IH (i + BATCH_SIZE)%nat (sc + 1)%nat fc w3 Hready3)
      as (w' & evs' & outs & -> & Ha' & Hshape' & Hdoc' & Hrun').
    exists w'. eexists. exists (out :: outs).
    split.
    { f_equal. f_equal. simpl. lia. }
    pose proof (accounts_trans _ _ _ _ _ Ha1
                  (accounts_trans _ _ _ _ _ Ha2
                     (accounts_trans _ _ _ _ _ Ha3 Ha'))) as Hall.
    cbn [app] in Hall. rewrite <- ?app_assoc in Hall.
    split; [exact Hall|].
    split.
    { now rewrite Hshape', Hd3, Hd2, shape_itemDocument, Hd1. }
    split.
    { cbn [writeAll]. now rewrite Hdoc', Hd3, Hd2, Hd1. }
    assert (Hn1 : postCount w1 = postCount w).
    { destruct Ha1 as (_ & _ & _ & Hp & _). rewrite Hp. unfold countEvents.
      simpl. lia. }
    rewrite Hn1 in Hrun.
    apply lr_turn; [exact Hrun|].
    assert (Hn3 : postCount w3
                  = (postCount w + countEvents isPosted evs2)%nat).
    { destruct Ha2 as (_ & _ & _ & Hp2 & _), Ha3 as (_ & _ & _ & Hp3 & _).
      rewrite Hp3, Hp2, Hn1.
      change (Acquired t :: evs2 ++ itemTail item out)
        with ([Acquired t] ++ evs2 ++ itemTail item out).
      rewrite !countEvents_app.
      destruct (console_silent _ (itemTail_console item out)) as [Htail _].
      rewrite Htail. unfold countEvents at 1. simpl.
      destruct (i + 1 <? total)%nat; unfold countEvents; simpl; lia. }
    unfold BATCH_SIZE in Hrun'. rewrite Hn3 in Hrun'. exact Hrun'.
Qed.

(** The whole pipeline from a ready world. *)
Lemma pipeline_run htmlEnglish w :
  ready w ->
  let items := sortByPriority (collectTextNodes (cheerioLoad env htmlEnglish)) in
  let n := List.length items in
  exists out w' evs,
    translateHtmlStructureOptimized env htmlEnglish w = Fulfilled out w'
    /\ accounts w w' (LogFound n :: evs)
    /\ shape (document w') = shape (cheerioLoad env htmlEnglish)
    /\ match items with
       | [] => evs = []
       | _ :: _ =>
           exists run outs,
             evs = run ++ [LogCompleted n O]
             /\ document w' = writeAll items outs (cheerioLoad env htmlEnglish)
             /\ loopRun env n items outs O (postCount w) run
       end.
Proof.
  intros Hready items n. unfold translateHtmlStructureOptimized.
  cbn [textNodes setTextNodes record setDocument document].
  assert (Hlen : List.length (collectTextNodes (cheerioLoad env htmlEnglish))
                 = n).
  { symmetry. apply Permutation_length, sortByPriority_perm. }
  rewrite Hlen. fold items.
  assert (Hstart : forall w0,
             now w0 = now w -> translationLimiter w0 = translationLimiter w ->
             postCount w0 = postCount w -> trace w0 = trace w ++ [LogFound n] ->
             accounts w w0 [LogFound n]).
  { intros w0 Hn Hl Hp Ht. split_accounts; rewrite ?Hl, ?Hn, ?Hp, ?Ht;
      unfold countEvents; simpl; try reflexivity; try lia; [|constructor].
    intros adms Hadms. rewrite app_nil_r.
    now apply tracks_ext with (w := w). }
  destruct (Nat.eqb_spec n 0) as [Hn0|Hn0].
  - do 2 eexists. exists []. split; [reflexivity|].
    split; [now apply Hstart|]. split; [reflexivity|].
    destruct items; [reflexivity | discriminate].
  - set (w4 := setTextNodes items _).
    assert (Ha4 : accounts w w4 [LogFound n]) by now apply Hstart.
    unfold processSequentialTranslation. unfold bind at 1. unfold bind at 1.
    rewrite sequentialLoop_unroll by lia. cbn [skipn].
    destruct (loopOver_run (List.length items) items O O O w4
                (accounts_ready _ _ _ Ha4 Hready))
      as (w5 & run & outs & -> & Ha5 & Hshape5 & Hdoc5 & Hrun).
    cbn [fst snd Nat.add]. fold n.
    destruct (emit_accounts (LogCompleted n O) w5 eq_refl)
      as (w6 & -> & Ha6 & Hd6).
    do 2 eexists. exists (run ++ [LogCompleted n O]).
    split; [reflexivity|].
    split.
    { change (LogFound n :: run ++ [LogCompleted n O])
        with ([LogFound n] ++ run ++ [LogCompleted n O]).
      eapply accounts_trans; [exact Ha4|].
      eapply accounts_trans; eassumption. }
    split.
    { cbn [document]. rewrite Hd6, Hshape5. reflexivity. }
    destruct items as [|item0 items0] eqn:Hitems; [contradiction|].
    exists run, outs. split; [reflexivity|].
    split; [cbn [document]; rewrite Hd6; exact Hdoc5|].
    assert (Hp4 : postCount w4 = postCount w) by reflexivity.
    rewrite <- Hp4. exact Hrun.
Qed.

(** *** What the runs hold *)

Lemma countEvents_cons f e l :
  countEvents f (e :: l) = ((if f e then 1 else 0) + countEvents f l)%nat.
Proof. unfold countEvents. simpl. destruct (f e); reflexivity. Qed.

Lemma stagger_silent index :
  countEvents isPosted (stagger index) = O
  /\ countEvents isAcquired (stagger index) = O
  /\ admissions (stagger index) = [].
Proof. unfold stagger. destruct (0 <? index)%Z; now repeat split. Qed.

(** Every request of a run follows an admission of its own, and the
    requests are as many as the attempts allow. *)
Lemma retryRun_counts payload index maxRetries text30 attempt n evs out :
  retryRun env payload index maxRetries text30 attempt n evs out ->
  countEvents isAcquired evs = countEvents isPosted evs
  /\ Z.of_nat (countEvents isPosted evs) <= Z.max 0 (maxRetries - attempt + 1)
  /\ (attempt <= maxRetries -> (1 <= countEvents isPosted evs)%nat).
Proof.
  destruct (stagger_silent index) as (Hsp & Hsa & _).
  induction 1 as [attempt n Hlt | attempt n t value Hle Hres
                 | n t cause Hres
                 | attempt n t cause r evs outcome Hlt Hres Hrun (IH1 & IH2 & IH3)];
    rewrite ?countEvents_cons, ?countEvents_app, ?Hsp, ?Hsa;
    rewrite ?countEvents_cons, ?countEvents_app; cbn [isPosted isAcquired];
    change (countEvents isPosted []) with O;
    change (countEvents isAcquired []) with O;
    (split; [|split]); lia.
Qed.

(** What the service answered to the requests of a run: every request but
    the last failed, and the last decides how the run ends. *)
Lemma retryRun_replies payload index maxRetries text30 attempt n evs out :
  retryRun env payload index maxRetries text30 attempt n evs out ->
  attempt <= maxRetries ->
  exists k,
    countEvents isPosted evs = S k
    /\ (forall j, (j < k)%nat ->
          exists cause,
            attemptResult (result (service env (n + j) payload)) = inr cause)
    /\ match out with
       | Returned v =>
           attemptResult (result (service env (n + k) payload)) = inl v
       | Failed message =>
           Z.of_nat k = maxRetries - attempt
           /\ exists cause,
               attemptResult (result (service env (n + k) payload)) = inr cause
               /\ message = js "All retries failed: " ++ cause
       end.
Proof.
  destruct (stagger_silent index) as (Hsp & _ & _).
  induction 1 as [attempt n Hlt | attempt n t value Hle Hres
                 | n t cause Hres
                 | attempt n t cause r evs outcome Hlt Hres Hrun IH];
    intros Hatt.
  - lia.
  - exists O. rewrite Nat.add_0_r.
    rewrite countEvents_cons, countEvents_app, Hsp. cbn [isAcquired isPosted].
    split; [reflexivity|]. split; [intros j Hj; lia | exact Hres].
  - exists O. rewrite Nat.add_0_r.
    rewrite countEvents_cons, countEvents_app, Hsp. cbn [isAcquired isPosted].
    split; [reflexivity|]. split; [intros j Hj; lia|].
    split; [lia | eauto].
  - destruct IH as (k & Hk & Hfail & Hout); [lia|].
    exists (S k).
    rewrite countEvents_cons, countEvents_app, Hsp, countEvents_app, Hk.
    cbn [isAcquired isPosted].
    split; [reflexivity|]. split.
    + intros [|j] Hj.
      * rewrite Nat.add_0_r. eauto.
      * rewrite Nat.add_succ_r. apply Hfail. lia.
    + rewrite Nat.add_succ_r. destruct outcome as [v | message]; [exact Hout|].
      destruct Hout as (Hk' & cause' & Hc & Hm). split; [lia | eauto].
Qed.

Lemma retryRun_payloads payload index maxRetries text30 attempt n evs out :
  retryRun env payload index maxRetries text30 attempt n evs out ->
  forall p, In (Posted p) evs -> p = payload.
Proof.
  assert (Hst : forall p, ~ In (Posted p) (stagger index)).
  { intros p. unfold stagger. destruct (0 <? index)%Z; [|intros []].
    intros [H|[]]; discriminate. }
  induction 1 as [attempt n Hlt | attempt n t value Hle Hres
                 | n t cause Hres
                 | attempt n t cause r evs outcome Hlt Hres Hrun IH];
    intros p Hin.
  - destruct Hin.
  - destruct Hin as [H|Hin]; [discriminate|].
    apply in_app_or in Hin as [Hin|[Hin|[]]]; [now apply Hst in Hin|].
    now injection Hin as <-.
  - destruct Hin as [H|Hin]; [discriminate|].
    apply in_app_or in Hin as [Hin|[Hin|[Hin|[]]]];
      [now apply Hst in Hin | now injection Hin as <- | discriminate].
  - destruct Hin as [H|Hin]; [discriminate|].
    apply in_app_or in Hin as [Hin|Hin]; [now apply Hst in Hin|].
    apply in_app_or in Hin as [[Hin|[Hin|[Hin|[]]]]|Hin];
      [now injection Hin as <- | discriminate | discriminate | now apply IH].
Qed.

Lemma retryRun_events payload index maxRetries text30 attempt n evs out :
  retryRun env payload index maxRetries text30 attempt n evs out ->
  Forall (fun e => retryEvent e = true) evs.
Proof.
  intros Hrun. eapply retryTrace_events, retryRun_trace, Hrun.
Qed.

Lemma retryEvents_lines evs :
  Forall (fun e => retryEvent e = true) evs ->
  progressLines evs = []
  /\ Forall (fun e => isBatchFailure e = false) evs
  /\ Forall (fun e => forall s f, e <> LogCompleted s f) evs.
Proof.
  induction 1 as [|e evs He _ (IH1 & IH2 & IH3)]; [now repeat split|].
  unfold progressLines in *. simpl. rewrite IH1.
  destruct e; try discriminate; repeat split; try constructor;
    try assumption; try reflexivity; intros s f; discriminate.
Qed.

Lemma console_tail_lines item out :
  progressLines (itemTail item out) = []
  /\ Forall (fun e => isBatchFailure e = false) (itemTail item out)
  /\ Forall (fun e => forall s f, e <> LogCompleted s f) (itemTail item out).
Proof.
  assert (Hone : forall e, isConsole e = true -> progressLines [e] = [] ->
                             isBatchFailure e = false ->
                             (forall s f, e <> LogCompleted s f) ->
                             progressLines [e] = []
                             /\ Forall (fun e => isBatchFailure e = false) [e]
                             /\ Forall (fun e => forall s f, e <> LogCompleted s f) [e]).
  { intros e _ H1 H2 H3. repeat split; try assumption; now repeat constructor. }
  assert (Hnil : progressLines [] = []
                 /\ Forall (fun e => isBatchFailure e = false) []
                 /\ Forall (fun e : Event => forall s f, e <> LogCompleted s f) []).
  { repeat split; constructor. }
  unfold itemTail. destruct out as [[|s|[|]]|message];
    try destruct (truthy s && _); try exact Hnil;
    apply Hone; try reflexivity; intros s' f; discriminate.
Qed.

Lemma progressLines_app l1 l2 :
  progressLines (l1 ++ l2) = progressLines l1 ++ progressLines l2.
Proof. apply flat_map_app. Qed.

Lemma pause_lines (b : bool) :
  let pause := if b then [Slept DELAY_BETWEEN_REQUESTS] else [] in
  progressLines pause = []
  /\ Forall (fun e => isBatchFailure e = false) pause
  /\ Forall (fun e => forall s f, e <> LogCompleted s f) pause
  /\ countEvents isPosted pause = O /\ countEvents isAcquired pause = O
  /\ (forall p, ~ In (Posted p) pause).
Proof.
  destruct b; cbv zeta.
  - split; [reflexivity|]. split; [now repeat constructor|].
    split; [constructor; [intros s f; discriminate | constructor]|].
    split; [reflexivity|]. split; [reflexivity|].
    intros p [H|[]]; discriminate.
  - split; [reflexivity|]. split; [constructor|]. split; [constructor|].
    split; [reflexivity|]. split; [reflexivity|]. intros p [].
Qed.

(** The loop prints one progress line per item, numbered from the index
    of the first on, and neither a batch failure nor the final line. *)
Lemma loopRun_lines total rest outs i n evs :
  loopRun env total rest outs i n evs ->
  progressLines evs
  = map (fun k => (k, total)) (seq (i + 1) (List.length rest))
  /\ Forall (fun e => isBatchFailure e = false) evs
  /\ Forall (fun e => forall s f, e <> LogCompleted s f) evs.
Proof.
  induction 1 as [i n | item rest out outs i n t evs evs' Hrun Hloop (IH1 & IH2 & IH3)].
  - now repeat split.
  - destruct (retryEvents_lines _ (retryRun_events _ _ _ _ _ _ _ _ Hrun))
      as (Hr1 & Hr2 & Hr3).
    destruct (console_tail_lines item out) as (Ht1 & Ht2 & Ht3).
    destruct (pause_lines (i + 1 <? total)%nat) as (Hp1 & Hp2 & Hp3 & _).
    cbv zeta in Hp1, Hp2, Hp3.
    split; [|split].
    + change (progressLines (?e :: ?l))
        with (progressLines [e] ++ progressLines l).
      change (progressLines (Acquired t :: ?l)) with (progressLines l).
      rewrite !progressLines_app, Hr1, Ht1, Hp1, IH1. cbn [List.length seq map].
      simpl. do 2 f_equal. f_equal. lia.
    + constructor; [reflexivity|]. constructor; [reflexivity|].
      repeat (apply Forall_app; split); assumption.
    + constructor; [intros s f; discriminate|].
      constructor; [intros s f; discriminate|].
      repeat (apply Forall_app; split); assumption.
Qed.

(** The loop asks the limiter once per item and once more per request,
    and makes between one and five requests per item. *)
Lemma loopRun_counts total rest outs i n evs :
  loopRun env total rest outs i n evs ->
  countEvents isAcquired evs
  = (List.length rest + countEvents isPosted evs)%nat
  /\ (List.length rest <= countEvents isPosted evs)%nat
  /\ (countEvents isPosted evs <= 5 * List.length rest)%nat.
Proof.
  induction 1 as [i n | item rest out outs i n t evs evs' Hrun Hloop (IH1 & IH2 & IH3)].
  - now repeat split.
  - destruct (retryRun_counts _ _ _ _ _ _ _ _ Hrun) as (Hc1 & Hc2 & Hc3).
    specialize (Hc3 ltac:(unfold defaultMaxRetries; lia)).
    unfold defaultMaxRetries in Hc2.
    destruct (console_silent _ (itemTail_console item out)) as (Ht1 & Ht2 & _).
    destruct (pause_lines (i + 1 <? total)%nat) as (_ & _ & _ & Hp1 & Hp2 & _).
    cbv zeta in Hp1, Hp2.
    rewrite !countEvents_cons, !countEvents_app, Ht1, Ht2, Hp1, Hp2, Hc1, IH1.
    cbn [isAcquired isPosted List.length]. repeat split; lia.
Qed.

(** Every request of the loop is the request of one of its items. *)
Lemma loopRun_payloads total rest outs i n evs :
  loopRun env total rest outs i n evs ->
  forall p, In (Posted p) evs ->
            exists item, In item rest
                         /\ p = payloadFor (trimmedText item) (tagName item).
Proof.
  induction 1 as [i n | item rest out outs i n t evs evs' Hrun Hloop IH];
    intros p Hin; [destruct Hin|].
  destruct Hin as [H|[H|Hin]]; try discriminate.
  apply in_app_or in Hin as [Hin|Hin].
  { exists item. split; [now left|].
    eapply retryRun_payloads; eassumption. }
  apply in_app_or in Hin as [Hin|Hin].
  { pose proof (itemTail_console item out) as Hc.
    rewrite Forall_forall in Hc. now apply Hc in Hin. }
  apply in_app_or in Hin as [Hin|Hin].
  { destruct (pause_lines (i + 1 <? total)%nat) as (_ & _ & _ & _ & _ & Hp).
    now apply Hp in Hin. }
  destruct (IH p Hin) as (item' & Hin' & Hp). exists item'. split; [now right|].
  exact Hp.
Qed.


Lemma filter_length_mono (A : Type) (f g : A -> bool) (l : list A) :
  (forall a, In a l -> f a = true -> g a = true) ->
  (List.length (filter f l) <= List.length (filter g l))%nat.
Proof.
  induction l as [|a l IH]; intros Himp; [apply le_n|].
  assert (IH' := IH (fun x Hx => Himp x (or_intror Hx))).
  simpl. destruct (f a) eqn:Hf.
  - rewrite (Himp a (or_introl eq_refl) Hf). simpl. lia.
  - destruct (g a); simpl; lia.
Qed.

Lemma paced_prefix mx tw adms t : paced mx tw (adms ++ [t]) -> paced mx tw adms.
Proof.
  intros Hp pre x post Heq. apply (Hp pre x (post ++ [t])).
  rewrite Heq, <- app_assoc. reflexivity.
Qed.

(** Paced admissions never crowd a window. *)
Lemma paced_windowBounded mx tw adms :
  0 < mx -> paced mx tw adms -> windowBounded mx tw adms.
Proof.
  intros Hmx. induction adms as [|x adms IH] using rev_ind; intros Hp T.
  - simpl. lia.
  - specialize (IH (paced_prefix _ _ _ _ Hp) T).
    destruct (Hp adms x [] eq_refl) as [_ Hcount].
    unfold inWindow in *. rewrite filter_app, length_app. simpl.
    destruct ((T - tw <? x) && (x <=? T)) eqn:Hin; simpl; [|lia].
    apply andb_prop in Hin as [Hlo Hhi].
    apply Z.ltb_lt in Hlo. apply Z.leb_le in Hhi.
    pose proof (filter_length_mono Z
                  (fun time => (T - tw <? time) && (time <=? T))
                  (fun a => x - tw <? a) adms) as Hmono.
    assert (Himp : forall a, In a adms ->
                             (T - tw <? a) && (a <=? T) = true ->
                             (x - tw <? a) = true).
    { intros a _ Ha. apply andb_prop in Ha as [Ha _].
      apply Z.ltb_lt in Ha. apply Z.ltb_lt. lia. }
    specialize (Hmono Himp). lia.
Qed.

Lemma paced_apart mx tw adms pre a mid b post :
  paced mx tw adms -> adms = pre ++ a :: mid ++ b :: post -> a + 100 <= b.
Proof.
  intros Hp Heq.
  destruct (Hp (pre ++ a :: mid) b post) as [Hall _].
  { rewrite Heq, <- app_assoc. reflexivity. }
  rewrite Forall_forall in Hall. apply Hall.
  apply in_or_app. right. now left.
Qed.



End Accounts.

(** ** What a run of the dispatcher and of the scheduler shows *)

Section RunProperties.

Variable env : Env.

Open Scope Z_scope.


(** X2. Every request the pipeline sends carries the trimmed text of an
    extracted fragment, of two characters at least, with the hint of the
    tag of its element, the target language [pa] and
    [preserve_formatting] set. *)
Theorem requests_carry_trimmed_fragments htmlEnglish w :
  ready w ->
  exists out w' evs,
    translateHtmlStructureOptimized env htmlEnglish w = Fulfilled out w'
    /\ trace w' = trace w ++ evs
    /\ forall payload,
         In (Posted payload) evs ->
         exists item,
           In item (collectTextNodes (cheerioLoad env htmlEnglish))
           /\ text payload = trim (originalText item)
           /\ (2 <= List.length (text payload))%nat
           /\ isOnlyNumbers (text payload) = false
           /\ to payload = js "pa"
           /\ context payload = getContextHint (tagName item)
           /\ preserve_formatting payload = true.
Proof.
  intros Hready.
  destruct (pipeline_run env htmlEnglish w Hready)
    as (out & w' & evs & Hrun & (Htrace & _) & _ & Hshape).
  cbv zeta in *.
  set (items := collectTextNodes (cheerioLoad env htmlEnglish)) in *.
  exists out, w'. eexists. split; [exact Hrun|]. split; [exact Htrace|].
  intros payload [Hin|Hin]; [discriminate|].
  destruct (sortByPriority items) as [|item0 rest] eqn:Hsorted.
  { subst evs. destruct Hin. }
  destruct Hshape as (run & outs & -> & _ & Hloop).
  apply in_app_or in Hin as [Hin|[Hin|[]]]; [|discriminate].
  destruct (loopRun_payloads env _ _ _ _ _ _ Hloop _ Hin) as (item & Hitem & ->).
  assert (Hin' : In item items).
  { eapply Permutation_in; [apply sortByPriority_perm|]. now rewrite Hsorted. }
  exists item. split; [exact Hin'|].
  apply collectTextNodes_sound in Hin' as (_ & Htrim & Hq & _).
  unfold qualifies in Hq. apply andb_prop in Hq as [Hlen Hnum].
  apply Nat.ltb_lt in Hlen. apply negb_true_iff in Hnum.
  cbn [payloadFor text to context preserve_formatting].
  repeat split; try assumption; try reflexivity; lia.
Qed.

(** X3. Whatever the service answers, the scheduler prints one progress
    line per fragment, numbered from 1 to the number of fragments, never
    the line of a failed batch, and a final line that counts every
    fragment as successful and none as failed. *)
Theorem scheduler_counts_every_item_successful htmlEnglish w :
  ready w ->
  let n := List.length (collectTextNodes (cheerioLoad env htmlEnglish)) in
  exists out w' evs,
    translateHtmlStructureOptimized env htmlEnglish w = Fulfilled out w'
    /\ trace w' = trace w ++ evs
    /\ progressLines evs = map (fun k => (k, n)) (seq 1 n)
    /\ Forall (fun e => isBatchFailure e = false) evs
    /\ (n <> O ->
        exists run,
          evs = LogFound n :: run ++ [LogCompleted n O]
          /\ Forall (fun e => forall s f, e <> LogCompleted s f) run).
Proof.
  intros Hready n.
  destruct (pipeline_run env htmlEnglish w Hready)
    as (out & w' & evs & Hrun & (Htrace & _) & _ & Hshape).
  cbv zeta in *.
  assert (Hlen : List.length
                   (sortByPriority (collectTextNodes (cheerioLoad env htmlEnglish)))
                 = n).
  { apply Permutation_length, sortByPriority_perm. }
  rewrite Hlen in *.
  exists out, w'. eexists. split; [exact Hrun|]. split; [exact Htrace|].
  destruct (sortByPriority _) as [|item0 rest] eqn:Hsorted.
  - subst evs. simpl in Hlen. rewrite <- Hlen.
    split; [reflexivity|]. split; [now repeat constructor|].
    intros Hn. now contradiction Hn.
  - destruct Hshape as (run & outs & -> & _ & Hloop).
    destruct (loopRun_lines env _ _ _ _ _ _ Hloop) as (Hlines & Hnofail & Hnodone).
    rewrite Hlen in Hlines.
    split.
    { change (progressLines (LogFound n :: ?l)) with (progressLines l).
      rewrite progressLines_app, Hlines. simpl. now rewrite app_nil_r. }
    split.
    { constructor; [reflexivity|]. apply Forall_app. split; [exact Hnofail|].
      now repeat constructor. }
    intros _. exists run. split; [reflexivity | exact Hnodone].
Qed.

(** X4. The pipeline asks the limiter once per fragment and once more
    before every request, and sends between one and five requests per
    fragment, all of them counted. *)
Theorem pipeline_request_budget htmlEnglish w :
  ready w ->
  let n := List.length (collectTextNodes (cheerioLoad env htmlEnglish)) in
  exists out w' evs,
    translateHtmlStructureOptimized env htmlEnglish w = Fulfilled out w'
    /\ trace w' = trace w ++ evs
    /\ postCount w' = (postCount w + countEvents isPosted evs)%nat
    /\ countEvents isAcquired evs = (n + countEvents isPosted evs)%nat
    /\ (n <= countEvents isPosted evs)%nat
    /\ (countEvents isPosted evs <= 5 * n)%nat.
Proof.
  intros Hready n.
  destruct (pipeline_run env htmlEnglish w Hready)
    as (out & w' & evs & Hrun & (Htrace & _ & _ & Hposts & _) & _ & Hshape).
  cbv zeta in *.
  assert (Hlen : List.length
                   (sortByPriority (collectTextNodes (cheerioLoad env htmlEnglish)))
                 = n).
  { apply Permutation_length, sortByPriority_perm. }
  rewrite Hlen in *.
  exists out, w'. eexists. split; [exact Hrun|]. split; [exact Htrace|].
  split; [exact Hposts|].
  destruct (sortByPriority _) as [|item0 rest] eqn:Hsorted.
  - subst evs. simpl in Hlen. rewrite <- Hlen. now repeat split.
  - destruct Hshape as (run & outs & -> & _ & Hloop).
    destruct (loopRun_counts env _ _ _ _ _ _ Hloop) as (Hacq & Hlo & Hhi).
    rewrite Hlen in *.
    rewrite !countEvents_cons, !countEvents_app, Hacq.
    cbn [isAcquired isPosted]. change (countEvents _ [_]) with O.
    repeat split; lia.
Qed.


(** X6. When nobody else waits on the limiter, the admissions of a whole
    run of the pipeline respect its rate: at most [maxRequests] of them
    fall in any interval of length [timeWindow], and two of them are never
    less than 100 ms apart. *)
Theorem pipeline_respects_rate_limit htmlEnglish w :
  ready w ->
  queue (translationLimiter w) = [] ->
  exists out w' evs,
    translateHtmlStructureOptimized env htmlEnglish w = Fulfilled out w'
    /\ trace w' = trace w ++ evs
    /\ windowBounded (maxRequests (translationLimiter w))
                     (timeWindow (translationLimiter w)) (admissions evs)
    /\ (forall pre a mid b post,
          admissions evs = pre ++ a :: mid ++ b :: post -> a + 100 <= b)
    /\ Forall (fun a => now w <= a <= now w') (admissions evs).
Proof.
  intros Hready Hidle.
  destruct (pipeline_run env htmlEnglish w Hready)
    as (out & w' & evs & Hrun & (Htrace & Hm & Ht & _ & _ & Htracks & Hin) & _).
  exists out, w'. eexists. split; [exact Hrun|]. split; [exact Htrace|].
  destruct (Htracks []) as (_ & Hdue & _ & Hpaced).
  { split; [exact Hidle|]. split; [constructor|]. split; [constructor|].
    apply paced_nil. }
  cbn [app] in Hdue, Hpaced. rewrite Hm, Ht in Hpaced.
  split; [now apply paced_windowBounded|].
  split.
  { intros pre a mid b post Heq. eapply paced_apart; eassumption. }
  exact Hin.
Qed.

(** X7. A translation that cannot be used is not retried and leaves the
    text of the node alone.  When the first answer of the service holds a
    string of white space only, the turn ends after that one request
    without a word; when it holds a truthy value that is not a string, the
    call of [trim] throws and the turn reports the fragment as failed. *)
Theorem unusable_translation_keeps_text i item w :
  ready w ->
  let payload := payloadFor (trimmedText item) (tagName item) in
  let reply := result (service env (postCount w) payload) in
  exists w',
    processItem env i item w = Fulfilled tt w'
    /\ (forall s,
          reply = PostResolved (Some (JsStr s)) -> s <> [] -> trim s = [] ->
          document w' = document w
          /\ exists t t',
              trace w'
              = trace w ++ Acquired t :: Acquired t'
                  :: stagger (Z.of_nat i) ++ [Posted payload])
    /\ (reply = PostResolved (Some (JsOther true)) ->
        document w' = document w
        /\ exists t t',
            trace w'
            = trace w ++ Acquired t :: Acquired t'
                :: stagger (Z.of_nat i)
                ++ [Posted payload;
                    WarnFailed (node item) (substring0 30 (trimmedText item))
                      (js "translated.trim is not a function")]).
Proof.
  intros Hready payload reply.
  destruct (processItem_run env i item w Hready)
    as (t & out & w' & evs & Hrun & (Htrace & _) & Hretry & Hdoc).
  fold payload in Hretry.
  exists w'. split; [exact Hrun|].
  assert (Hfirst : forall v,
             attemptResult reply = inl v ->
             out = Returned v
             /\ exists t', evs = Acquired t' :: stagger (Z.of_nat i)
                                   ++ [Posted payload]).
  { intros v Hv. unfold reply in Hv.
    inversion Hretry as [a n Hlt | a n t' value Hle Hres
                        | n t' cause Hres
                        | a n t' cause r evs' outcome Hlt Hres Hrest];
      subst.
    - unfold defaultMaxRetries in Hlt. lia.
    - rewrite Hv in Hres. injection Hres as <-. split; [reflexivity | eauto].
    - rewrite Hv in Hres. discriminate. }
  split.
  - intros s Hreply Hs Hblank.
    destruct (Hfirst (JsStr s)) as (-> & t' & ->).
    { rewrite Hreply. simpl. destruct s; [contradiction | reflexivity]. }
    rewrite Hdoc, Htrace. cbn [itemTail itemDocument]. rewrite Hblank.
    cbn [List.length Nat.ltb Nat.leb]. rewrite andb_false_r.
    split; [reflexivity|]. exists t, t'. now rewrite app_nil_r.
  - intros Hreply.
    destruct (Hfirst (JsOther true)) as (-> & t' & ->).
    { rewrite Hreply. reflexivity. }
    rewrite Hdoc, Htrace. cbn [itemTail itemDocument].
    split; [reflexivity|]. exists t, t'. cbn [app].
    now rewrite <- app_assoc.
Qed.

(** X8. The document the pipeline serializes has the structure of the
    document it parsed: the same elements with the same names and
    attributes, the same comments and directives, the same children in the
    same order; only the data of text nodes can differ.  What it returns is
    the input itself or the serialization of that document. *)
Theorem pipeline_preserves_structure htmlEnglish w :
  ready w ->
  exists out w',
    translateHtmlStructureOptimized env htmlEnglish w = Fulfilled out w'
    /\ shape (document w') = shape (cheerioLoad env htmlEnglish)
    /\ (out = htmlEnglish \/ out = cheerioHtml env (document w')).
Proof.
  intros Hready.
  destruct (pipeline_run env htmlEnglish w Hready)
    as (out & w' & evs & Hrun & _ & Hshape & _).
  destruct (pipeline_spec env htmlEnglish w Hready)
    as (out2 & w2 & evs2 & Hrun2 & _ & Hout & _).
  rewrite Hrun in Hrun2. injection Hrun2 as <- <-.
  exists out, w'. split; [exact Hrun|]. split; [exact Hshape|].
  cbv zeta in Hout.
  destruct (collectTextNodes (cheerioLoad env htmlEnglish));
    [now left | now right].
Qed.

End RunProperties.

Section RunExamples.

Open Scope Z_scope.


Lemma requests_carry_trimmed_fragments_witness :
  ready (startWorld 0 freshLimiter)
  /\ exists out w' evs,
      translateHtmlStructureOptimized (sampleEnv echoService headingLast)
        (js "<p>Hello</p><h1>Title</h1>") (startWorld 0 freshLimiter)
      = Fulfilled out w'
      /\ trace w' = evs.
Proof.
  split; [reflexivity|].
  destruct (requests_carry_trimmed_fragments
              (sampleEnv echoService headingLast)
              (js "<p>Hello</p><h1>Title</h1>") (startWorld 0 freshLimiter)
              eq_refl)
    as (out & w' & evs & Hrun & Htrace & _).
  exists out, w', evs. auto.
Defined.

Lemma scheduler_counts_every_item_successful_witness :
  ready (startWorld 0 freshLimiter)
  /\ exists out w' evs,
      translateHtmlStructureOptimized (sampleEnv deadService headingLast)
        (js "<p>Hello</p><h1>Title</h1>") (startWorld 0 freshLimiter)
      = Fulfilled out w'
      /\ trace w' = evs
      /\ progressLines evs = [(1%nat, 2%nat); (2%nat, 2%nat)].
Proof.
  split; [reflexivity|].
  destruct (scheduler_counts_every_item_successful
              (sampleEnv deadService headingLast)
              (js "<p>Hello</p><h1>Title</h1>") (startWorld 0 freshLimiter)
              eq_refl)
    as (out & w' & evs & Hrun & Htrace & Hlines & _).
  exists out, w', evs. auto.
Defined.

Lemma pipeline_request_budget_witness :
  ready (startWorld 0 freshLimiter)
  /\ exists out w' evs,
      translateHtmlStructureOptimized (sampleEnv flakyService headingLast)
        (js "<p>Hello</p><h1>Title</h1>") (startWorld 0 freshLimiter)
      = Fulfilled out w'
      /\ trace w' = evs
      /\ postCount w' = countEvents isPosted evs.
Proof.
  split; [reflexivity|].
  destruct (pipeline_request_budget
              (sampleEnv flakyService headingLast)
              (js "<p>Hello</p><h1>Title</h1>") (startWorld 0 freshLimiter)
              eq_refl)
    as (out & w' & evs & Hrun & Htrace & Hposts & _).
  exists out, w', evs. auto.
Defined.


Lemma pipeline_respects_rate_limit_witness :
  ready (startWorld 0 freshLimiter)
  /\ queue (translationLimiter (startWorld 0 freshLimiter)) = []
  /\ exists out w' evs,
      translateHtmlStructureOptimized (sampleEnv echoService headingLast)
        (js "<p>Hello</p><h1>Title</h1>") (startWorld 0 freshLimiter)
      = Fulfilled out w'
      /\ trace w' = evs
      /\ windowBounded 3 1500 (admissions evs).
Proof.
  split; [reflexivity|]. split; [reflexivity|].
  destruct (pipeline_respects_rate_limit
              (sampleEnv echoService headingLast)
              (js "<p>Hello</p><h1>Title</h1>") (startWorld 0 freshLimiter)
              eq_refl eq_refl)
    as (out & w' & evs & Hrun & Htrace & Hwindow & _).
  exists out, w', evs. auto.
Defined.

Lemma unusable_translation_keeps_text_witness :
  ready (startWorld 0 freshLimiter)
  /\ exists w',
      processItem (sampleEnv (constantService (js "  ")) headingLast) O
        (mkTextNode [O; O] (js "Hello") (js "Hello") 0 (js "p"))
        (startWorld 0 freshLimiter)
      = Fulfilled tt w'.
Proof.
  split; [reflexivity|].
  destruct (unusable_translation_keeps_text
              (sampleEnv (constantService (js "  ")) headingLast) O
              (mkTextNode [O; O] (js "Hello") (js "Hello") 0 (js "p"))
              (startWorld 0 freshLimiter) eq_refl)
    as (w' & Hrun & _).
  exists w'. exact Hrun.
Defined.

Lemma pipeline_preserves_structure_witness :
  ready (startWorld 0 freshLimiter)
  /\ exists out w',
      translateHtmlStructureOptimized (sampleEnv echoService headingLast)
        (js "<p>Hello</p><h1>Title</h1>") (startWorld 0 freshLimiter)
      = Fulfilled out w'
      /\ shape (document w') = shape headingLast.
Proof.
  split; [reflexivity|].
  destruct (pipeline_preserves_structure
              (sampleEnv echoService headingLast)
              (js "<p>Hello</p><h1>Title</h1>") (startWorld 0 freshLimiter)
              eq_refl)
    as (out & w' & Hrun & Hshape & _).
  exists out, w'. auto.
Defined.

End RunExamples.

(** ** The replies of the service decide the run *)

Section Decided.

Variable env : Env.

Open Scope Z_scope.

Lemma attemptResult_inl r v :
  attemptResult r = inl v <-> r = PostResolved (Some v) /\ jsTruthy v = true.
Proof.
  unfold attemptResult. split.
  - destruct r as [m | [v0|]]; try discriminate.
    destruct (jsTruthy v0) eqn:Hv; [|discriminate].
    intros H. injection H as <-. now split.
  - intros [-> Hv]. now rewrite Hv.
Qed.

Lemma attemptResult_inr r cause :
  attemptResult r = inr cause
  <-> r = PostRejected cause
      \/ (cause = js "Invalid response format"
          /\ (r = PostResolved None
              \/ exists v, r = PostResolved (Some v) /\ jsTruthy v = false)).
Proof.
  unfold attemptResult. split.
  - destruct r as [m | [v0|]].
    + intros H. injection H as <-. now left.
    + destruct (jsTruthy v0) eqn:Hv; [discriminate|].
      intros H. injection H as <-. right. split; [reflexivity|]. right.
      now exists v0.
    + intros H. injection H as <-. right. split; [reflexivity | now left].
  - intros [-> | [-> [-> | (v & -> & Hv)]]]; try reflexivity.
    now rewrite Hv.
Qed.


(** The first accepted reply ends the run with its value; when every reply
    fails, the run fails with the cause of the last. *)
Lemma retryRun_decided payload index maxRetries text30 attempt n evs out :
  retryRun env payload index maxRetries text30 attempt n evs out ->
  attempt <= maxRetries ->
  (forall j v,
      Z.of_nat j <= maxRetries - attempt ->
      (forall i, (i < j)%nat -> exists cause, replyTo env payload n i = inr cause) ->
      replyTo env payload n j = inl v ->
      out = Returned v /\ countEvents isPosted evs = S j)
  /\ ((forall j, Z.of_nat j <= maxRetries - attempt ->
                 exists cause, replyTo env payload n j = inr cause) ->
      exists cause,
        replyTo env payload n (Z.to_nat (maxRetries - attempt)) = inr cause
        /\ out = Failed (js "All retries failed: " ++ cause)
        /\ Z.of_nat (countEvents isPosted evs) = maxRetries - attempt + 1).
Proof.
  intros Hrun Hle.
  destruct (retryRun_replies env _ _ _ _ _ _ _ _ Hrun Hle)
    as (k & Hk & Hfail & Hout).
  destruct (retryRun_counts env _ _ _ _ _ _ _ _ Hrun) as (_ & Hbound & _).
  rewrite Hk in Hbound. unfold replyTo. split.
  - intros j v Hj Hprefix Hv.
    destruct (lt_eq_lt_dec j k) as [[Hlt | ->] | Hgt].
    + destruct (Hfail j Hlt) as (cause & Hc). congruence.
    + destruct out as [v' | message].
      * split; [congruence | exact Hk].
      * destruct Hout as (_ & cause & Hc & _). congruence.
    + destruct out as [v' | message].
      * destruct (Hprefix k Hgt) as (cause & Hc). congruence.
      * destruct Hout as (Hlast & _). lia.
  - intros Hall.
    destruct out as [v' | message].
    + destruct (Hall k ltac:(lia)) as (cause & Hc). congruence.
    + destruct Hout as (Hlast & cause & Hc & ->).
      exists cause. rewrite <- Hlast, Nat2Z.id, Hk.
      split; [exact Hc|]. split; [reflexivity | lia].
Qed.

(** *** The document after the loop *)

Lemma itemDocument_other item out doc q :
  q <> node item -> getData q (itemDocument item out doc) = getData q doc.
Proof.
  intros Hne. unfold itemDocument.
  destruct out as [[|s|b]|message]; try reflexivity.
  destruct (truthy s && _); [|reflexivity].
  apply getData_setData_other. congruence.
Qed.

Lemma itemDocument_own item out doc :
  getData (node item) doc = Some (originalText item) ->
  getData (node item) (itemDocument item out doc) = Some (itemText item out).
Proof.
  intros Hdata. unfold itemDocument, itemText.
  destruct out as [[|s|b]|message]; try exact Hdata.
  destruct (truthy s && _); [|exact Hdata].
  eapply getData_setData_same. exact Hdata.
Qed.

Lemma writeAll_other items :
  forall outs doc q,
    ~ In q (map node items) ->
    getData q (writeAll items outs doc) = getData q doc.
Proof.
  induction items as [|item items IH]; intros [|out outs] doc q Hq;
    try reflexivity.
  cbn [writeAll]. rewrite IH.
  - apply itemDocument_other. intros ->. apply Hq. now left.
  - intros Hin. apply Hq. now right.
Qed.

(** Every item ends with the text its own outcome gives it. *)
Lemma writeAll_item items :
  forall outs doc item out,
    NoDup (map node items) ->
    Forall (fun it => getData (node it) doc = Some (originalText it)) items ->
    In (item, out) (combine items outs) ->
    getData (node item) (writeAll items outs doc) = Some (itemText item out).
Proof.
  induction items as [|a items IH]; intros [|o outs] doc item out Hnd Hdata Hin;
    try contradiction.
  cbn [map] in Hnd. inversion Hnd as [|? ? Hnotin Hnd']; subst.
  inversion Hdata as [|? ? Ha Hdata']; subst.
  cbn [writeAll]. destruct Hin as [Heq | Hin].
  - injection Heq as -> ->.
    rewrite writeAll_other by exact Hnotin.
    now apply itemDocument_own.
  - apply IH; [exact Hnd' | | exact Hin].
    apply Forall_forall. intros it Hit.
    rewrite Forall_forall in Hdata'.
    rewrite itemDocument_other; [now apply Hdata'|].
    intros Heq. apply Hnotin. rewrite <- Heq. now apply in_map.
Qed.

Lemma combine_functional items :
  forall (outs : list RetryOutcome) item out item' out',
    NoDup (map node items) ->
    In (item, out) (combine items outs) ->
    In (item', out') (combine items outs) ->
    node item = node item' ->
    item = item' /\ out = out'.
Proof.
  induction items as [|a items IH]; intros [|o outs] item out item' out' Hnd H1 H2 Heq;
    try contradiction.
  cbn [map] in Hnd. inversion Hnd as [|? ? Hnotin Hnd']; subst.
  destruct H1 as [H1 | H1], H2 as [H2 | H2].
  - injection H1 as <- <-. injection H2 as <- <-. now split.
  - injection H1 as <- <-. exfalso. apply Hnotin. rewrite Heq.
    apply in_map. eapply in_combine_l. exact H2.
  - injection H2 as <- <-. exfalso. apply Hnotin. rewrite <- Heq.
    apply in_map. eapply in_combine_l. exact H1.
  - eapply IH; eassumption.
Qed.

(** *** The turn of each item in a run of the loop *)

Lemma failedNodes_retry payload index maxRetries text30 attempt n evs out :
  retryRun env payload index maxRetries text30 attempt n evs out ->
  failedNodes evs = [].
Proof.
  intros Hrun.
  pose proof (retryRun_events env _ _ _ _ _ _ _ _ Hrun) as Hall.
  clear Hrun. induction Hall as [|e evs He _ IH]; [reflexivity|].
  unfold failedNodes in *. cbn [flat_map]. rewrite IH.
  destruct e; try discriminate; reflexivity.
Qed.

(** The nodes a turn reports as failed: its own, when the call failed or
    returned a value that has no [trim]. *)
Lemma failedNodes_itemTail item out :
  failedNodes (itemTail item out)
  = match out with
    | Failed _ | Returned (JsOther true) => [node item]
    | _ => []
    end.
Proof.
  unfold itemTail. destruct out as [[|s|[|]]|message]; try reflexivity.
  destruct (truthy s && _); reflexivity.
Qed.

Lemma loopRun_length total rest outs i n evs :
  loopRun env total rest outs i n evs -> List.length outs = List.length rest.
Proof. induction 1; simpl; congruence. Qed.

(** Each item has its turn: a progress line, an admission, the run of
    [translateWithRetry] that starts at the request the trace has reached,
    and the report the outcome calls for. *)
Lemma loopRun_items total rest outs i n evs :
  loopRun env total rest outs i n evs ->
  forall item,
    In item rest ->
    exists pre j t revs out post,
      evs = pre ++ LogProcessingItem j total [node item]
                :: Acquired t :: revs ++ itemTail item out ++ post
      /\ In (item, out) (combine rest outs)
      /\ retryRun env (payloadFor (trimmedText item) (tagName item)) 0
                  defaultMaxRetries (substring0 30 (trimmedText item)) 1
                  (n + countEvents isPosted pre) revs out.
Proof.
  induction 1 as [i n | item0 rest out0 outs i n t evs evs' Hrun Hloop IH];
    intros item Hin; [contradiction|].
  destruct Hin as [-> | Hin].
  - exists [], (i + 1)%nat, t, evs, out0. eexists.
    split; [reflexivity|]. split; [now left|].
    change (countEvents isPosted []) with O. rewrite Nat.add_0_r. exact Hrun.
  - destruct (IH item Hin) as (pre & j & t' & revs & out & post & -> & Hout & Hr).
    exists (LogProcessingItem (i + 1) total [node item0]
              :: Acquired t :: evs ++ itemTail item0 out0
              ++ (if (i + 1 <? total)%nat
                  then [Slept DELAY_BETWEEN_REQUESTS] else [])
              ++ pre), j, t', revs, out, post.
    split.
    { cbn [app]. rewrite <- !app_assoc. reflexivity. }
    split; [now right|].
    assert (Hcount : countEvents isPosted
                       (LogProcessingItem (i + 1) total [node item0]
                          :: Acquired t :: evs ++ itemTail item0 out0
                          ++ (if (i + 1 <? total)%nat
                              then [Slept DELAY_BETWEEN_REQUESTS] else [])
                          ++ pre)
                     = (countEvents isPosted evs + countEvents isPosted pre)%nat).
    { destruct (console_silent _ (itemTail_console item0 out0)) as (Ht1 & _).
      destruct (pause_lines (i + 1 <? total)%nat) as (_ & _ & _ & Hp1 & _).
      cbv zeta in Hp1.
      rewrite !countEvents_cons, !countEvents_app, Ht1, Hp1.
      cbn [isPosted]. lia. }
    rewrite Hcount, Nat.add_assoc. exact Hr.
Qed.

(** A node the loop reports as failed is the node of an item whose call
    failed or returned a value that has no [trim]. *)
Lemma loopRun_failed total rest outs i n evs :
  loopRun env total rest outs i n evs ->
  forall p,
    In p (failedNodes evs) ->
    exists item out,
      In (item, out) (combine rest outs)
      /\ node item = p
      /\ match out with
         | Failed _ | Returned (JsOther true) => True
         | _ => False
         end.
Proof.
  induction 1 as [i n | item0 rest out0 outs i n t evs evs' Hrun Hloop IH];
    intros p Hin; [contradiction|].
  change (LogProcessingItem ?a ?b ?c :: Acquired t :: ?l)
    with ([LogProcessingItem a b c; Acquired t] ++ l) in Hin.
  rewrite !failedNodes_app in Hin.
  rewrite (failedNodes_retry _ _ _ _ _ _ _ _ Hrun) in Hin.
  rewrite failedNodes_itemTail in Hin.
  assert (Hpause : failedNodes (if (i + 1 <? total)%nat
                                then [Slept DELAY_BETWEEN_REQUESTS] else [])
                   = []).
  { destruct (i + 1 <? total)%nat; reflexivity. }
  rewrite Hpause in Hin. cbn [failedNodes flat_map app] in Hin.
  apply in_app_or in Hin as [Hin | Hin].
  - exists item0, out0. split; [now left|].
    destruct out0 as [[|s|[|]]|message]; try contradiction;
      destruct Hin as [<- | []]; now split.
  - destruct (IH p Hin) as (item & out & Hio & Hp & Hout).
    exists item, out. split; [now right | now split].
Qed.

End Decided.

(** ** The contract of the dispatcher and the isolation of failures *)

Section ServiceContract.

Variable env : Env.

Open Scope Z_scope.


(** C2. The pipeline always completes and returns the document, and the
    [catch] around a batch never fires: a failure stops at the turn of its
    fragment.  Each extracted fragment has its turn, which starts with its
    progress line, and what becomes of it depends on nothing but the
    replies of the service to its own attempts ([itemReply], numbered from
    the request the trace has reached at that line).  When the replies to
    all five attempts fail, the node keeps its original text in the
    document that is serialized and the failure is reported for it.  When
    an attempt gets a reply with a truthy [translatedText], every attempt
    before it having failed, the node holds the translation if it is a
    string with something left after trimming, and its original text
    otherwise; a translated fragment is not reported as failed, whatever
    became of the others.  A fragment reported as failed keeps its text,
    and no node but those of the fragments is written. *)
Theorem failed_fragment_keeps_text htmlEnglish w :
  ready w ->
  exists out w' evs,
    translateHtmlStructureOptimized env htmlEnglish w = Fulfilled out w'
    /\ trace w' = trace w ++ evs
    /\ out = match collectTextNodes (cheerioLoad env htmlEnglish) with
             | [] => htmlEnglish
             | _ :: _ => cheerioHtml env (document w')
             end
    /\ Forall (fun e => isBatchFailure e = false) evs
    /\ dispatched evs
       = map node (sortByPriority (collectTextNodes (cheerioLoad env htmlEnglish)))
    /\ (forall q,
          ~ In q (map node (collectTextNodes (cheerioLoad env htmlEnglish))) ->
          getData q (document w') = getData q (cheerioLoad env htmlEnglish))
    /\ forall item,
         In item (collectTextNodes (cheerioLoad env htmlEnglish)) ->
         exists pre i total post,
           evs = pre ++ LogProcessingItem i total [node item] :: post
           /\ (In (node item) (failedNodes evs) ->
               getData (node item) (document w') = Some (originalText item))
           /\ ((forall j, Z.of_nat j < defaultMaxRetries ->
                          exists cause, itemReply env w pre item j = inr cause) ->
               getData (node item) (document w') = Some (originalText item)
               /\ exists cause,
                   itemReply env w pre item 4 = inr cause
                   /\ In (WarnFailed (node item)
                                     (substring0 30 (trimmedText item))
                                     (js "All retries failed: " ++ cause)) post)
           /\ (forall j v,
                 Z.of_nat j < defaultMaxRetries ->
                 (forall k, (k < j)%nat ->
                            exists cause, itemReply env w pre item k = inr cause) ->
                 itemReply env w pre item j = inl v ->
                 (forall s,
                     v = JsStr s -> trim s <> [] ->
                     getData (node item) (document w')
                     = Some (replace (originalText item) (trimmedText item) s)
                     /\ ~ In (node item) (failedNodes evs))
                 /\ ((forall s, v = JsStr s -> trim s = []) ->
                     getData (node item) (document w')
                     = Some (originalText item))).
Proof.
  intros Hready.
  destruct (pipeline_run env htmlEnglish w Hready)
    as (out & w' & evs & Hrun & (Htrace & _) & _ & Hmatch).
  destruct (pipeline_spec env htmlEnglish w Hready)
    as (out2 & w2 & evs2 & Hrun2 & Htrace2 & Hout & _ & Hdis & _ & Hframe & _).
  cbv zeta in *.
  rewrite Hrun in Hrun2. injection Hrun2 as <- <-.
  rewrite Htrace in Htrace2. apply app_inv_head in Htrace2. subst evs2.
  set (doc := cheerioLoad env htmlEnglish) in *.
  set (items := collectTextNodes doc) in *.
  assert (Hperm : Permutation (sortByPriority items) items)
    by apply sortByPriority_perm.
  exists out, w', (LogFound (List.length (sortByPriority items)) :: evs).
  split; [exact Hrun|]. split; [exact Htrace|]. split; [exact Hout|].
  destruct (sortByPriority items) as [|item0 rest] eqn:Hsorted.
  { subst evs.
    split; [now repeat constructor|]. split; [exact Hdis|].
    split; [exact Hframe|].
    intros item Hin. apply (Permutation_in _ (Permutation_sym Hperm)) in Hin.
    destruct Hin. }
  rewrite <- Hsorted in *. clear Hsorted.
  set (total := List.length (sortByPriority items)) in *.
  destruct Hmatch as (run & outs & -> & Hdoc & Hloop).
  destruct (loopRun_lines env _ _ _ _ _ _ Hloop) as (_ & Hnofail & _).
  split.
  { constructor; [reflexivity|]. apply Forall_app. split; [exact Hnofail|].
    now repeat constructor. }
  split; [exact Hdis|]. split; [exact Hframe|].
  assert (Hnd : NoDup (map node (sortByPriority items))).
  { eapply Permutation_NoDup; [apply Permutation_map; symmetry; exact Hperm|].
    apply collectTextNodes_NoDup. }
  assert (Hdata : Forall (fun item => getData (node item) doc
                                      = Some (originalText item))
                         (sortByPriority items)).
  { apply Forall_forall. intros item Hin.
    apply (Permutation_in _ Hperm) in Hin.
    apply collectTextNodes_sound in Hin as (Hchild & _).
    now apply textChildOf_getData in Hchild. }
  assert (Hfailed : failedNodes (LogFound total :: run ++ [LogCompleted total O])
                    = failedNodes run).
  { change (LogFound total :: run ++ [LogCompleted total O])
      with ([LogFound total] ++ run ++ [LogCompleted total O]).
    rewrite !failedNodes_app. simpl. apply app_nil_r. }
  intros item Hin.
  apply (Permutation_in _ (Permutation_sym Hperm)) in Hin.
  destruct (loopRun_items env _ _ _ _ _ _ Hloop item Hin)
    as (pre & j & t & revs & io & post & Heq & Hio & Hretry).
  pose proof (writeAll_item _ _ _ _ _ Hnd Hdata Hio) as Htext.
  rewrite <- Hdoc in Htext.
  assert (Hreport : In (node item) (failedNodes run) ->
                    match io with
                    | Failed _ | Returned (JsOther true) => True
                    | _ => False
                    end).
  { intros Hrep.
    destruct (loopRun_failed env _ _ _ _ _ _ Hloop _ Hrep)
      as (item' & out' & Hio' & Hnode & Hout').
    destruct (combine_functional _ _ _ _ _ _ Hnd Hio' Hio Hnode) as [_ ->].
    exact Hout'. }
  destruct (retryRun_decided env _ _ _ _ _ _ _ _ Hretry
              ltac:(unfold defaultMaxRetries; lia))
    as (Hfirst & Hall).
  exists (LogFound total :: pre), j, total,
         (Acquired t :: revs ++ itemTail item io ++ post
            ++ [LogCompleted total O]).
  assert (Hpre : countEvents isPosted (LogFound total :: pre)
                 = countEvents isPosted pre) by reflexivity.
  unfold itemReply. rewrite Hpre.
  split.
  { rewrite Heq. cbn [app]. rewrite <- !app_assoc. cbn [app].
    rewrite <- !app_assoc. reflexivity. }
  split.
  { rewrite Hfailed. intros Hrep. apply Hreport in Hrep. rewrite Htext.
    destruct io as [[|s|[|]]|message]; try contradiction; reflexivity. }
  split.
  - intros Hfails.
    destruct Hall as (cause & Hc & -> & _).
    { intros k Hk. apply Hfails. unfold defaultMaxRetries in *. lia. }
    split; [exact Htext|].
    exists cause. split; [exact Hc|].
    right. apply in_or_app. right. apply in_or_app. left. now left.
  - intros k v Hk Hprefix Hv.
    destruct (Hfirst k v ltac:(unfold defaultMaxRetries in *; lia) Hprefix Hv)
      as [-> _].
    split.
    + intros s -> Hs.
      apply attemptResult_inl in Hv as [_ Htruthy]. cbn [jsTruthy] in Htruthy.
      assert (Hlen : (0 <? List.length (trim s))%nat = true).
      { apply Nat.ltb_lt. destruct (trim s); [contradiction | simpl; lia]. }
      split.
      * rewrite Htext. cbn [itemText]. now rewrite Htruthy, Hlen.
      * rewrite Hfailed. intros Hrep. exact (Hreport Hrep).
    + intros Hblank. rewrite Htext.
      destruct v as [|s|b]; try reflexivity.
      cbn [itemText]. rewrite (Hblank s eq_refl). cbn [List.length Nat.ltb Nat.leb].
      now rewrite andb_false_r.
Qed.

End ServiceContract.

Section ServiceContractExamples.

Open Scope Z_scope.


Lemma failed_fragment_keeps_text_witness :
  ready (startWorld 0 freshLimiter)
  /\ exists out w',
      translateHtmlStructureOptimized
        (sampleEnv (selectiveService (js "Title") (js "Namaste")) headingLast)
        (renderPlain headingLast) (startWorld 0 freshLimiter)
      = Fulfilled out w'
      /\ getData [1; 0]%nat (document w') = Some (js "Title")
      /\ getData [0; 0]%nat (document w') = Some (js "Namaste").
Proof.
  split; [reflexivity|].
  destruct (failed_fragment_keeps_text
              (sampleEnv (selectiveService (js "Title") (js "Namaste"))
                         headingLast)
              (renderPlain headingLast) (startWorld 0 freshLimiter) eq_refl)
    as (out & w' & evs & Hrun & _ & _ & _ & _ & _ & Hitems).
  exists out, w'. split; [exact Hrun|]. split.
  - destruct (Hitems (mkTextNode [1; 0]%nat (js "Title") (js "Title") 5
                                 (js "h1")))
      as (pre & i & total & post & _ & _ & Hfail & _).
    { right. left. reflexivity. }
    destruct Hfail as [Hdata _]; [|exact Hdata].
    intros j _. eexists. reflexivity.
  - destruct (Hitems (mkTextNode [0; 0]%nat (js "Hello") (js "Hello") 0
                                 (js "p")))
      as (pre & i & total & post & _ & _ & _ & Hok).
    { left. reflexivity. }
    destruct (Hok O (JsStr (js "Namaste"))) as [Hdone _].
    { reflexivity. }
    { intros k Hk. inversion Hk. }
    { reflexivity. }
    destruct (Hdone (js "Namaste") eq_refl) as [Hdata _].
    { discriminate. }
    exact Hdata.
Defined.

End ServiceContractExamples.

(** ** The extractor, the number test and the tables of tags *)

Section ExtractionOrder.

Lemma before_app p q r : before q r -> before (p ++ q) (p ++ r).
Proof.
  intros H. induction p as [|i p IH]; [exact H|].
  simpl. now constructor.
Qed.

Lemma before_irreflexive p : ~ before p p.
Proof.
  induction p as [|i p IH]; intros H; inversion H; subst; [lia | auto].
Qed.

Lemma StronglySorted_app (A : Type) (R : A -> A -> Prop) (l1 l2 : list A) :
  StronglySorted R l1 -> StronglySorted R l2 ->
  (forall a b, In a l1 -> In b l2 -> R a b) ->
  StronglySorted R (l1 ++ l2).
Proof.
  intros H1 H2 Hcross. induction H1 as [|a l1 H1 IH Ha]; [exact H2|].
  simpl. constructor.
  - apply IH. intros x y Hx Hy. apply Hcross; [now right | exact Hy].
  - apply Forall_app. split; [exact Ha|].
    apply Forall_forall. intros b Hb. apply Hcross; [now left | exact Hb].
Qed.

Lemma StronglySorted_weaken (A : Type) (R R' : A -> A -> Prop) (l : list A) :
  (forall a b, R a b -> R' a b) ->
  StronglySorted R l -> StronglySorted R' l.
Proof.
  intros Himp. induction 1 as [|a l Hl IH Ha]; constructor; [exact IH|].
  eapply Forall_impl; [|exact Ha]. intros b. apply Himp.
Qed.

Lemma StronglySorted_flat_map (A B : Type) (R : A -> A -> Prop)
      (R' : B -> B -> Prop) (g : A -> list B) (l : list A) :
  StronglySorted R l ->
  (forall x, In x l -> StronglySorted R' (g x)) ->
  (forall x y a b, In x l -> In y l -> R x y ->
                   In a (g x) -> In b (g y) -> R' a b) ->
  StronglySorted R' (flat_map g l).
Proof.
  intros Hl. induction Hl as [|x l Hl IH Hx]; intros Hin Hcross;
    [constructor|].
  simpl. apply StronglySorted_app.
  - apply Hin. now left.
  - apply IH.
    + intros y Hy. apply Hin. now right.
    + intros y z a b Hy Hz. apply Hcross; now right.
  - intros a b Ha Hb. apply in_flat_map in Hb as (y & Hy & Hb).
    rewrite Forall_forall in Hx.
    apply (Hcross x y a b); [now left | now right | now apply Hx | | ];
      assumption.
Qed.

(** [$('*')] lists the elements in document order. *)
Lemma selectBelow_sorted p cs :
  Forall (fun c => forall p',
              StronglySorted (fun a b => before (elPath a) (elPath b))
                             (selectAll p' c)) cs ->
  forall j, StronglySorted (fun a b => before (elPath a) (elPath b))
                           (selectBelow p j cs).
Proof.
  induction 1 as [|c cs Hc Hcs IH]; intros j; simpl; [constructor|].
  apply StronglySorted_app; [apply Hc | apply IH |].
  intros a b Ha Hb.
  apply selectAll_sound in Ha as (q & _ & Hq & _).
  apply selectBelow_sound_all in Hb as (k & _ & _ & (q' & _ & Hq' & _)).
  rewrite Hq, Hq', <- !app_assoc. apply before_app. simpl.
  apply before_earlier. lia.
Qed.

Lemma selectAll_sorted n :
  forall p, StronglySorted (fun a b => before (elPath a) (elPath b))
                           (selectAll p n).
Proof.
  induction n as [d|d|name d|tag attribs cs IH|cs IH] using Node_induction;
    intros p; [constructor | constructor | constructor | |].
  - rewrite selectAll_element. constructor; [now apply selectBelow_sorted|].
    apply Forall_forall. intros el Hel.
    apply selectBelow_sound_all in Hel as (k & _ & _ & (q & _ & Hq & _)).
    rewrite Hq, <- app_assoc. cbn [elPath].
    rewrite <- (app_nil_r p) at 1. apply before_app. simpl. constructor.
  - rewrite selectAll_root. now apply selectBelow_sorted.
Qed.

Lemma collectChildren_sorted p tag cs :
  forall j,
    StronglySorted (fun a b => exists ja jb,
                        node a = p ++ [ja] /\ node b = p ++ [jb]
                        /\ (ja < jb)%nat)
                   (collectChildren p tag j cs).
Proof.
  induction cs as [|c cs IH]; intros j; simpl; [constructor|].
  apply StronglySorted_app; [| apply IH |].
  - destruct c; try constructor.
    destruct (qualifies _); repeat constructor.
  - intros a b Ha Hb.
    assert (Hnode : node a = p ++ [j]).
    { destruct c; try contradiction.
      destruct (qualifies _); [|contradiction]. now destruct Ha as [<-|[]]. }
    apply collectChildren_sound in Hb as (k & _ & Hb & _).
    exists j, (S j + k)%nat. repeat split; [assumption | assumption | lia].
Qed.

End ExtractionOrder.

Section ExtractorProperties.

(** X9. The extractor returns exactly the text nodes that sit directly in
    an element other than [script], [style], [meta] and [link] and whose
    trimmed text has two characters at least and is not a number; each
    fragment holds the text of its node, that text trimmed, the name of the
    element and the priority of that name; and no node is returned
    twice. *)
Theorem extraction_characterised doc :
  (forall item,
      In item (collectTextNodes doc)
      <-> textChildOf doc (node item) (tagName item) (originalText item)
          /\ includes nonTranslatable (tagName item) = false
          /\ trimmedText item = trim (originalText item)
          /\ (2 <= List.length (trimmedText item))%nat
          /\ isOnlyNumbers (trimmedText item) = false
          /\ priority item = priorityOf (tagName item))
  /\ NoDup (map node (collectTextNodes doc)).
Proof.
  split; [|apply collectTextNodes_NoDup].
  intros item. split.
  - intros Hin.
    apply collectTextNodes_sound in Hin as (Hc & Ht & Hq & Hp & Hi).
    unfold qualifies in Hq. apply andb_prop in Hq as [Hlen Hnum].
    apply Nat.ltb_lt in Hlen. apply negb_true_iff in Hnum.
    repeat split; try assumption.
  - intros (Hc & Hi & Ht & Hlen & Hnum & Hp).
    assert (Hq : qualifies (trim (originalText item)) = true).
    { unfold qualifies. rewrite <- Ht, Hnum.
      apply andb_true_iff. split; [now apply Nat.ltb_lt | reflexivity]. }
    pose proof (collectTextNodes_complete doc _ _ _ Hc Hi Hq) as Hin.
    destruct item as [nd ot tt pr tg]. simpl in *. now subst.
Qed.

(** X10. The fragments are extracted element by element, the elements in
    document order and the text nodes of one element in the order of its
    children; this is not the order of the text nodes in the document,
    since the text of a nested element comes after all the text of the
    element around it. *)
Theorem extraction_order doc :
  StronglySorted extractedBefore (collectTextNodes doc)
  /\ map originalText (collectTextNodes boldInside)
     = [js "Read "; js " first"; js "this"].
Proof.
  split; [|reflexivity].
  unfold collectTextNodes.
  apply StronglySorted_flat_map
    with (R := fun a b => before (elPath a) (elPath b)).
  - apply selectAll_sorted.
  - intros el _. unfold collectElement.
    destruct (includes nonTranslatable (elTagName el)); [constructor|].
    eapply StronglySorted_weaken; [|apply collectChildren_sorted].
    intros a b (ja & jb & Ha & Hb & Hlt).
    exists (elPath el), ja, (elPath el), jb. auto.
  - intros x y a b _ _ Hxy Ha Hb. unfold collectElement in Ha, Hb.
    destruct (includes nonTranslatable (elTagName x)); [contradiction|].
    destruct (includes nonTranslatable (elTagName y)); [contradiction|].
    apply collectChildren_sound in Ha as (ka & _ & Ha & _).
    apply collectChildren_sound in Hb as (kb & _ & Hb & _).
    exists (elPath x), (O + ka)%nat, (elPath y), (O + kb)%nat. auto.
Qed.

(** X11. [isOnlyNumbers] is [true] exactly for the strings made of
    digits, [.] and [,] that hold a digit: one other character anywhere (a
    sign, a space, a percent sign, a letter) makes it [false], and so does
    the lack of a digit. *)
Theorem isOnlyNumbers_digits_and_separators s :
  (isOnlyNumbers s = true
   <-> Forall (fun c => isDigit c = true \/ c = dot \/ c = comma) s
       /\ Exists (fun c => isDigit c = true) s)
  /\ (forall c, In c s -> isOtherUnit c = true -> isOnlyNumbers s = false)
  /\ (Forall (fun c => c = dot \/ c = comma) s -> isOnlyNumbers s = false).
Proof.
  split; [apply isOnlyNumbers_true|]. split.
  - intros c Hc Hother.
    destruct (isOnlyNumbers s) eqn:Hs; [|reflexivity].
    apply isOnlyNumbers_true in Hs as [Hall _].
    rewrite Forall_forall in Hall. unfold isOtherUnit in Hother.
    apply andb_prop in Hother as [Hd Hsep].
    destruct (Hall c Hc) as [H | [-> | ->]];
      [rewrite H in Hd | |]; discriminate.
  - intros Hsep.
    destruct (isOnlyNumbers s) eqn:Hs; [|reflexivity].
    apply isOnlyNumbers_true in Hs as [_ Hex].
    apply Exists_exists in Hex as (c & Hc & Hd).
    rewrite Forall_forall in Hsep.
    destruct (Hsep c Hc) as [-> | ->]; discriminate.
Qed.

Lemma lowerUnit_idempotent c : lowerUnit (lowerUnit c) = lowerUnit c.
Proof.
  unfold lowerUnit.
  destruct ((65 <=? c) && (c <=? 90))%N eqn:Hc; [|now rewrite Hc].
  apply andb_prop in Hc as [H1 H2].
  apply N.leb_le in H1. apply N.leb_le in H2.
  destruct (N.leb_spec 65 (c + 32)); destruct (N.leb_spec (c + 32) 90);
    simpl; try reflexivity; lia.
Qed.

Lemma toLowerCase_idempotent s : toLowerCase (toLowerCase s) = toLowerCase s.
Proof.
  unfold toLowerCase. rewrite map_map. apply map_ext.
  apply lowerUnit_idempotent.
Qed.

(** X12. The priority and the context hint of a tag ignore its case; the
    priority lies between 0 and 5; a tag with a priority gets a hint of
    its own, never the one of a paragraph; and the list of containers that
    are not translated is matched as it is written, in lower case. *)
Theorem tag_tables_ignore_case tag :
  priorityOf (toLowerCase tag) = priorityOf tag
  /\ getContextHint (toLowerCase tag) = getContextHint tag
  /\ (0 <= priorityOf tag <= 5)%Z
  /\ ((0 < priorityOf tag)%Z ->
      getContextHint tag <> js "This is regular paragraph text.")
  /\ (includes nonTranslatable tag = true -> toLowerCase tag = tag).
Proof.
  split; [unfold priorityOf; now rewrite toLowerCase_idempotent|].
  split; [unfold getContextHint; now rewrite toLowerCase_idempotent|].
  split.
  { unfold priorityOf.
    repeat match goal with
           | |- context [if ?b then _ else _] => destruct b
           end; lia. }
  split.
  - unfold priorityOf, getContextHint. set (t := toLowerCase tag).
    destruct (jsstring_eqb t (js "h1")) eqn:H1;
      [intros _ H; vm_compute in H; discriminate|].
    destruct (jsstring_eqb t (js "h2")) eqn:H2;
      [intros _ H; vm_compute in H; discriminate|].
    destruct (jsstring_eqb t (js "h3")) eqn:H3;
      [intros _ H; vm_compute in H; discriminate|].
    cbn [orb].
    destruct (jsstring_eqb t (js "h4") || jsstring_eqb t (js "h5")
              || jsstring_eqb t (js "h6"));
      [intros _ H; vm_compute in H; discriminate|].
    destruct (jsstring_eqb t (js "li")) eqn:Hli.
    { destruct (jsstring_eqb t (js "strong") || jsstring_eqb t (js "b"));
        intros _ H; vm_compute in H; discriminate. }
    destruct (jsstring_eqb t (js "strong") || jsstring_eqb t (js "b"));
      [intros _ H; vm_compute in H; discriminate | intros H; lia].
  - intros Hin. apply includes_In in Hin.
    destruct Hin as [<-|[<-|[<-|[<-|[]]]]]; reflexivity.
Qed.

End ExtractorProperties.

Section ExtractorExamples.

Lemma extraction_characterised_witness :
  In (mkTextNode [O; O] (js "Hello") (js "Hello") 0 (js "p"))
     (collectTextNodes headingLast).
Proof.
  apply (proj1 (extraction_characterised headingLast)).
  cbn [node tagName originalText trimmedText priority].
  split.
  { exists [O], O, [], [Text (js "Hello")]. repeat split. }
  repeat split; vm_compute; lia.
Defined.

Lemma isOnlyNumbers_digits_and_separators_witness :
  In 45%N (js "-5") /\ isOtherUnit 45 = true /\ isOnlyNumbers (js "-5") = false.
Proof.
  assert (Hin : In 45%N (js "-5")) by (vm_compute; auto).
  split; [exact Hin|]. split; [reflexivity|].
  exact (proj1 (proj2 (isOnlyNumbers_digits_and_separators (js "-5")))
           45%N Hin eq_refl).
Defined.

Lemma tag_tables_ignore_case_witness :
  (0 < priorityOf (js "H1"))%Z
  /\ getContextHint (js "H1") <> js "This is regular paragraph text.".
Proof.
  split; [reflexivity|].
  apply (proj1 (proj2 (proj2 (proj2 (tag_tables_ignore_case (js "H1")))))).
  reflexivity.
Defined.

End ExtractorExamples.

(** ** The order and the length of the waits *)

Section LimiterOrder.

Open Scope Z_scope.

(** The loop admits the callers in the order of the queue, no two of them
    less than 100 ms apart. *)
Lemma processQueue_fifo fuel :
  forall now rl adm t rl',
    processQueue fuel now rl = Some (adm, t, rl') ->
    map fst adm = queue rl
    /\ StronglySorted (fun a b => a + 100 <= b) (map snd adm)
    /\ Forall (fun x => Z.max now (wakeAt rl) <= x) (map snd adm).
Proof.
  induction fuel as [|fuel IH]; intros now rl adm t rl' Hrun;
    simpl in Hrun; destruct (queue rl) as [|r rest] eqn:Hq;
    try discriminate.
  - injection Hrun as <- _ _. repeat split; constructor.
  - injection Hrun as <- _ _. repeat split; constructor.
  - unfold timerFires in Hrun. set (t1 := Z.max now (wakeAt rl)) in *.
    destruct (processQueueTurn_cases t1 rl r rest Hq)
      as [[Hlt Hstep] | [Hge Hstep]]; rewrite Hstep in Hrun;
      match type of Hrun with
      | match processQueue fuel t1 ?rl1 with _ => _ end = _ =>
          destruct (processQueue fuel t1 rl1) as [[[adm1 tEnd] rlEnd]|] eqn:Hrec;
          [|discriminate];
          apply IH in Hrec as (Hids & Hsorted & Hlate)
      end;
      injection Hrun as <- _ _; cbn [queue wakeAt] in *.
    + cbn [map fst snd]. split; [now rewrite Hids|]. split.
      * constructor; [exact Hsorted|].
        eapply Forall_impl; [|exact Hlate]. intros x Hx. simpl in Hx. lia.
      * constructor; [lia|].
        eapply Forall_impl; [|exact Hlate]. intros x Hx. simpl in Hx. lia.
    + split; [exact Hids|]. split; [exact Hsorted|].
      eapply Forall_impl; [|exact Hlate]. intros x Hx. simpl in Hx.
      pose proof (Z.le_max_l t1
                    (t1 + timerDelay
                            (option_map (fun x0 => x0 + 50)
                               (waitTimeOf t1 (timeWindow rl)
                                  (cleanOld t1 (timeWindow rl) (requests rl)))))).
      lia.
Qed.

(** Callers that arrive while the loop runs are put at the back of the
    queue. *)
Lemma waits_while_processing ids :
  forall now rl acc,
    processing rl = true ->
    fold_left
      (fun acc id =>
         let '(rl1, resolved) := wait now id (fst acc) in
         (rl1, snd acc ++ match resolved with
                          | Some r => [(r, now)]
                          | None => []
                          end))
      ids (rl, acc)
    = (mkRateLimiter (maxRequests rl) (timeWindow rl) (requests rl)
         (queue rl ++ ids) true (wakeAt rl), acc).
Proof.
  induction ids as [|id ids IH]; intros now rl acc Hp.
  - simpl. rewrite app_nil_r. destruct rl; simpl in *. now subst.
  - cbn [fold_left fst snd].
    assert (Hw : wait now id rl
                 = (mkRateLimiter (maxRequests rl) (timeWindow rl)
                      (requests rl) (queue rl ++ [id]) true (wakeAt rl),
                    None)).
    { unfold wait. cbn [processing]. now rewrite Hp. }
    rewrite Hw, app_nil_r, IH by reflexivity.
    cbn [maxRequests timeWindow requests queue wakeAt].
    now rewrite <- app_assoc.
Qed.

(** X13. Callers that all call [wait()] at the same time on a limiter
    that can admit are all admitted, in the order of their calls, no
    earlier than the time of the calls and no two of them less than 100 ms
    apart. *)
Theorem queue_serves_in_arrival_order ids now rl :
  0 < maxRequests rl ->
  queue rl = [] ->
  exists admitted,
    burst ids now rl = Some admitted
    /\ map fst admitted = ids
    /\ StronglySorted (fun a b => a + 100 <= b) (map snd admitted)
    /\ Forall (fun t => now <= t) (map snd admitted).
Proof.
  intros Hmx Hq. unfold burst.
  destruct ids as [|id ids].
  { cbn [fold_left fst snd]. destruct (processQueueFuel rl); simpl;
      rewrite Hq; exists []; repeat split; constructor. }
  cbn [fold_left fst snd app].
  assert (Hfirst :
            exists rl1 acc,
              (let '(rl2, resolved) := wait now id rl in
               (rl2, match resolved with
                     | Some r => [(r, now)]
                     | None => []
                     end)) = (rl1, acc)
              /\ processing rl1 = true
              /\ maxRequests rl1 = maxRequests rl
              /\ ((acc = [] /\ queue rl1 = [id])
                  \/ (acc = [(id, now)] /\ queue rl1 = []
                      /\ wakeAt rl1 = now + 100))).
  { unfold wait. cbn [processing]. rewrite Hq. cbn [app].
    destruct (processing rl) eqn:Hp.
    - do 2 eexists. split; [reflexivity|]. cbn. auto.
    - match goal with
      | |- context [processQueueTurn now ?rl0] =>
          destruct (processQueueTurn_cases now rl0 id [] eq_refl)
            as [[_ ->] | [_ ->]]
      end; do 2 eexists; (split; [reflexivity|]); cbn;
        (split; [reflexivity|]); (split; [reflexivity|]);
        [right | left]; repeat split. }
  destruct Hfirst as (rl1 & acc & Hstep & Hp1 & Hmx1 & Hcases).
  match goal with
  | |- context [fold_left ?f ids ?start] =>
      replace start with (rl1, acc)
  end.
  rewrite (waits_while_processing ids now rl1 acc Hp1). cbn [fst snd].
  set (rl2 := mkRateLimiter _ _ _ _ _ _).
  destruct (processQueue_terminates (processQueueFuel rl2) now rl2)
    as [[[adm t] rl3] Hrun].
  { unfold rl2. cbn. lia. }
  { left. unfold processQueueFuel. lia. }
  rewrite Hrun. eexists. split; [reflexivity|].
  apply processQueue_fifo in Hrun as (Hids & Hsorted & Hlate).
  unfold rl2 in Hids, Hlate. cbn [queue wakeAt] in Hids, Hlate.
  rewrite map_app, map_app, Hids.
  destruct Hcases as [[-> Hq1] | (-> & Hq1 & Hw1)]; rewrite Hq1 in *.
  - cbn [map app]. split; [reflexivity|]. split; [exact Hsorted|].
    eapply Forall_impl; [|exact Hlate]. intros x Hx. simpl in Hx. lia.
  - cbn [map app fst snd]. split; [reflexivity|]. rewrite Hw1 in Hlate.
    split.
    + constructor; [exact Hsorted|].
      eapply Forall_impl; [|exact Hlate]. intros x Hx. simpl in Hx. lia.
    + constructor; [lia|].
      eapply Forall_impl; [|exact Hlate]. intros x Hx. simpl in Hx. lia.
Qed.

(** The sleep of a turn that finds the window full lasts until the oldest
    timestamp has left the window, 50 ms more, and no longer. *)
Lemma full_window_delay t0 tw mx cleaned extra :
  0 < mx -> mx <= Z.of_nat (List.length cleaned) -> 1 <= extra ->
  Forall (fun time => t0 - time < tw) cleaned ->
  Forall (fun time => time <= t0) cleaned ->
  1 <= timerDelay (option_map (fun t => t + extra) (waitTimeOf t0 tw cleaned))
    <= tw + extra.
Proof.
  intros Hmx Hlen Hextra Hfresh Hpast.
  destruct cleaned as [|oldest rest]; [simpl in Hlen; lia|].
  inversion Hfresh as [|? ? Hf _]; subst.
  inversion Hpast as [|? ? Hp _]; subst.
  simpl. destruct (Z.ltb_spec (tw - (t0 - oldest) + extra) 1); lia.
Qed.

(** A turn of the loop on a limiter whose timer was armed admits the one
    caller that waits. *)
Lemma processQueue_armed fuel now rl r :
  (1 <= fuel)%nat ->
  queue rl = [r] ->
  armed rl ->
  Z.of_nat (List.length (requests rl)) <= maxRequests rl ->
  exists rl',
    processQueue fuel now rl
    = Some ([(r, Z.max now (wakeAt rl))], Z.max now (wakeAt rl), rl').
Proof.
  intros Hfuel Hq Harmed Hlen.
  destruct fuel as [|fuel]; [lia|].
  simpl. rewrite Hq. unfold timerFires.
  set (T := Z.max now (wakeAt rl)).
  pose proof (armed_purges T rl Harmed ltac:(unfold T; lia)) as Hpurge.
  destruct (processQueueTurn_cases T rl r [] Hq) as [[_ ->] | [Hge _]];
    [|lia].
  eexists. destruct fuel; reflexivity.
Qed.

(** The loop with one caller waiting on a window at rest: the caller is
    admitted at the first turn or, the window being full then, at the
    second, a window and 50 ms later at most. *)
Lemma processQueue_lone fuel now rl r :
  (2 <= fuel)%nat ->
  queue rl = [r] ->
  0 < maxRequests rl ->
  Z.of_nat (List.length (requests rl)) <= maxRequests rl ->
  Forall (fun time => time <= Z.max now (wakeAt rl)) (requests rl) ->
  exists t rl',
    processQueue fuel now rl = Some ([(r, t)], t, rl')
    /\ Z.max now (wakeAt rl) <= t
       <= Z.max now (wakeAt rl) + Z.max 0 (timeWindow rl + 50)
    /\ (Z.of_nat (List.length (cleanOld (Z.max now (wakeAt rl)) (timeWindow rl)
                                 (requests rl)))
        < maxRequests rl -> t = Z.max now (wakeAt rl)).
Proof.
  intros Hfuel Hq Hmx Hlen Hpast.
  destruct fuel as [|fuel]; [lia|].
  simpl. rewrite Hq. unfold timerFires.
  set (T := Z.max now (wakeAt rl)) in *.
  set (cleaned := cleanOld T (timeWindow rl) (requests rl)).
  destruct (processQueueTurn_cases T rl r [] Hq) as [[Hlt ->] | [Hge ->]];
    fold cleaned in Hlt || fold cleaned in Hge.
  - exists T. eexists. split; [destruct fuel; reflexivity|].
    split; [lia | reflexivity].
  - fold cleaned.
    assert (Hdelay : 1 <= timerDelay
                            (option_map (fun t => t + 50)
                               (waitTimeOf T (timeWindow rl) cleaned))
                     <= timeWindow rl + 50).
    { apply full_window_delay with (mx := maxRequests rl);
        [assumption | assumption | lia | apply cleanOld_fresh |].
      apply Forall_forall. intros x Hx. apply filter_In in Hx as [Hx _].
      rewrite Forall_forall in Hpast. now apply Hpast. }
    set (delay := timerDelay _) in *.
    set (rlB := mkRateLimiter _ _ cleaned [r] true (T + delay)).
    destruct (processQueue_armed fuel T rlB r) as [rl' Hrun].
    + lia.
    + reflexivity.
    + apply wait_arms; [assumption | assumption | apply cleanOld_fresh].
    + unfold rlB. cbn [requests maxRequests].
      pose proof (cleanOld_length T (timeWindow rl) (requests rl)).
      fold cleaned in H. lia.
    + rewrite Hrun. unfold rlB. cbn [wakeAt].
      exists (Z.max T (T + delay)). eexists. split; [reflexivity|].
      split; [lia | intros Hlt; lia].
Qed.

(** X14. A caller that finds the window at rest always gets through, at
    the first turn of the loop when the window has room then, and
    otherwise no later than a window and 50 ms after it; and it leaves the
    window at rest again. *)
Theorem lone_caller_waits_at_most_a_window now resolve rl :
  0 < maxRequests rl ->
  atRest now rl ->
  exists t rl',
    acquire now resolve rl = Some (t, rl')
    /\ firstTurn now rl <= t
       <= firstTurn now rl + Z.max 0 (timeWindow rl + 50)
    /\ (Z.of_nat (List.length (cleanOld (firstTurn now rl) (timeWindow rl)
                                 (requests rl)))
        < maxRequests rl -> t = firstTurn now rl)
    /\ atRest t rl'.
Proof.
  intros Hmx (Hq & Hpast & Hlen).
  assert (Hrest : forall t rl',
             acquire now resolve rl = Some (t, rl') -> atRest t rl').
  { intros t rl' Hacq. pose proof Hacq as Hidle.
    apply acquire_idle in Hidle as [_ Hreq]; [|exact Hq].
    apply acquire_result in Hacq
      as [(Hm & _ & Hq' & _ & _ & kept & Hreq' & Hkept & _) Hle].
    rewrite Hreq in Hreq'. apply app_inj_tail in Hreq' as [Hk _].
    split; [exact Hq'|]. rewrite Hreq. split.
    - apply Forall_app. split; [|repeat constructor; lia].
      apply Forall_forall. intros x Hx. apply filter_In in Hx as [Hx _].
      rewrite Forall_forall in Hpast. specialize (Hpast x Hx). lia.
    - rewrite length_app, Hk, Hm. simpl. lia. }
  assert (Hgoal : exists t rl',
             acquire now resolve rl = Some (t, rl')
             /\ firstTurn now rl <= t
                <= firstTurn now rl + Z.max 0 (timeWindow rl + 50)
             /\ (Z.of_nat (List.length
                             (cleanOld (firstTurn now rl) (timeWindow rl)
                                (requests rl)))
                 < maxRequests rl -> t = firstTurn now rl)).
  { unfold acquire, wait, firstTurn. cbn [processing queue]. rewrite Hq.
    cbn [app].
    destruct (processing rl) eqn:Hp.
    - cbv beta iota zeta. cbn [queue].
      set (rl1 := mkRateLimiter _ _ _ [resolve] true _).
      destruct (processQueue_lone (processQueueFuel rl1) now rl1 resolve)
        as (t & rl' & Hrun & Hbound & Hroom).
      + unfold processQueueFuel, rl1. cbn [queue List.length]. lia.
      + reflexivity.
      + exact Hmx.
      + exact Hlen.
      + unfold rl1. cbn [requests wakeAt].
        eapply Forall_impl; [|exact Hpast]. intros x Hx. simpl in Hx. lia.
      + rewrite Hrun. exists t, rl'. split; [reflexivity|].
        split; [exact Hbound | exact Hroom].
    - set (rl1 := mkRateLimiter _ _ _ [resolve] false _).
      set (cleaned := cleanOld now (timeWindow rl) (requests rl)).
      destruct (processQueueTurn_cases now rl1 resolve [] eq_refl)
        as [[Hlt ->] | [Hge ->]]; cbv beta iota zeta; cbn [queue].
      + do 2 eexists. split; [reflexivity|]. split; [lia | reflexivity].
      + unfold rl1 in Hge |- *. cbn [requests timeWindow maxRequests] in *.
        fold cleaned in Hge |- *.
        assert (Hdelay : 1 <= timerDelay
                                (option_map (fun t => t + 50)
                                   (waitTimeOf now (timeWindow rl) cleaned))
                         <= timeWindow rl + 50).
        { apply full_window_delay with (mx := maxRequests rl);
            [assumption | assumption | lia | apply cleanOld_fresh |].
          apply Forall_forall. intros x Hx. apply filter_In in Hx as [Hx _].
          rewrite Forall_forall in Hpast. now apply Hpast. }
        set (delay := timerDelay _) in *.
        set (rlB := mkRateLimiter _ _ cleaned [resolve] true (now + delay)).
        destruct (processQueue_armed (processQueueFuel rlB) now rlB resolve)
          as [rl' Hrun].
        * unfold processQueueFuel, rlB. cbn [queue List.length]. lia.
        * reflexivity.
        * apply wait_arms; [assumption | assumption | apply cleanOld_fresh].
        * unfold rlB. cbn [requests maxRequests].
          pose proof (cleanOld_length now (timeWindow rl) (requests rl)).
          fold cleaned in H. lia.
        * rewrite Hrun. unfold rlB. cbn [wakeAt].
          do 2 eexists. split; [reflexivity|].
          split; [lia | intros Hlt; lia]. }
  destruct Hgoal as (t & rl' & Hacq & Hbound & Hroom).
  exists t, rl'. split; [exact Hacq|]. split; [exact Hbound|].
  split; [exact Hroom | now apply Hrest].
Qed.


End LimiterOrder.

Section LimiterOrderExamples.

Open Scope Z_scope.

Lemma queue_serves_in_arrival_order_witness :
  0 < maxRequests freshLimiter
  /\ queue freshLimiter = []
  /\ exists admitted,
      burst [7; 8; 9; 10]%nat 0 freshLimiter = Some admitted
      /\ map fst admitted = [7; 8; 9; 10]%nat.
Proof.
  split; [reflexivity|]. split; [reflexivity|].
  destruct (queue_serves_in_arrival_order [7; 8; 9; 10]%nat 0 freshLimiter
              eq_refl eq_refl)
    as (admitted & Hrun & Hids & _).
  exists admitted. auto.
Defined.

Lemma lone_caller_waits_at_most_a_window_witness :
  0 < maxRequests (mkRateLimiter 3 1500 [0; 100; 200] [] true 300)
  /\ atRest 250 (mkRateLimiter 3 1500 [0; 100; 200] [] true 300)
  /\ exists t rl',
      acquire 250 1 (mkRateLimiter 3 1500 [0; 100; 200] [] true 300)
      = Some (t, rl')
      /\ 300 <= t <= 300 + 1550.
Proof.
  assert (Hrest : atRest 250 (mkRateLimiter 3 1500 [0; 100; 200] [] true 300)).
  { split; [reflexivity|]. split; [|simpl; lia].
    repeat constructor; simpl; lia. }
  split; [reflexivity|]. split; [exact Hrest|].
  destruct (lone_caller_waits_at_most_a_window 250 1%nat
              (mkRateLimiter 3 1500 [0; 100; 200] [] true 300)
              eq_refl Hrest)
    as (t & rl' & Hrun & Hbound & _).
  exists t, rl'. split; [exact Hrun | exact Hbound].
Defined.


End LimiterOrderExamples.

(** ** The upload handler *)

Section UploadFacts.

Import Upload.

Variable env : Env.
Variable collaborators : Collaborators.

Lemma existsSync_removeFile p fs : existsSync p (removeFile p fs) = false.
Proof.
  unfold existsSync, removeFile.
  induction fs as [|[q bytes] fs IH]; [reflexivity|].
  simpl. destruct (jsstring_eqb p q) eqn:Hpq; simpl; [exact IH|].
  now rewrite Hpq.
Qed.

Lemma readFile_removeFile_other p q fs :
  q <> p -> readFile q (removeFile p fs) = readFile q fs.
Proof.
  intros Hne. unfold removeFile.
  induction fs as [|[r bytes] fs IH]; [reflexivity|].
  simpl. destruct (jsstring_eqb p r) eqn:Hpr; simpl.
  - apply jsstring_eqb_eq in Hpr. subst r.
    destruct (jsstring_eqb q p) eqn:Hqp; [|exact IH].
    apply jsstring_eqb_eq in Hqp. contradiction.
  - now rewrite IH.
Qed.

Lemma failed_spec filePath message s :
  let '(r, s') := failed filePath message s in
  r = ProcessingFailed message
  /\ world s' = world s /\ inserted s' = inserted s
  /\ (truthy filePath = true -> existsSync filePath (files s') = false)
  /\ (forall q, q <> filePath -> readFile q (files s') = readFile q (files s)).
Proof.
  unfold failed. cbn [files logLine].
  destruct (truthy filePath) eqn:Ht; cbn [andb].
  - destruct (existsSync filePath (files s)) eqn:He; cbn.
    + repeat split; auto using existsSync_removeFile.
      intros q Hq. now apply readFile_removeFile_other.
    + repeat split; auto.
  - repeat split; auto. discriminate.
Qed.


(** X17. The translation service cannot fail an upload.  For a [.docx]
    file that is not empty and that mammoth converts, on a server whose
    limiter can admit, the handler hands the [lessons] table exactly one
    row, with the converted markup as [content] and what the pipeline
    returns for it as [content_pa], and answers what the table decides:
    200 with the first row, or 400 with the message of the table; it never
    answers 500. *)
Theorem upload_survives_translation_failures req s f buffer htmlEnglish :
  ready (world s) ->
  file req = Some f ->
  toLowerCase
    (extname collaborators
       (match originalname f with Some n => n | None => [] end))
  = js ".docx" ->
  readFile (path f) (files s) = Some buffer ->
  buffer <> [] ->
  convertToHtml collaborators buffer = inl htmlEnglish ->
  exists htmlPunjabi w' response s',
    translateHtmlStructureOptimized env htmlEnglish (world s)
    = Fulfilled htmlPunjabi w'
    /\ upload env collaborators req s = Some (response, s')
    /\ world s' = w'
    /\ inserted s'
       = inserted s
         ++ [mkLesson (title req) htmlEnglish htmlPunjabi (week req)
                      (subject req) (className req)]
    /\ response
       = match insertLesson collaborators
                 (mkLesson (title req) htmlEnglish htmlPunjabi (week req)
                           (subject req) (className req)) with
         | InsertError message => BadRequest message
         | Inserted data => Processed (nth_error data 0)
         end
    /\ (forall details, response <> ProcessingFailed details).
Proof.
  intros Hready Hfile Hext Hread Hbuffer Hconvert.
  destruct (pipeline_run env htmlEnglish (world s) Hready)
    as (htmlPunjabi & w' & evs & Hrun & _).
  exists htmlPunjabi, w'.
  unfold upload. rewrite Hfile. cbv zeta. rewrite Hext, Hread.
  rewrite jsstring_eqb_refl. cbn [negb].
  destruct buffer as [|b buffer]; [contradiction|].
  cbn [List.length Nat.eqb]. rewrite Hconvert.
  cbn [world logLine]. rewrite Hrun.
  destruct (insertLesson collaborators _) as [message | data] eqn:Hinsert.
  - do 2 eexists. split; [reflexivity|]. split; [reflexivity|].
    repeat split. intros details. discriminate.
  - do 2 eexists. split; [reflexivity|]. split; [reflexivity|].
    split; [now destruct (truthy (path f) && _)|].
    split; [now destruct (truthy (path f) && _)|].
    split; [reflexivity|]. intros details. discriminate.
Qed.

(** X18. Whatever the handler answers, the uploaded file is gone
    afterwards, unless the answer is the 400 of a failed insert, which
    returns before the file is removed; and no other file is touched. *)
Theorem upload_removes_the_file req s f response s' :
  file req = Some f ->
  truthy (path f) = true ->
  upload env collaborators req s = Some (response, s') ->
  (existsSync (path f) (files s') = true ->
   exists message lesson,
     response = BadRequest message
     /\ insertLesson collaborators lesson = InsertError message
     /\ inserted s' = inserted s ++ [lesson])
  /\ (forall q, q <> path f ->
                readFile q (files s') = readFile q (files s)).
Proof.
  intros Hfile Htruthy. unfold upload. rewrite Hfile. cbv zeta.
  assert (Hfailed : forall message s0,
             files s0 = files s ->
             Some (failed (path f) message s0) = Some (response, s') ->
             (existsSync (path f) (files s') = true ->
              exists message lesson,
                response = BadRequest message
                /\ insertLesson collaborators lesson = InsertError message
                /\ inserted s' = inserted s ++ [lesson])
             /\ (forall q, q <> path f ->
                           readFile q (files s') = readFile q (files s))).
  { intros message s0 Hfiles Heq.
    pose proof (failed_spec (path f) message s0) as Hspec.
    destruct (failed (path f) message s0) as [r0 s0'].
    injection Heq as <- <-.
    destruct Hspec as (_ & _ & _ & Hgone & Hother).
    rewrite Hgone by assumption. split; [discriminate|].
    intros q Hq. rewrite Hother by assumption. now rewrite Hfiles. }
  assert (Hremoved : forall r0 s0,
             files s0 = removeFile (path f) (files s) ->
             Some (r0, s0) = Some (response, s') ->
             (existsSync (path f) (files s') = true ->
              exists message lesson,
                response = BadRequest message
                /\ insertLesson collaborators lesson = InsertError message
                /\ inserted s' = inserted s ++ [lesson])
             /\ (forall q, q <> path f ->
                           readFile q (files s') = readFile q (files s))).
  { intros r0 s0 Hfiles Heq. injection Heq as <- <-. rewrite Hfiles.
    rewrite existsSync_removeFile. split; [discriminate|].
    intros q Hq. now apply readFile_removeFile_other. }
  unfold unlinkSync.
  destruct (negb (jsstring_eqb _ (js ".docx"))).
  { destruct (existsSync (path f) (files s));
      [apply Hremoved | apply Hfailed]; reflexivity. }
  destruct (readFile (path f) (files s)) as [buffer|] eqn:Hread;
    [|apply Hfailed; reflexivity].
  destruct (List.length buffer =? 0)%nat.
  { destruct (existsSync (path f) (files s));
      [apply Hremoved | apply Hfailed]; reflexivity. }
  destruct (convertToHtml collaborators buffer) as [htmlEnglish | message];
    [|apply Hfailed; reflexivity].
  cbn [world logLine].
  destruct (translateHtmlStructureOptimized env htmlEnglish (world s))
    as [htmlPunjabi w' | message w' |]; [| apply Hfailed; reflexivity
                                         | discriminate].
  destruct (insertLesson collaborators _) as [message | data] eqn:Hinsert.
  - intros Heq. injection Heq as <- <-. cbn [files logLine recordInsert
      setWorld inserted]. split; [|reflexivity].
    intros _. do 2 eexists. split; [reflexivity|].
    split; [exact Hinsert | reflexivity].
  - cbn [files logLine recordInsert setWorld]. rewrite Htruthy. cbn [andb].
    destruct (existsSync (path f) (files s)) eqn:Hexists.
    + apply Hremoved. reflexivity.
    + intros Heq. injection Heq as <- <-.
      cbn [files logLine recordInsert setWorld]. rewrite Hexists.
      split; [discriminate | reflexivity].
Qed.

End UploadFacts.

Section UploadExamples.

Import Upload.


Lemma upload_survives_translation_failures_witness :
  ready (world sampleServer)
  /\ exists htmlPunjabi w' response s',
      translateHtmlStructureOptimized (sampleEnv deadService headingLast)
        (js "<p>Hello</p>") (world sampleServer)
      = Fulfilled htmlPunjabi w'
      /\ upload (sampleEnv deadService headingLast) sampleCollaborators
                (sampleRequest "Lesson.DOCX") sampleServer
         = Some (response, s')
      /\ response = Processed (Some (js "row")).
Proof.
  split; [reflexivity|].
  destruct (upload_survives_translation_failures
              (sampleEnv deadService headingLast) sampleCollaborators
              (sampleRequest "Lesson.DOCX") sampleServer
              (mkUploadedFile (js "uploads/1") (Some (js "Lesson.DOCX")))
              [80; 75]%N (js "<p>Hello</p>")
              eq_refl eq_refl eq_refl eq_refl
              ltac:(discriminate) eq_refl)
    as (htmlPunjabi & w' & response & s' & Hrun & Hup & _ & _ & Hresp & _).
  exists htmlPunjabi, w', response, s'.
  split; [exact Hrun|]. split; [exact Hup | exact Hresp].
Defined.

Lemma upload_removes_the_file_witness :
  exists response s',
    upload (sampleEnv echoService headingLast) sampleCollaborators
           (sampleRequest "Lesson.DOCX") sampleServer
    = Some (response, s')
    /\ forall q, q <> js "uploads/1" ->
                 readFile q (files s') = readFile q (files sampleServer).
Proof.
  destruct (upload (sampleEnv echoService headingLast) sampleCollaborators
                   (sampleRequest "Lesson.DOCX") sampleServer)
    as [[response s']|] eqn:Hrun; [|vm_compute in Hrun; discriminate].
  exists response, s'. split; [reflexivity|].
  exact (proj2 (upload_removes_the_file
                  (sampleEnv echoService headingLast) sampleCollaborators
                  (sampleRequest "Lesson.DOCX") sampleServer
                  (mkUploadedFile (js "uploads/1") (Some (js "Lesson.DOCX")))
                  response s' eq_refl eq_refl Hrun)).
Defined.

End UploadExamples.

(** ** The scoring of a quiz *)

Section QuizFacts.

Import Quiz.

Lemma grade_from answers correct :
  forall score results,
    fold_left
      (fun acc entry =>
         let questionId := fst entry in
         let userAnswer := snd entry in
         let correctAnswer := getProperty correct questionId in
         let isCorrect := strictEquals userAnswer correctAnswer in
         ((if isCorrect then S (fst acc) else fst acc),
          snd acc ++ [mkResult questionId userAnswer correctAnswer isCorrect]))
      answers (score, results)
    = ((score + fst (grade answers correct))%nat,
       results ++ snd (grade answers correct)).
Proof.
  unfold grade. induction answers as [|[k v] answers IH]; intros score results.
  - simpl. now rewrite Nat.add_0_r, app_nil_r.
  - cbn [fold_left fst snd]. rewrite IH. symmetry. rewrite IH.
    cbn [fst snd app]. rewrite <- app_assoc. cbn [app].
    destruct (strictEquals v (getProperty correct k)); f_equal; lia.
Qed.

Lemma grade_cons k v answers correct :
  grade ((k, v) :: answers) correct
  = (((if strictEquals v (getProperty correct k) then 1 else 0)
      + fst (grade answers correct))%nat,
     mkResult k v (getProperty correct k)
              (strictEquals v (getProperty correct k))
     :: snd (grade answers correct)).
Proof.
  unfold grade at 1. cbn [fold_left fst snd app]. rewrite grade_from.
  destruct (strictEquals v (getProperty correct k)); reflexivity.
Qed.

(** What the loop gives: a result per answer, in order, and the number
    of correct ones. *)
Lemma grade_spec answers correct :
  snd (grade answers correct)
  = map (fun entry =>
           mkResult (fst entry) (snd entry) (getProperty correct (fst entry))
                    (strictEquals (snd entry)
                                  (getProperty correct (fst entry))))
        answers
  /\ fst (grade answers correct)
     = List.length (filter isCorrect (snd (grade answers correct))).
Proof.
  induction answers as [|[k v] answers [IH1 IH2]]; [now split|].
  rewrite grade_cons. cbn [fst snd map]. split; [now rewrite IH1|].
  rewrite IH2. cbn [filter isCorrect].
  destruct (strictEquals v (getProperty correct k)); reflexivity.
Qed.

Lemma ownProperty_setProperty_same key v own :
  ownProperty (setProperty key v own) key = Some v.
Proof.
  induction own as [|[k x] own IH]; simpl.
  - now rewrite jsstring_eqb_refl.
  - destruct (jsstring_eqb key k) eqn:Hk; simpl; now rewrite Hk.
Qed.

Lemma ownProperty_setProperty_other key key' v own :
  key' <> key ->
  ownProperty (setProperty key v own) key' = ownProperty own key'.
Proof.
  intros Hne. induction own as [|[k x] own IH]; simpl.
  - destruct (jsstring_eqb key' key) eqn:Hk; [|reflexivity].
    apply jsstring_eqb_eq in Hk. contradiction.
  - destruct (jsstring_eqb key k) eqn:Hk; simpl.
    + apply jsstring_eqb_eq in Hk. subst k.
      destruct (jsstring_eqb key' key) eqn:Hk'; [|reflexivity].
      apply jsstring_eqb_eq in Hk'. contradiction.
    + destruct (jsstring_eqb key' k); [reflexivity | exact IH].
Qed.

(** The answer kept for a key is the one of the last question with that
    id. *)
Lemma correctAnswersOf_last quizContent key :
  ownProperty (correctAnswersOf quizContent) key
  = option_map correctAnswer
      (find (fun q => jsstring_eqb key (id q)) (rev quizContent)).
Proof.
  unfold correctAnswersOf.
  induction quizContent as [|q quizContent IH] using rev_ind; [reflexivity|].
  rewrite fold_left_app, rev_app_distr. cbn [fold_left rev app find].
  destruct (jsstring_eqb key (id q)) eqn:Hk.
  - apply jsstring_eqb_eq in Hk. subst key.
    apply ownProperty_setProperty_same.
  - rewrite ownProperty_setProperty_other; [exact IH|].
    intros ->. now rewrite jsstring_eqb_refl in Hk.
Qed.


(** X20. The answer expected for a key is the [correctAnswer] of the last
    question of the quiz with that id: a question that comes again
    replaces the earlier one, and an answer sent under a key that no
    question has is never marked correct.  Questions that were not
    answered leave no result. *)
Theorem answer_is_checked_against_the_last_question tables req st quizContent :
  fetchQuiz tables (quiz req) = Fetched (Questions quizContent) ->
  Forall (fun q => id q <> protoKey) quizContent ->
  exists score total results st',
    submit tables req st = Some (Scored score total results, st')
    /\ forall r,
         In r results ->
         In (questionId r, userAnswer r) (answers req)
         /\ (forall q,
               find (fun q => jsstring_eqb (questionId r) (id q))
                    (rev quizContent) = Some q ->
               expectedAnswer r = correctAnswer q
               /\ isCorrect r = strictEquals (userAnswer r) (correctAnswer q))
         /\ (find (fun q => jsstring_eqb (questionId r) (id q))
                  (rev quizContent) = None ->
             fromJson (userAnswer r) = true ->
             isCorrect r = false).
Proof.
  intros Hfetch _. unfold submit. rewrite Hfetch. cbv zeta.
  destruct (grade_spec (answers req) (correctAnswersOf quizContent))
    as [Hresults _].
  do 4 eexists. split; [reflexivity|].
  intros r Hr. rewrite Hresults in Hr.
  apply in_map_iff in Hr as ([k v] & <- & Hin).
  cbn [questionId userAnswer expectedAnswer isCorrect fst snd].
  split; [exact Hin|].
  unfold getProperty. rewrite correctAnswersOf_last.
  split.
  - intros q Hq. rewrite Hq. now split.
  - intros Hnone Hjson. rewrite Hnone. cbn [option_map].
    destruct (includes objectPrototypeNames k);
      [now destruct v|].
    destruct (jsstring_eqb k protoKey); now destruct v.
Qed.

End QuizFacts.

Section QuizExamples.

Import Quiz.

Lemma sampleQuiz_plain : Forall (fun q => id q <> protoKey) sampleQuiz.
Proof. repeat constructor; vm_compute; discriminate. Defined.


Lemma answer_is_checked_against_the_last_question_witness :
  exists score total results st',
    submit sampleTables sampleSubmission (mkStore [] O)
    = Some (Scored score total results, st').
Proof.
  destruct (answer_is_checked_against_the_last_question sampleTables
              sampleSubmission (mkStore [] O) sampleQuiz eq_refl
              sampleQuiz_plain)
    as (score & total & results & st' & Hrun & _).
  exists score, total, results, st'. exact Hrun.
Defined.

End QuizExamples.
